(** * Hover-preview popovers of the second-brain site

    A shallow embedding of the browser script that drives the popovers
    ([mouseEnterHandler] with [setPosition] and [showPopover],
    [getCurrentPopoverDepth], [getPopoverDepth], [clearDeeperPopovers],
    [clearActivePopover], [scheduleHideAtDepth],
    [cancelHideTimeoutsFromDepth], [attachPopoverListeners],
    [handleLinkLeave] and the [nav] listener with its cleanups), followed by
    the properties of the popover engine.

    Conventions of the embedding.
    - An element object is a key of the [heap]; two references are the same
      JavaScript object exactly when the keys are equal.  The tree shape of
      the page is kept apart from the element data, as a forest of keys.
    - A text is the sequence of the bytes of its UTF-8 encoding.
    - A JavaScript [number] that holds a depth is [NaN] or an integer, with
      the arithmetic of the integers.  The numbers of the script are
      doubles, which hold every integer up to the magnitude 2^53 exactly;
      every depth that the script computes from what it wrote itself, every
      array length and every [z-index] is far below that.  A depth attribute
      that other code has set can hold a longer numeral: there a double
      rounds (in [parseInt] and in [+ 1]), [toString] changes its notation,
      and the counter of a loop may stop counting up.  Beyond the magnitude
      2^53 the embedding does not follow the doubles.
    - A function of the script that can throw runs in the monad [M]: the
      effects it had before the exception stay in the state.
    - An [async] function is cut at each [await] on the network: the part
      before returns the closure it suspends with, the part after takes the
      value the promise resolved to. *)

From stdpp Require Import base gmap sets list strings pretty.
From Stdlib Require Import ZArith Lia Ascii.

Open Scope Z_scope.

(** ** JavaScript values *)

Module Js.

(** A [number] used as a depth: [Int z] is the double of the value [z],
    for [z] of magnitude up to 2^53. *)
Inductive number := NaN | Int (z : Z).

Global Instance number_eq_dec : EqDecision number.
Proof. solve_decision. Defined.

Global Instance number_countable : Countable number.
Proof.
  refine (inj_countable' (λ n, match n with NaN => None | Int z => Some z end)
                         (λ o, match o with None => NaN | Some z => Int z end) _).
  by intros [].
Defined.

(** [a + b], where the sum is of magnitude up to 2^53 *)
Definition add (a b : number) : number :=
  match a, b with
  | Int x, Int y => Int (x + y)
  | _, _ => NaN
  end.

(** [a * b], where the product is of magnitude up to 2^53 *)
Definition mul (a b : number) : number :=
  match a, b with
  | Int x, Int y => Int (x * y)
  | _, _ => NaN
  end.

(** [a >= b]: every comparison with [NaN] is false. *)
Definition ge (a b : number) : bool :=
  match a, b with
  | Int x, Int y => bool_decide (y ≤ x)
  | _, _ => false
  end.

(** [a > b] *)
Definition gt (a b : number) : bool :=
  match a, b with
  | Int x, Int y => bool_decide (y < x)
  | _, _ => false
  end.

(** [isNaN(a)] *)
Definition isNaN (a : number) : bool :=
  match a with NaN => true | Int _ => false end.

(** [a.toString()]: the decimal numeral, which is what a number of
    magnitude up to 2^53 is written as *)
Definition toString (a : number) : string :=
  match a with NaN => "NaN" | Int z => pretty z end.

(** White space and line terminators, which [parseInt] skips at the start
    of its argument.  Those of one byte: tab, line feed, vertical tab, form
    feed, carriage return and space. *)
Definition is_white (c : ascii) : bool :=
  let n := nat_of_ascii c in
  bool_decide (n = 9 ∨ n = 10 ∨ n = 11 ∨ n = 12 ∨ n = 13 ∨ n = 32)%nat.

(** Of two bytes: U+00A0, the no-break space. *)
Definition is_white2 (c1 c2 : ascii) : bool :=
  bool_decide (nat_of_ascii c1 = 194 ∧ nat_of_ascii c2 = 160)%nat.

(** Of three bytes: U+1680, U+2000 to U+200A, U+2028, U+2029, U+202F,
    U+205F, U+3000 and U+FEFF. *)
Definition is_white3 (c1 c2 c3 : ascii) : bool :=
  let n1 := nat_of_ascii c1 in
  let n2 := nat_of_ascii c2 in
  let n3 := nat_of_ascii c3 in
  bool_decide ((n1 = 225 ∧ n2 = 154 ∧ n3 = 128)
               ∨ (n1 = 226 ∧ n2 = 128 ∧ (128 ≤ n3 ≤ 138 ∨ n3 = 168 ∨ n3 = 169 ∨ n3 = 175))
               ∨ (n1 = 226 ∧ n2 = 129 ∧ n3 = 159)
               ∨ (n1 = 227 ∧ n2 = 128 ∧ n3 = 128)
               ∨ (n1 = 239 ∧ n2 = 187 ∧ n3 = 191))%nat.

Fixpoint skip_white (s : string) : string :=
  match s with
  | String c1 s1 =>
      if is_white c1 then skip_white s1
      else if bool_decide (nat_of_ascii c1 < 194)%nat then s
      else match s1 with
           | String c2 s2 =>
               if is_white2 c1 c2 then skip_white s2
               else match s2 with
                    | String c3 s3 => if is_white3 c1 c2 c3 then skip_white s3 else s
                    | EmptyString => s
                    end
           | EmptyString => s
           end
  | EmptyString => s
  end.

(** Value of a character as a digit, for radices up to 36. *)
Definition digit_value (c : ascii) : option Z :=
  let n := Z.of_nat (nat_of_ascii c) in
  if bool_decide (48 ≤ n ≤ 57) then Some (n - 48)
  else if bool_decide (97 ≤ n ≤ 122) then Some (n - 87)
  else if bool_decide (65 ≤ n ≤ 90) then Some (n - 55)
  else None.

(** The longest prefix of radix-[R] digits, read as an integer; [acc] is
    [None] until a first digit has been seen. *)
Fixpoint read_digits (R : Z) (s : string) (acc : option Z) : option Z :=
  match s with
  | String c s' =>
      match digit_value c with
      | Some d =>
          if bool_decide (d < R)
          then read_digits R s' (Some (R * default 0 acc + d))
          else acc
      | None => acc
      end
  | EmptyString => acc
  end.

Definition strip_sign (s : string) : bool * string :=
  match s with
  | String "-" s' => (true, s')
  | String "+" s' => (false, s')
  | _ => (false, s)
  end.

Definition strip_hex_prefix (s : string) : option string :=
  match s with
  | String "0" (String "x" s') => Some s'
  | String "0" (String "X" s') => Some s'
  | _ => None
  end.

(** [parseInt(s, radix)]; [radix = None] is the one-argument call.  The
    result is the integer that the digits denote, which is the number
    returned when it is of magnitude up to 2^53. *)
Definition parseInt (s : string) (radix : option Z) : number :=
  let '(negative, s1) := strip_sign (skip_white s) in
  let R := default 0 radix in
  if bool_decide (R ≠ 0 ∧ (R < 2 ∨ 36 < R)) then NaN
  else
    let '(R', s2) :=
      if bool_decide (R = 0 ∨ R = 16)
      then match strip_hex_prefix s1 with
           | Some s' => (16, s')
           | None => (if bool_decide (R = 0) then 10 else R, s1)
           end
      else (R, s1) in
    match read_digits R' s2 None with
    | None => NaN
    | Some m => Int (if negative then - m else m)
    end.

(** [s.slice(1)] *)
Definition slice1 (s : string) : string :=
  match s with String _ s' => s' | EmptyString => EmptyString end.

(** [s.split(sep)] for a one-character separator. *)
Fixpoint split (sep : ascii) (s : string) : list string :=
  match s with
  | EmptyString => [EmptyString]
  | String c s' =>
      if decide (c = sep) then EmptyString :: split sep s'
      else match split sep s' with
           | x :: xs => String c x :: xs
           | [] => [String c EmptyString]
           end
  end.

(** [v || d] on a string that may be [undefined]. *)
Definition or_else (v : option string) (d : string) : string :=
  match v with
  | Some s => if decide (s = EmptyString) then d else s
  | None => d
  end.

(** Exceptions the script can raise. *)
Inductive exn := RangeError | ReferenceError | TypeError | URIError.

Inductive result (A : Type) := Ok (a : A) | Throw (e : exn).
Global Arguments Ok {A} a.
Global Arguments Throw {A} e.

(** [array.length = n] on an array with holes: the new contents, or the
    [RangeError] the assignment throws when [n] is not an array length. *)
Definition set_length {A} (n : number) (l : list (option A)) : result (list (option A)) :=
  match n with
  | Int z =>
      if bool_decide (0 ≤ z < 2 ^ 32)
      then Ok (take (Z.to_nat z) l ++ replicate (Z.to_nat z - length l)%nat None)
      else Throw RangeError
  | NaN => Throw RangeError
  end.

(** [array[n] = v]: an index past the end grows the array, leaving holes;
    a key that is not an array index sets a plain property and leaves the
    elements alone. *)
Definition store {A} (n : number) (v : A) (l : list (option A)) : list (option A) :=
  match n with
  | Int z =>
      if bool_decide (0 ≤ z < 2 ^ 32 - 1)
      then let i := Z.to_nat z in
           if bool_decide (i < length l)%nat then <[i := Some v]> l
           else l ++ replicate (i - length l)%nat None ++ [Some v]
      else l
  | NaN => l
  end.

End Js.

Import Js.

(** ** The page *)

(** An element object is named by its key in the heap. *)
Abbreviation nid := positive.

(** The parts of a URL that the script reads. *)
Record url := Url {
  origin : string;
  pathname : string;
  search : string;    (* empty, or starts with "?" *)
  hash : string;      (* empty, or starts with "#" *)
}.

Global Instance url_eq_dec : EqDecision url.
Proof. solve_decision. Defined.

(** [u.toString()] *)
Definition url_toString (u : url) : string :=
  origin u +:+ pathname u +:+ search u +:+ hash u.

(** The data of one element.  [dataset.depth], [dataset.noPopover] and
    [dataset.contentType] are the attributes [data-depth],
    [data-no-popover] and [data-content-type]. *)
Record element := Element {
  localName : string;
  attrs : gmap string string;
  classList : list string;
  link_url : option url;        (* what [href] parses to; [None] when the element
                                   has no [href] or one that is not a URL *)
  style : gmap string string;
  offsetTop : Z;
  scrollTop : Z;
}.

Definition blank (name : string) : element :=
  {| localName := name; attrs := ∅; classList := []; link_url := None;
     style := ∅; offsetTop := 0; scrollTop := 0 |}.

Global Instance element_inhabited : Inhabited element := populate (blank "").

Definition setAttribute (k v : string) (e : element) : element :=
  {| localName := localName e; attrs := <[k := v]> (attrs e); classList := classList e;
     link_url := link_url e; style := style e; offsetTop := offsetTop e;
     scrollTop := scrollTop e |}.

Definition set_classList (f : list string → list string) (e : element) : element :=
  {| localName := localName e; attrs := attrs e; classList := f (classList e);
     link_url := link_url e; style := style e; offsetTop := offsetTop e;
     scrollTop := scrollTop e |}.

Definition set_style (k v : string) (e : element) : element :=
  {| localName := localName e; attrs := attrs e; classList := classList e;
     link_url := link_url e; style := <[k := v]> (style e); offsetTop := offsetTop e;
     scrollTop := scrollTop e |}.

Definition set_scrollTop (top : Z) (e : element) : element :=
  {| localName := localName e; attrs := attrs e; classList := classList e;
     link_url := link_url e; style := style e; offsetTop := offsetTop e;
     scrollTop := top |}.

(** [classList.contains], [classList.add], [classList.remove] *)
Definition contains (c : string) (e : element) : bool := bool_decide (c ∈ classList e).
Definition class_add (c : string) : element → element :=
  set_classList (λ l, if bool_decide (c ∈ l) then l else l ++ [c]).
Definition class_remove (c : string) : element → element :=
  set_classList (filter (λ x, x ≠ c)).

(** The shape of a tree of elements. *)
Local Unset Elimination Schemes.
Inductive dtree := Node (n : nid) (kids : list dtree).
Local Set Elimination Schemes.

Definition root (t : dtree) : nid := match t with Node n _ => n end.
Definition children (t : dtree) : list dtree := match t with Node _ kids => kids end.

(** Document order. *)
Fixpoint preorder (t : dtree) : list nid :=
  match t with Node n kids => n :: flat_map preorder kids end.

Definition nodes (f : list dtree) : list nid := flat_map preorder f.

(** The first subtree, in document order, whose root is [n]. *)
Fixpoint subtree_in (n : nid) (t : dtree) : option dtree :=
  match t with
  | Node m kids =>
      if decide (m = n) then Some t
      else (fix first ks :=
              match ks with
              | [] => None
              | k :: ks' =>
                  match subtree_in n k with Some r => Some r | None => first ks' end
              end) kids
  end.

Fixpoint subtree (n : nid) (f : list dtree) : option dtree :=
  match f with
  | [] => None
  | t :: f' => match subtree_in n t with Some r => Some r | None => subtree n f' end
  end.

(** The elements below [n], in document order. *)
Definition descendants (n : nid) (f : list dtree) : list nid :=
  match subtree n f with
  | Some t => nodes (children t)
  | None => []
  end.

(** The forest without the subtrees rooted at [n]. *)
Fixpoint prune (n : nid) (t : dtree) : dtree :=
  match t with
  | Node m kids =>
      Node m ((fix go ks :=
                 match ks with
                 | [] => []
                 | k :: ks' => if decide (root k = n) then go ks' else prune n k :: go ks'
                 end) kids)
  end.

Fixpoint remove (n : nid) (f : list dtree) : list dtree :=
  match f with
  | [] => []
  | t :: f' => if decide (root t = n) then remove n f' else prune n t :: remove n f'
  end.

(** [sub] added as the last child of [parent]. *)
Fixpoint graft (parent : nid) (sub : dtree) (t : dtree) : dtree :=
  match t with
  | Node m kids =>
      let kids' := (fix go ks :=
                      match ks with [] => [] | k :: ks' => graft parent sub k :: go ks' end) kids in
      Node m (if decide (m = parent) then kids' ++ [sub] else kids')
  end.

Definition append_child (parent : nid) (sub : dtree) (f : list dtree) : list dtree :=
  (λ t, graft parent sub t) <$> f.

(** The chain [n.parentElement], [n.parentElement.parentElement], ... *)
Fixpoint ancestors_in (n : nid) (t : dtree) : option (list nid) :=
  match t with
  | Node m kids =>
      if decide (m = n) then Some []
      else (fix first ks :=
              match ks with
              | [] => None
              | k :: ks' =>
                  match ancestors_in n k with
                  | Some up => Some (up ++ [m])
                  | None => first ks'
                  end
              end) kids
  end.

Fixpoint ancestors (n : nid) (f : list dtree) : list nid :=
  match f with
  | [] => []
  | t :: f' => match ancestors_in n t with Some up => up | None => ancestors n f' end
  end.

(** A parsed document, before its elements are objects of the page. *)
Local Unset Elimination Schemes.
Inductive html := HElem (e : element) (kids : list html).
Local Set Elimination Schemes.

(** The elements of a parsed document become objects: every one gets a key
    that is not in use. *)
Fixpoint adopt (t : html) (h : gmap nid element) : dtree * gmap nid element :=
  match t with
  | HElem e kids =>
      let n := fresh (dom h) in
      let '(ks, h') :=
        (fix go ks h :=
           match ks with
           | [] => ([], h)
           | k :: ks' =>
               let '(t', h1) := adopt k h in
               let '(ts, h2) := go ks' h1 in
               (t' :: ts, h2)
           end) kids (<[n := e]> h) in
      (Node n ks, h')
  end.

(** ** The state of the script and of the browser around it *)

(** What [mouseEnterHandler] has in scope when it suspends: [this] and the
    constants it computed before the first [await]. *)
Record hover := Hover {
  link : nid;
  clientX : Z;
  clientY : Z;
  currentDepth : number;
  fragment : string;       (* [hash], the decoded fragment of the link *)
  targetUrl : url;         (* without fragment and query *)
  popoverId : string;
}.

(** A promise the script waits on. *)
Inductive task :=
  | AwaitFetch (cx : hover)                                   (* [fetchCanonical(targetUrl)] *)
  | AwaitText (cx : hover) (popoverElement popoverInner : nid) (* [response.text()] *)
  | AwaitPosition (cx : hover) (popoverElement : nid).        (* [computePosition(...)] *)

(** The functions the script registers as event listeners. *)
Inductive listener :=
  | MouseEnterHandler     (* [mouseEnterHandler], on a link *)
  | HandleLinkLeave       (* [handleLinkLeave], on a link *)
  | PopoverMouseEnter     (* the first closure of a new popover *)
  | PopoverMouseLeave.    (* the second closure of a new popover *)

Global Instance listener_eq_dec : EqDecision listener.
Proof. solve_decision. Defined.

Global Instance listener_countable : Countable listener.
Proof.
  refine (inj_countable'
    (λ l, match l with
          | MouseEnterHandler => 0%nat | HandleLinkLeave => 1%nat
          | PopoverMouseEnter => 2%nat | PopoverMouseLeave => 3%nat end)
    (λ n, match n with
          | 0%nat => MouseEnterHandler | 1%nat => HandleLinkLeave
          | 2%nat => PopoverMouseEnter | _ => PopoverMouseLeave end) _).
  by intros [].
Defined.

(** What [window.addCleanup] was given. *)
Inductive cleanup :=
  | UnbindLink (l : nid)   (* the two [removeEventListener] of one link *)
  | Teardown.              (* the removal of all popovers *)

Global Instance cleanup_eq_dec : EqDecision cleanup.
Proof. solve_decision. Defined.

Record state := State {
  (* the variables of the module *)
  activeAnchor : option nid;
  activePopoverStack : list (option nid);
  hideTimeouts : gmap number positive;
  popoverListenersAttached : gmap nid (gset nid);
  (* the browser *)
  heap : gmap nid element;
  document : list dtree;
  body : nid;
  timers : gmap positive number;   (* pending timeouts, with the depth of the callback *)
  next_timer : positive;
  listeners : gset (nid * listener);
  cleanups : list cleanup;
  fetch_log : list url;            (* every call of [fetchCanonical] *)
  tasks : list task;
}.

Definition on_activeAnchor (f : option nid → option nid) (s : state) : state :=
  {| activeAnchor := f (activeAnchor s); activePopoverStack := activePopoverStack s;
     hideTimeouts := hideTimeouts s; popoverListenersAttached := popoverListenersAttached s;
     heap := heap s; document := document s; body := body s; timers := timers s;
     next_timer := next_timer s; listeners := listeners s; cleanups := cleanups s;
     fetch_log := fetch_log s; tasks := tasks s |}.

Definition on_activePopoverStack (f : list (option nid) → list (option nid)) (s : state) : state :=
  {| activeAnchor := activeAnchor s; activePopoverStack := f (activePopoverStack s);
     hideTimeouts := hideTimeouts s; popoverListenersAttached := popoverListenersAttached s;
     heap := heap s; document := document s; body := body s; timers := timers s;
     next_timer := next_timer s; listeners := listeners s; cleanups := cleanups s;
     fetch_log := fetch_log s; tasks := tasks s |}.

Definition on_hideTimeouts (f : gmap number positive → gmap number positive) (s : state) : state :=
  {| activeAnchor := activeAnchor s; activePopoverStack := activePopoverStack s;
     hideTimeouts := f (hideTimeouts s); popoverListenersAttached := popoverListenersAttached s;
     heap := heap s; document := document s; body := body s; timers := timers s;
     next_timer := next_timer s; listeners := listeners s; cleanups := cleanups s;
     fetch_log := fetch_log s; tasks := tasks s |}.

Definition on_popoverListenersAttached
    (f : gmap nid (gset nid) → gmap nid (gset nid)) (s : state) : state :=
  {| activeAnchor := activeAnchor s; activePopoverStack := activePopoverStack s;
     hideTimeouts := hideTimeouts s; popoverListenersAttached := f (popoverListenersAttached s);
     heap := heap s; document := document s; body := body s; timers := timers s;
     next_timer := next_timer s; listeners := listeners s; cleanups := cleanups s;
     fetch_log := fetch_log s; tasks := tasks s |}.

Definition on_heap (f : gmap nid element → gmap nid element) (s : state) : state :=
  {| activeAnchor := activeAnchor s; activePopoverStack := activePopoverStack s;
     hideTimeouts := hideTimeouts s; popoverListenersAttached := popoverListenersAttached s;
     heap := f (heap s); document := document s; body := body s; timers := timers s;
     next_timer := next_timer s; listeners := listeners s; cleanups := cleanups s;
     fetch_log := fetch_log s; tasks := tasks s |}.

Definition on_document (f : list dtree → list dtree) (s : state) : state :=
  {| activeAnchor := activeAnchor s; activePopoverStack := activePopoverStack s;
     hideTimeouts := hideTimeouts s; popoverListenersAttached := popoverListenersAttached s;
     heap := heap s; document := f (document s); body := body s; timers := timers s;
     next_timer := next_timer s; listeners := listeners s; cleanups := cleanups s;
     fetch_log := fetch_log s; tasks := tasks s |}.

Definition on_timers (f : gmap positive number → gmap positive number) (s : state) : state :=
  {| activeAnchor := activeAnchor s; activePopoverStack := activePopoverStack s;
     hideTimeouts := hideTimeouts s; popoverListenersAttached := popoverListenersAttached s;
     heap := heap s; document := document s; body := body s; timers := f (timers s);
     next_timer := next_timer s; listeners := listeners s; cleanups := cleanups s;
     fetch_log := fetch_log s; tasks := tasks s |}.

Definition on_next_timer (f : positive → positive) (s : state) : state :=
  {| activeAnchor := activeAnchor s; activePopoverStack := activePopoverStack s;
     hideTimeouts := hideTimeouts s; popoverListenersAttached := popoverListenersAttached s;
     heap := heap s; document := document s; body := body s; timers := timers s;
     next_timer := f (next_timer s); listeners := listeners s; cleanups := cleanups s;
     fetch_log := fetch_log s; tasks := tasks s |}.

Definition on_listeners (f : gset (nid * listener) → gset (nid * listener)) (s : state) : state :=
  {| activeAnchor := activeAnchor s; activePopoverStack := activePopoverStack s;
     hideTimeouts := hideTimeouts s; popoverListenersAttached := popoverListenersAttached s;
     heap := heap s; document := document s; body := body s; timers := timers s;
     next_timer := next_timer s; listeners := f (listeners s); cleanups := cleanups s;
     fetch_log := fetch_log s; tasks := tasks s |}.

Definition on_cleanups (f : list cleanup → list cleanup) (s : state) : state :=
  {| activeAnchor := activeAnchor s; activePopoverStack := activePopoverStack s;
     hideTimeouts := hideTimeouts s; popoverListenersAttached := popoverListenersAttached s;
     heap := heap s; document := document s; body := body s; timers := timers s;
     next_timer := next_timer s; listeners := listeners s; cleanups := f (cleanups s);
     fetch_log := fetch_log s; tasks := tasks s |}.

Definition on_fetch_log (f : list url → list url) (s : state) : state :=
  {| activeAnchor := activeAnchor s; activePopoverStack := activePopoverStack s;
     hideTimeouts := hideTimeouts s; popoverListenersAttached := popoverListenersAttached s;
     heap := heap s; document := document s; body := body s; timers := timers s;
     next_timer := next_timer s; listeners := listeners s; cleanups := cleanups s;
     fetch_log := f (fetch_log s); tasks := tasks s |}.

Definition on_tasks (f : list task → list task) (s : state) : state :=
  {| activeAnchor := activeAnchor s; activePopoverStack := activePopoverStack s;
     hideTimeouts := hideTimeouts s; popoverListenersAttached := popoverListenersAttached s;
     heap := heap s; document := document s; body := body s; timers := timers s;
     next_timer := next_timer s; listeners := listeners s; cleanups := cleanups s;
     fetch_log := fetch_log s; tasks := f (tasks s) |}.

(** ** Computations of the script *)

(** A computation changes the state and returns a value or throws; what it
    did before throwing stays done. *)
Definition M (A : Type) : Type := state → result A * state.

Global Instance M_ret : MRet M := λ A a s, (Ok a, s).

Global Instance M_bind : MBind M := λ A B k m s,
  match m s with
  | (Ok a, s') => k a s'
  | (Throw e, s') => (Throw e, s')
  end.

Definition throw {A} (e : exn) : M A := λ s, (Throw e, s).
Definition get : M state := λ s, (Ok s, s).
Definition modify (f : state → state) : M unit := λ s, (Ok tt, f s).

(** [list.forEach(f)] and [for (const x of list)] *)
Fixpoint forEach {A} (f : A → M unit) (l : list A) : M unit :=
  match l with
  | [] => mret tt
  | x :: l' => f x ;; forEach f l'
  end.

(** The state a computation ends in. *)
Definition exec {A} (m : M A) (s : state) : state := (m s).2.

(** ** What the script takes from the platform *)

(** Built-ins and helpers whose code is outside the script; the script is
    modelled for every behaviour they may have. *)
Class Platform := {
  (** [decodeURIComponent(s)], which throws [URIError] on a malformed escape *)
  decodeURIComponent : string → result string;
  (** [new DOMParser().parseFromString(contents, "text/html")] *)
  parseFromString : string → html;
  (** [normalizeRelativeURLs(html, targetUrl)] of [util/path] *)
  normalizeRelativeURLs : html → url → html;
  (** [querySelector] for a selector that is not [#] and an identifier:
      the candidates are given in document order *)
  selectOther : string → gmap nid element → list nid → result (option nid);
}.

(** ** Queries on the page *)

Definition elem (s : state) (n : nid) : element := heap s !!! n.

Definition dataset_depth (s : state) (n : nid) : option string :=
  attrs (elem s n) !! "data-depth".

Definition has_id (s : state) (i : string) (n : nid) : Prop :=
  attrs (elem s n) !! "id" = Some i.

(** [.popover] *)
Definition is_popover (s : state) (n : nid) : Prop :=
  contains "popover" (elem s n) = true.

(** [a.internal] *)
Definition is_internal_link (s : state) (n : nid) : Prop :=
  localName (elem s n) = "a" ∧ contains "internal" (elem s n) = true.

(** [.popover-hint] *)
Definition is_hint (s : state) (n : nid) : Prop :=
  contains "popover-hint" (elem s n) = true.

Global Instance has_id_dec s i n : Decision (has_id s i n).
Proof. unfold has_id. apply _. Defined.
Global Instance is_popover_dec s n : Decision (is_popover s n).
Proof. unfold is_popover. apply _. Defined.
Global Instance is_internal_link_dec s n : Decision (is_internal_link s n).
Proof. unfold is_internal_link. apply _. Defined.
Global Instance is_hint_dec s n : Decision (is_hint s n).
Proof. unfold is_hint. apply _. Defined.

(** [document.getElementById(i)] *)
Definition getElementById (i : string) (s : state) : option nid :=
  snd <$> list_find (has_id s i) (nodes (document s)).

(** [target.closest(selector)] *)
Definition closest (P : nid → Prop) `{∀ n, Decision (P n)} (target : nid) (s : state) : option nid :=
  snd <$> list_find P (target :: ancestors target (document s)).

(** An identifier of CSS, written without escapes. *)
Definition is_nmstart (c : ascii) : bool :=
  let n := nat_of_ascii c in
  bool_decide (65 ≤ n ≤ 90 ∨ 97 ≤ n ≤ 122 ∨ n = 95 ∨ 128 ≤ n)%nat.

Definition is_nmchar (c : ascii) : bool :=
  let n := nat_of_ascii c in
  is_nmstart c || bool_decide (48 ≤ n ≤ 57 ∨ n = 45)%nat.

Fixpoint all_nmchar (s : string) : bool :=
  match s with
  | EmptyString => true
  | String c s' => is_nmchar c && all_nmchar s'
  end.

Definition css_ident (s : string) : bool :=
  match s with
  | String "-" (String c s') =>
      (is_nmstart c || bool_decide (c = "-"%char)) && all_nmchar s'
  | String c s' => is_nmstart c && all_nmchar s'
  | EmptyString => false
  end.

Definition id_selector (selector : string) : option string :=
  match selector with
  | String "#" w => if css_ident w then Some w else None
  | _ => None
  end.

(** ** The script *)

Section Script.
Context `{Platform}.

Definition MAX_POPOVER_DEPTH : number := Int 3.

Definition ANIMATION_DELAY : Z := 200.
Definition ANIMATION_DURATION : Z := 300.
Definition MOUSE_MOVEMENT_BUFFER : Z := 200.
Definition TOTAL_HIDE_DELAY : Z := ANIMATION_DELAY + ANIMATION_DURATION + MOUSE_MOVEMENT_BUFFER.

(** [inner.querySelector(selector)] *)
Definition querySelector (inner : nid) (selector : string) : M (option nid) := λ s,
  let below := descendants inner (document s) in
  match id_selector selector with
  | Some i => (Ok (snd <$> list_find (has_id s i) below), s)
  | None => (selectOther selector (heap s) below, s)
  end.

(** [document.createElement(name)] *)
Definition createElement (name : string) : M nid := λ s,
  let n := fresh (dom (heap s)) in
  (Ok n, on_heap (<[n := blank name]>) s).

(** An assignment to a property of the element [n]. *)
Definition update (n : nid) (f : element → element) : M unit :=
  modify (on_heap (alter f n)).

(** [clearTimeout(id)] *)
Definition clearTimeout (id : positive) : M unit :=
  modify (on_timers (delete id)).

(** [window.setTimeout(() => { clearDeeperPopovers(depth); hideTimeouts.delete(depth) },
    TOTAL_HIDE_DELAY)]: the timeout is pending under a new identifier. *)
Definition setTimeout (depth : number) : M positive := λ s,
  let id := next_timer s in
  (Ok id, on_next_timer Pos.succ (on_timers (<[id := depth]>) s)).

(** The ancestors of the link are walked upwards to the first popover. *)
Fixpoint walk_up (s : state) (parents : list nid) : number :=
  match parents with
  | [] => Int 0
  | parent :: up =>
      if decide (is_popover s parent)
      then let parentDepth := parseInt (or_else (dataset_depth s parent) "0") None in
           add parentDepth (Int 1)
      else walk_up s up
  end.

Definition getCurrentPopoverDepth (link : nid) (s : state) : number :=
  walk_up s (ancestors link (document s)).

Definition getPopoverDepth (popover : nid) (s : state) : number :=
  match dataset_depth s popover with
  | None => Int 0
  | Some depthStr =>
      if decide (depthStr = "") then Int 0
      else let depth := parseInt depthStr (Some 10) in
           if isNaN depth then Int 0 else depth
  end.

(** The slots [activePopoverStack[i]] that the loop of [clearDeeperPopovers]
    reads: from [keepDepth] while [i < length].  Below index 0 the read
    gives [undefined]; with [NaN] the loop does not start.  From a
    [keepDepth] of -2^53 or more the counter [i] counts up to the length;
    from below -2^53 it would not ([i++] leaves such a double as it is). *)
Definition slots_from (keepDepth : number) (stack : list (option nid)) : list (option nid) :=
  match keepDepth with
  | Int z => drop (Z.to_nat z) stack
  | NaN => []
  end.

Definition clearDeeperPopovers (keepDepth : number) : M unit :=
  s ← get;
  forEach (λ popover : option nid,
             match popover with
             | Some p => update p (class_remove "active-popover")
             | None => mret tt
             end) (slots_from keepDepth (activePopoverStack s)) ;;
  s ← get;
  match set_length keepDepth (activePopoverStack s) with
  | Ok stack => modify (on_activePopoverStack (λ _, stack))
  | Throw e => throw e
  end.

Definition cancelHideTimeoutsFromDepth (depth : number) : M unit :=
  s ← get;
  forEach (λ '(timeoutDepth, timeoutId),
             if ge timeoutDepth depth
             then clearTimeout timeoutId ;; modify (on_hideTimeouts (delete timeoutDepth))
             else mret tt) (map_to_list (hideTimeouts s)).

Definition scheduleHideAtDepth (depth : number) : M unit :=
  s ← get;
  match hideTimeouts s !! depth with
  | Some existingTimeout => clearTimeout existingTimeout
  | None => mret tt
  end ;;
  timeoutId ← setTimeout depth;
  modify (on_hideTimeouts (<[depth := timeoutId]>)).

(** The callback of a hide timeout, when the timeout [id] expires. *)
Definition hideTimeoutFires (id : positive) : M unit :=
  s ← get;
  match timers s !! id with
  | None => mret tt
  | Some depth =>
      modify (on_timers (delete id)) ;;
      clearDeeperPopovers depth ;;
      modify (on_hideTimeouts (delete depth))
  end.

Definition clearActivePopover : M unit :=
  modify (on_activeAnchor (λ _, None)) ;;
  s ← get;
  forEach (λ popoverElement, update popoverElement (class_remove "active-popover"))
          (filter (is_popover s) (nodes (document s))) ;;
  modify (on_activePopoverStack (λ _, [])) ;;
  s ← get;
  forEach (λ '(_, timeoutId), clearTimeout timeoutId) (map_to_list (hideTimeouts s)) ;;
  modify (on_hideTimeouts (λ _, ∅)).

Definition attachPopoverListeners (popoverElement : nid) : M unit :=
  s ← get;
  let links := filter (is_internal_link s) (descendants popoverElement (document s)) in
  match popoverListenersAttached s !! popoverElement with
  | Some _ => mret tt
  | None => modify (on_popoverListenersAttached (<[popoverElement := ∅]>))
  end ;;
  forEach (λ link : nid,
             s ← get;
             let attachedLinks := default ∅ (popoverListenersAttached s !! popoverElement) in
             if decide (link ∈ attachedLinks) then mret tt
             else
               modify (on_listeners (λ ls, ls ∪ {[ (link, MouseEnterHandler) ]})) ;;
               modify (on_popoverListenersAttached
                         (<[popoverElement := attachedLinks ∪ {[ link ]}]>))) links.

(** [setPosition(popoverElement)] runs up to its [await]. *)
Definition setPosition (cx : hover) (popoverElement : nid) : M unit :=
  modify (on_tasks (λ ts, ts ++ [AwaitPosition cx popoverElement])).

(** ... and the rest of it, once [computePosition] gave the coordinates:
    [x] and [y] are the texts [x.toFixed()] and [y.toFixed()]. *)
Definition afterPosition (popoverElement : nid) (x y : string) : M unit :=
  update popoverElement
    (set_style "transform" ("translate(" +:+ x +:+ "px, " +:+ y +:+ "px)")).

(** [showPopover] closes over [hash] and [popoverInner] of the handler.
    [popoverInner] is a [const] declared further down in the handler: a
    call made before that declaration ran finds it uninitialised
    ([popoverInner = None]) and reading it throws [ReferenceError]. *)
Definition showPopover (cx : hover) (popoverInner : option nid)
    (popoverElement : nid) (depth : number) : M unit :=
  clearDeeperPopovers depth ;;
  update popoverElement (class_add "active-popover") ;;
  update popoverElement (setAttribute "data-depth" (toString depth)) ;;
  update popoverElement (set_style "z-index" (toString (add (Int 999) (mul depth (Int 10))))) ;;
  setPosition cx popoverElement ;;
  modify (on_activePopoverStack (store depth popoverElement)) ;;
  if decide (fragment cx ≠ "") then
    let targetAnchor := "#popover-internal-" +:+ slice1 (fragment cx) in
    match popoverInner with
    | None => throw ReferenceError
    | Some inner =>
        heading ← querySelector inner targetAnchor;
        match heading with
        | Some hd =>
            s ← get;
            update inner (set_scrollTop (offsetTop (elem s hd) - 12))
        | None => mret tt
        end
    end
  else mret tt.

(** [mouseEnterHandler], up to [await fetchCanonical(targetUrl)].
    [new URL(link.href)] throws [TypeError] when the [href] of the link is
    not a URL. *)
Definition mouseEnterHandler (this : nid) (clientX clientY : Z) : M unit :=
  modify (on_activeAnchor (λ _, Some this)) ;;
  let link := this in
  s ← get;
  if decide (attrs (elem s link) !! "data-no-popover" = Some "true") then mret tt
  else
    let currentDepth := getCurrentPopoverDepth link s in
    cancelHideTimeoutsFromDepth currentDepth ;;
    if ge currentDepth MAX_POPOVER_DEPTH then mret tt
    else
      match link_url (elem s link) with
      | None => throw TypeError
      | Some href =>
          match decodeURIComponent (hash href) with
          | Throw e => throw e
          | Ok hash =>
              let targetUrl := Url (origin href) (pathname href) "" "" in
              let popoverId := "popover-" +:+ pathname href in
              let cx := Hover link clientX clientY currentDepth hash targetUrl popoverId in
              s ← get;
              match getElementById popoverId s with
              | Some prevPopoverElement =>
                  showPopover cx None prevPopoverElement currentDepth ;;
                  attachPopoverListeners prevPopoverElement
              | None =>
                  modify (on_fetch_log (λ l, l ++ [targetUrl])) ;;
                  modify (on_tasks (λ ts, ts ++ [AwaitFetch cx]))
              end
          end
      end.

(** The end of [mouseEnterHandler], from the second look for [popoverId]:
    [kids] are the children given to [popoverInner]. *)
Definition insertPopover (cx : hover) (popoverElement popoverInner : nid)
    (kids : list dtree) : M unit :=
  s ← get;
  if decide (is_Some (getElementById (popoverId cx) s)) then mret tt
  else
    (if decide (body s ∈ nodes (document s))
     then modify (on_document
                    (append_child (body s) (Node popoverElement [Node popoverInner kids])))
     else throw TypeError) ;;
    s ← get;
    if decide (activeAnchor s ≠ Some (link cx)) then mret tt
    else
      showPopover cx (Some popoverInner) popoverElement (currentDepth cx) ;;
      attachPopoverListeners popoverElement ;;
      modify (on_listeners (λ ls, ls ∪ {[ (popoverElement, PopoverMouseEnter) ]})) ;;
      modify (on_listeners (λ ls, ls ∪ {[ (popoverElement, PopoverMouseLeave) ]})).

(** [mouseEnterHandler] after the fetch settled: [response] is the
    [Content-Type] header of the response, or [None] when the fetch failed
    (the error went to the console).  A response has the header: the source
    asserts it with [!]. *)
Definition afterFetch (cx : hover) (response : option string) : M unit :=
  match response with
  | None => mret tt
  | Some header =>
      let contentType := hd "" (split ";" header) in
      let contentTypeCategory := hd "" (split "/" contentType) in
      let typeInfo := split "/" contentType !! 1%nat in
      popoverElement ← createElement "div";
      update popoverElement (setAttribute "id" (popoverId cx)) ;;
      update popoverElement (class_add "popover") ;;
      popoverInner ← createElement "div";
      update popoverInner (class_add "popover-inner") ;;
      update popoverInner (setAttribute "data-content-type" contentType) ;;
      if decide (contentTypeCategory = "image") then
        img ← createElement "img";
        update img (setAttribute "src" (url_toString (targetUrl cx))) ;;
        update img (setAttribute "alt" (pathname (targetUrl cx))) ;;
        insertPopover cx popoverElement popoverInner [Node img []]
      else if decide (contentTypeCategory = "application") then
        if decide (typeInfo = Some "pdf") then
          pdf ← createElement "iframe";
          update pdf (setAttribute "src" (url_toString (targetUrl cx))) ;;
          insertPopover cx popoverElement popoverInner [Node pdf []]
        else insertPopover cx popoverElement popoverInner []
      else modify (on_tasks (λ ts, ts ++ [AwaitText cx popoverElement popoverInner]))
  end.

(** [html.querySelectorAll("[id]").forEach(el => el.id = `popover-internal-${el.id}`)] *)
Definition prefix_id (e : element) : element :=
  match attrs e !! "id" with
  | Some i => setAttribute "id" ("popover-internal-" +:+ i) e
  | None => e
  end.

Fixpoint prefix_ids (t : html) : html :=
  match t with
  | HElem e kids => HElem (prefix_id e) (map prefix_ids kids)
  end.

(** [popoverInner.appendChild(elt)]: [elt] leaves the place it has, in the
    parsed document or below an element appended before it, and becomes the
    last child of [popoverInner]. *)
Definition move_in (acc : list dtree * list dtree) (elt : nid) : list dtree * list dtree :=
  let '(inner, parsed) := acc in
  match subtree elt (inner ++ parsed) with
  | Some sub => (remove elt inner ++ [sub], remove elt parsed)
  | None => (inner, parsed)
  end.

(** The parsed document as objects of the page (not attached to it). *)
Definition adoptDocument (t : html) : M dtree := λ s,
  let '(d, h) := adopt t (heap s) in
  (Ok d, on_heap (λ _, h) s).

(** [mouseEnterHandler] after [response.text()] gave [contents]. *)
Definition afterText (cx : hover) (popoverElement popoverInner : nid)
    (contents : string) : M unit :=
  let html := normalizeRelativeURLs (parseFromString contents) (targetUrl cx) in
  parsed ← adoptDocument (prefix_ids html);
  s ← get;
  let elts := filter (is_hint s) (preorder parsed) in
  if decide (length elts = 0%nat) then mret tt
  else insertPopover cx popoverElement popoverInner (foldl move_in ([], [parsed]) elts).1.

(** [strict_eq a b] is [a === b] on numbers. *)
Definition strict_eq (a b : number) : bool :=
  match a, b with
  | Int x, Int y => bool_decide (x = y)
  | _, _ => false
  end.

(** The first closure given to a new popover: its [mouseenter] listener. *)
Definition popoverMouseEnter (popoverElement : nid) : M unit :=
  s ← get;
  let depth := parseInt (or_else (dataset_depth s popoverElement) "0") None in
  cancelHideTimeoutsFromDepth depth.

(** The second closure: its [mouseleave] listener. *)
Definition popoverMouseLeave (popoverElement : nid) (relatedTarget : option nid) : M unit :=
  s ← get;
  let currentElementDepth := getPopoverDepth popoverElement s in
  match relatedTarget with
  | Some target =>
      let leavingToPopover := closest (is_popover s) target s in
      let leavingToLink := closest (is_internal_link s) target s in
      match leavingToPopover with
      | Some popover =>
          let leavingToDepth := getPopoverDepth popover s in
          if gt leavingToDepth currentElementDepth then mret tt
          else if strict_eq leavingToDepth currentElementDepth
               then scheduleHideAtDepth currentElementDepth
               else clearDeeperPopovers (add leavingToDepth (Int 1))
      | None =>
          match leavingToLink with
          | Some _ => scheduleHideAtDepth currentElementDepth
          | None => scheduleHideAtDepth currentElementDepth
          end
      end
  | None => scheduleHideAtDepth currentElementDepth
  end.

Definition handleLinkLeave (this : nid) (relatedTarget : option nid) : M unit :=
  s ← get;
  match relatedTarget with
  | Some target =>
      match closest (is_popover s) target s with
      | Some _ => mret tt
      | None => scheduleHideAtDepth (Int 0)
      end
  | None => scheduleHideAtDepth (Int 0)
  end.

(** The cleanup that the [nav] listener registers last. *)
Definition teardown : M unit :=
  s ← get;
  forEach (λ popover : nid,
             s ← get;
             match popoverListenersAttached s !! popover with
             | Some attachedLinks =>
                 forEach (λ link : nid,
                            modify (on_listeners (λ ls, ls ∖ {[ (link, MouseEnterHandler) ]})))
                         (elements attachedLinks)
             | None => mret tt
             end ;;
             modify (on_document (remove popover)))
          (filter (is_popover s) (nodes (document s))) ;;
  modify (on_activePopoverStack (λ _, [])) ;;
  modify (on_activeAnchor (λ _, None)) ;;
  s ← get;
  forEach (λ '(_, timeoutId), clearTimeout timeoutId) (map_to_list (hideTimeouts s)) ;;
  modify (on_hideTimeouts (λ _, ∅)).

(** The listener of the [nav] event. *)
Definition onNav : M unit :=
  s ← get;
  forEach (λ link : nid,
             modify (on_listeners (λ ls, ls ∪ {[ (link, MouseEnterHandler) ]})) ;;
             modify (on_listeners (λ ls, ls ∪ {[ (link, HandleLinkLeave) ]})) ;;
             modify (on_cleanups (λ cs, cs ++ [UnbindLink link])))
          (filter (is_internal_link s) (nodes (document s))) ;;
  modify (on_cleanups (λ cs, cs ++ [Teardown])).

Definition runCleanup (c : cleanup) : M unit :=
  match c with
  | UnbindLink link =>
      modify (on_listeners (λ ls, ls ∖ {[ (link, MouseEnterHandler) ]})) ;;
      modify (on_listeners (λ ls, ls ∖ {[ (link, HandleLinkLeave) ]}))
  | Teardown => teardown
  end.

(** ** The event loop *)

(** What the browser can hand to the script. *)
Inductive event :=
  | MouseEnter (target : nid) (clientX clientY : Z)
  | MouseLeave (target : nid) (relatedTarget : option nid)
  | FetchSettled (i : nat) (response : option string)
  | TextSettled (i : nat) (contents : string)
  | PositionSettled (i : nat) (x y : string)
  | TimeoutExpired (id : positive)
  | Nav
  | Cleanups.

(** A listener runs only where it is registered. *)
Definition when (registered : bool) (m : M unit) : M unit :=
  if registered then m else mret tt.

Definition registered (s : state) (n : nid) (l : listener) : bool :=
  bool_decide ((n, l) ∈ listeners s).

(** One turn of the event loop.  An exception ends the listener that threw
    and is reported by the browser; the state stays as the listener left it. *)
Definition turn (e : event) (s : state) : state :=
  match e with
  | MouseEnter target x y =>
      let s1 := exec (when (registered s target MouseEnterHandler)
                           (mouseEnterHandler target x y)) s in
      exec (when (registered s target PopoverMouseEnter) (popoverMouseEnter target)) s1
  | MouseLeave target related =>
      let s1 := exec (when (registered s target HandleLinkLeave)
                           (handleLinkLeave target related)) s in
      exec (when (registered s target PopoverMouseLeave)
                 (popoverMouseLeave target related)) s1
  | FetchSettled i response =>
      match tasks s !! i with
      | Some (AwaitFetch cx) => exec (afterFetch cx response) (on_tasks (delete i) s)
      | _ => s
      end
  | TextSettled i contents =>
      match tasks s !! i with
      | Some (AwaitText cx popoverElement popoverInner) =>
          exec (afterText cx popoverElement popoverInner contents) (on_tasks (delete i) s)
      | _ => s
      end
  | PositionSettled i x y =>
      match tasks s !! i with
      | Some (AwaitPosition _ popoverElement) =>
          exec (afterPosition popoverElement x y) (on_tasks (delete i) s)
      | _ => s
      end
  | TimeoutExpired id => exec (hideTimeoutFires id) s
  | Nav => exec onNav s
  | Cleanups =>
      foldl (λ s c, exec (runCleanup c) s) (on_cleanups (λ _, []) s) (cleanups s)
  end.

Definition run (es : list event) (s : state) : state := foldl (λ s e, turn e s) s es.

End Script.

(** The script has just been loaded into a page. *)
Definition loaded (h : gmap nid element) (d : list dtree) (b : nid) : state :=
  {| activeAnchor := None; activePopoverStack := []; hideTimeouts := ∅;
     popoverListenersAttached := ∅; heap := h; document := d; body := b;
     timers := ∅; next_timer := 1%positive; listeners := ∅; cleanups := [];
     fetch_log := []; tasks := [] |}.

(** ** Notions used by the properties *)

(** Every pending hide timeout is the one the registry holds for its depth,
    and the identifiers handed out so far are below [next_timer]. *)
Definition timers_registered (s : state) : Prop :=
  (∀ id depth, timers s !! id = Some depth → hideTimeouts s !! depth = Some id) ∧
  (∀ id, is_Some (timers s !! id) → (id < next_timer s)%positive) ∧
  (∀ depth id, hideTimeouts s !! depth = Some id → (id < next_timer s)%positive) ∧
  (∀ depth id depth', hideTimeouts s !! depth = Some id → timers s !! id = Some depth' →
                      depth' = depth).

(** No two pending hide timeouts are for the same depth. *)
Definition one_timer_per_depth (s : state) : Prop :=
  ∀ id1 id2 depth,
    timers s !! id1 = Some depth → timers s !! id2 = Some depth → id1 = id2.

(** The part of the state the hide timers live in. *)
Definition timer_view (s : state) : gmap positive number * gmap number positive * positive :=
  (timers s, hideTimeouts s, next_timer s).

(** A computation keeps [I], whether it returns or throws. *)
Definition preserves {A} (I : state → Prop) (m : M A) : Prop :=
  ∀ s, I s → I (m s).2.

(** The elements of a parsed document, in document order. *)
Fixpoint flatten (t : html) : list element :=
  match t with HElem e kids => e :: flat_map flatten kids end.

(** [class_remove "active-popover"] on every recorded slot of [slots]. *)
Definition hide_slots (slots : list (option nid)) (h : gmap nid element) : gmap nid element :=
  foldl (λ h (popover : option nid),
           match popover with
           | Some p => alter (class_remove "active-popover") p h
           | None => h
           end) h slots.

(** The popover is shown. *)
Definition visible (s : state) (n : nid) : Prop :=
  contains "active-popover" (elem s n) = true.


(** The children of a parsed element become objects one after the other. *)
Definition adopt_all : list html → gmap nid element → list dtree * gmap nid element :=
  fix go ks h :=
    match ks with
    | [] => ([], h)
    | k :: ks' =>
        let '(t', h1) := adopt k h in
        let '(ts, h2) := go ks' h1 in
        (t' :: ts, h2)
    end.

(** What [cancelHideTimeoutsFromDepth] leaves of the registry and of the
    pending timeouts. *)
Definition cancelled (depth : number) (s : state) : state :=
  on_timers (λ t, foldl (λ t (kv : number * positive),
                           if ge kv.1 depth then delete kv.2 t else t) t
                        (map_to_list (hideTimeouts s)))
    (on_hideTimeouts (λ m, foldl (λ m (kv : number * positive),
                                    if ge kv.1 depth then delete kv.1 m else m) m
                                 (map_to_list (hideTimeouts s))) s).

(** The state [scheduleHideAtDepth] ends in. *)
Definition scheduled (depth : number) (s : state) : state :=
  on_hideTimeouts (<[depth := next_timer s]>)
    (on_next_timer Pos.succ
       (on_timers (λ t, <[next_timer s := depth]>
                          (match hideTimeouts s !! depth with
                           | Some existingTimeout => delete existingTimeout t
                           | None => t
                           end)) s)).

(** The state [clearDeeperPopovers] ends in when [K] is an array length. *)
Definition cleared (K : Z) (s : state) : state :=
  on_activePopoverStack
    (λ l, take (Z.to_nat K) l ++ replicate (Z.to_nat K - length l)%nat None)
    (on_heap (hide_slots (drop (Z.to_nat K) (activePopoverStack s))) s).

(** The state the teardown ends in; [ls] are the listeners that remain. *)
Definition torn (ls : gset (nid * listener)) (s : state) : state :=
  on_hideTimeouts (λ _, ∅)
    (on_timers (λ t, foldl (λ t (kv : number * positive),
                              if true then delete kv.2 t else t) t
                           (map_to_list (hideTimeouts s)))
       (on_activeAnchor (λ _, None)
          (on_activePopoverStack (λ _, [])
             (on_listeners (λ _, ls)
                (on_document (λ d, foldl (λ d p, remove p d) d
                                         (filter (is_popover s) (nodes (document s)))) s))))).

(** The state [showPopover] reaches at the depth [z], up to the use of the
    fragment. *)
Definition shown (cx : hover) (p : nid) (z : Z) (s : state) : state :=
  on_activePopoverStack (store (Int z) p)
    (on_tasks (λ ts, ts ++ [AwaitPosition cx p])
       (on_heap (λ h, alter (set_style "z-index" (toString (Int (999 + z * 10)))) p
                        (alter (setAttribute "data-depth" (toString (Int z))) p
                           (alter (class_add "active-popover") p h)))
          (cleared z s))).

(** A depth that a popover can have. *)
Definition depth_in_range (k : number) : Prop := ∃ z, k = Int z ∧ 0 ≤ z < 3.

(** A pending promise of the handler was started below the maximal depth,
    and the popover element it holds exists. *)
Definition task_ok (s : state) (t : task) : Prop :=
  match t with
  | AwaitFetch cx => ge (currentDepth cx) MAX_POPOVER_DEPTH = false
  | AwaitText cx popoverElement _ =>
      ge (currentDepth cx) MAX_POPOVER_DEPTH = false ∧ is_Some (heap s !! popoverElement)
  | AwaitPosition _ _ => True
  end.

(** Every pending hide timeout is for a depth from 0 to 2, and so is the
    depth attribute of every popover that has its listeners. *)
Definition depths_valid (s : state) : Prop :=
  (∀ id k, timers s !! id = Some k → depth_in_range k) ∧
  (∀ p, (p, PopoverMouseLeave) ∈ listeners s →
        ∃ z, 0 ≤ z < 3 ∧ dataset_depth s p = Some (toString (Int z))) ∧
  Forall (task_ok s) (tasks s).

(** The elements of [h] are in [h'], with the depth attribute they had. *)
Definition keeps_depths (h h' : gmap nid element) : Prop :=
  ∀ p e, h !! p = Some e →
         ∃ e', h' !! p = Some e' ∧ attrs e' !! "data-depth" = attrs e !! "data-depth".

(** [depths_valid] together with a fact about the heap. *)
Definition valid_with (F : gmap nid element → Prop) (s : state) : Prop :=
  depths_valid s ∧ F (heap s).

(** A computation started in [P] returns in [Q] or throws with the depths
    valid. *)
Definition hoare {A} (P : state → Prop) (m : M A) (Q : A → state → Prop) : Prop :=
  ∀ s, P s → match m s with
             | (Ok a, s') => Q a s'
             | (Throw _, s') => depths_valid s'
             end.

(** The depth attribute of [p] is a depth from 0 to 2. *)
Definition has_depth (p : nid) (h : gmap nid element) : Prop :=
  ∃ z e, 0 ≤ z < 3 ∧ h !! p = Some e ∧ attrs e !! "data-depth" = Some (toString (Int z)).

(** A change of the heap that leaves the class [c] on the elements it is on. *)
Definition keeps_class (c : string) (h h' : gmap nid element) : Prop :=
  ∀ n, contains c (h' !!! n) = contains c (h !!! n).

(** The listeners [attachPopoverListeners] adds for the [links] below a
    popover whose record is [A]: the handler, on the links that [A] does not
    list. *)
Definition attached_now (A : gset nid) (links : list nid) : gset (nid * listener) :=
  list_to_set ((λ l, (l, MouseEnterHandler)) <$> filter (λ l, l ∉ A) links).

(** Every URL that was fetched is without query and fragment. *)
Definition fetched_bare (s : state) : Prop :=
  Forall (λ u, search u = "" ∧ hash u = "") (fetch_log s).

(** The registry holds only timeouts that are pending, each under the depth
    of its callback. *)
Definition registry_exact (s : state) : Prop :=
  ∀ depth id, hideTimeouts s !! depth = Some id → timers s !! id = Some depth.

(** The registry and the pending timeouts mirror each other. *)
Definition registry_mirrors (s : state) : Prop :=
  timers_registered s ∧ registry_exact s.

(** The stack is not longer than the maximal depth. *)
Definition stack_bounded (s : state) : Prop :=
  (length (activePopoverStack s) ≤ 3)%nat.


(** ** A sample site, for the examples *)

Module Sample.

Definition anchor (path frag : string) : element :=
  {| localName := "a"; attrs := ∅; classList := ["internal"];
     link_url := Some (Url "https://site.example" path "" frag); style := ∅;
     offsetTop := 0; scrollTop := 0 |}.

Definition heading (i : string) (top : Z) : element :=
  {| localName := "h2"; attrs := {[ "id" := i ]}; classList := [];
     link_url := None; style := ∅; offsetTop := top; scrollTop := 0 |}.

Definition article : element := class_add "popover-hint" (blank "article").

(** What the server gives for [/page]: an article with two headings, a link
    to the second heading, a link to the page itself and a link onwards. *)
Definition page : html :=
  HElem (blank "html")
    [HElem (blank "body")
       [HElem article
          [HElem (heading "sectionA" 40) []; HElem (heading "sectionB" 120) [];
           HElem (anchor "/page" "#sectionB") []; HElem (anchor "/page" "") [];
           HElem (anchor "/deep" "") []]]].

Definition platform : Platform :=
  {| decodeURIComponent := Ok;
     parseFromString := λ contents,
       if decide (contents = "page") then page else HElem (blank "html") [];
     normalizeRelativeURLs := λ t _, t;
     selectOther := λ _ _ _, Ok None |}.

(** The page the visitor is on: four links in the body,
    2 to [/page#sectionA], 3 to [/page#sectionB], 4 to [/other], 5 to [/page]. *)
Definition home : state :=
  loaded (<[1%positive := blank "body"]>
            (<[2%positive := anchor "/page" "#sectionA"]>
               (<[3%positive := anchor "/page" "#sectionB"]>
                  (<[4%positive := anchor "/other" ""]>
                     (<[5%positive := anchor "/page" ""]> ∅)))))
         [Node 1 [Node 2 []; Node 3 []; Node 4 []; Node 5 []]]%positive 1%positive.

(** The visitor hovered link 2 and the preview of [/page] arrived: the
    popover is element 6, its inner container element 7, and the links
    inside it are 13 (to the second heading), 14 (to the page) and 15. *)
Definition previewed : state :=
  @run platform
    [Nav; MouseEnter 2%positive 10 10; FetchSettled 0 (Some "text/html; charset=utf-8");
     TextSettled 0 "page"] home.

(** A popover with a depth attribute that is not a number, and link 3 in it. *)
Definition malformed : state :=
  loaded (<[1%positive := blank "body"]>
            (<[2%positive := setAttribute "data-depth" "abc"
                               (setAttribute "id" "popover-/x"
                                  (class_add "popover" (blank "div")))]>
               (<[3%positive := anchor "/y" ""]> ∅)))
         [Node 1 [Node 2 [Node 3 []]]]%positive 1%positive.

(** A popover at depth 2, and link 3 in it. *)
Definition deep : state :=
  loaded (<[1%positive := blank "body"]>
            (<[2%positive := setAttribute "data-depth" "2"
                               (setAttribute "id" "popover-/x"
                                  (class_add "popover" (blank "div")))]>
               (<[3%positive := anchor "/y" ""]> ∅)))
         [Node 1 [Node 2 [Node 3 []]]]%positive 1%positive.

(** The closure of the handler when link 2 was entered at (10, 10). *)
Definition hover2 : hover :=
  Hover 2%positive 10 10 (Int 0) "#sectionA"
        (Url "https://site.example" "/page" "" "") "popover-/page".

(** Link 2 was entered and its fetch gave a page of HTML; the text of the
    response is still awaited. *)
Definition fetched : state :=
  @run platform
    [Nav; MouseEnter 2%positive 10 10; FetchSettled 0 (Some "text/html; charset=utf-8")]
    home.

(** Link 2 was entered, then link 4, before any fetch settled. *)
Definition two_hovers : state :=
  @run platform [Nav; MouseEnter 2%positive 10 10; MouseEnter 4%positive 20 20] home.

(** ... and then the fetch for link 2 settles with an image. *)
Definition late_image : state :=
  @turn platform (FetchSettled 0 (Some "image/png")) two_hovers.

(** Link 2 was entered and its fetch gave JSON. *)
Definition json : state :=
  @run platform
    [Nav; MouseEnter 2%positive 10 10; FetchSettled 0 (Some "application/json")] home.

(** Link 2 was entered, its fetch failed, and link 2 was entered again. *)
Definition retried : state :=
  @run platform
    [Nav; MouseEnter 2%positive 10 10; FetchSettled 0 None; MouseEnter 2%positive 10 10]
    home.

(** In the preview of [/page], the link 14 to [/page] itself was entered. *)
Definition aliased : state := @run platform [MouseEnter 14%positive 3 3] previewed.

(** In the preview of [/page], the pointer went on to link 3, to the second
    heading of the same page. *)
Definition second_fragment : state := @run platform [MouseEnter 3%positive 3 3] previewed.

(** The pointer left link 2 for the empty page. *)
Definition left_link : state := @run platform [Nav; MouseLeave 2%positive None] home.


(** On the page with the malformed depth, a hide is pending at depth 0. *)
Definition malformed_pending : state := exec (scheduleHideAtDepth (Int 0)) malformed.

(** The closure of the handler for link 3 of the page with the malformed
    depth. *)
Definition hover_malformed : hover :=
  Hover 3%positive 1 1 NaN "" (Url "https://site.example" "/y" "" "") "popover-/y".

(** A page whose only link has opted out of the previews. *)
Definition opted_out : state :=
  loaded (<[1%positive := blank "body"]>
            (<[2%positive := setAttribute "data-no-popover" "true" (anchor "/page" "")]> ∅))
         [Node 1 [Node 2 []]]%positive 1%positive.

(** A platform whose [decodeURIComponent] refuses the escape [%E0%A4%A]. *)
Definition strict : Platform :=
  {| decodeURIComponent := λ s, if decide (s = "#%E0%A4%A") then Throw URIError else Ok s;
     parseFromString := λ _, HElem (blank "html") [];
     normalizeRelativeURLs := λ t _, t;
     selectOther := λ _ _ _, Ok None |}.

(** A page whose only link has that fragment. *)
Definition broken : state :=
  loaded (<[1%positive := blank "body"]>
            (<[2%positive := anchor "/page" "#%E0%A4%A"]> ∅))
         [Node 1 [Node 2 []]]%positive 1%positive.

(** The preview of [/page] is shown and the pointer has left it for the
    empty page: the popover 6 is in the stack, link 2 is the active anchor
    and the timeout 1 is pending for the depth 0. *)
Definition left_preview : state :=
  @run platform
    [Nav; MouseEnter 2%positive 10 10; FetchSettled 0 (Some "text/html; charset=utf-8");
     TextSettled 0 "page"; MouseLeave 6%positive None] home.


(** The page with the popover at depth 2 and link 3 in it, and a link 4 to
    [/other] beside the popover. *)
Definition deeper : state :=
  loaded (<[1%positive := blank "body"]>
            (<[2%positive := setAttribute "data-depth" "2"
                               (setAttribute "id" "popover-/x"
                                  (class_add "popover" (blank "div")))]>
               (<[3%positive := anchor "/y" ""]>
                  (<[4%positive := anchor "/other" ""]> ∅))))
         [Node 1 [Node 2 [Node 3 []]; Node 4 []]]%positive 1%positive.




(** A page whose only link has no [href]. *)
Definition unlinked : state :=
  loaded (<[1%positive := blank "body"]>
            (<[2%positive := class_add "internal" (blank "a")]> ∅))
         [Node 1 [Node 2 []]]%positive 1%positive.

End Sample.

(** * Properties *)

Lemma dtree_ind (P : dtree → Prop) :
  (∀ n kids, Forall P kids → P (Node n kids)) → ∀ t, P t.
Proof.
  intros step. fix IH 1. intros [n kids]. apply step.
  induction kids as [|k kids IHkids]; constructor; [apply IH | exact IHkids].
Qed.

Lemma html_ind (P : html → Prop) :
  (∀ e kids, Forall P kids → P (HElem e kids)) → ∀ t, P t.
Proof.
  intros step. fix IH 1. intros [e kids]. apply step.
  induction kids as [|k kids IHkids]; constructor; [apply IH | exact IHkids].
Qed.

(** ** A small program logic for [M] *)

Lemma preserves_ret {A} I (a : A) : preserves I (mret a).
Proof. by intros s. Qed.

Lemma preserves_throw {A} I e : preserves I (throw (A:=A) e).
Proof. by intros s. Qed.

Lemma preserves_get I : preserves I get.
Proof. by intros s. Qed.

Lemma preserves_modify I f : (∀ s, I s → I (f s)) → preserves I (modify f).
Proof. intros Hf s. apply Hf. Qed.

Lemma preserves_bind {A B} I (m : M A) (k : A → M B) :
  preserves I m → (∀ a, preserves I (k a)) → preserves I (m ≫= k).
Proof.
  intros Hm Hk s Hs. unfold mbind, M_bind. specialize (Hm s Hs).
  destruct (m s) as [[a|e] s']; [by apply Hk | done].
Qed.

Lemma preserves_forEach {A} I (f : A → M unit) l :
  (∀ x, preserves I (f x)) → preserves I (forEach f l).
Proof.
  intros Hf. induction l; [apply preserves_ret|].
  apply preserves_bind; [apply Hf | by intros _].
Qed.

Lemma run_bind {A B} (m : M A) (k : A → M B) s :
  (m ≫= k) s = match m s with
               | (Ok a, s') => k a s'
               | (Throw e, s') => (Throw e, s')
               end.
Proof. done. Qed.

Lemma run_bind_ok {A B} (m : M A) (k : A → M B) s a s' :
  m s = (Ok a, s') → (m ≫= k) s = k a s'.
Proof. intros Hm. by rewrite run_bind, Hm. Qed.

Lemma run_bind_throw {A B} (m : M A) (k : A → M B) s e s' :
  m s = (Throw e, s') → (m ≫= k) s = (Throw e, s').
Proof. intros Hm. by rewrite run_bind, Hm. Qed.

Lemma run_ret {A B} (a : A) (k : A → M B) s : (mret a ≫= k) s = k a s.
Proof. done. Qed.

Lemma run_get {B} (k : state → M B) s : (get ≫= k) s = k s s.
Proof. done. Qed.

Lemma run_modify {B} f (k : unit → M B) s : (modify f ≫= k) s = k tt (f s).
Proof. done. Qed.

Lemma run_update {B} n f (k : unit → M B) s :
  (update n f ≫= k) s = k tt (on_heap (alter f n) s).
Proof. done. Qed.

Lemma preserves_exec {A} I (m : M A) s : preserves I m → I s → I (exec m s).
Proof. intros Hm. apply Hm. Qed.

Ltac preserves_step :=
  lazymatch goal with
  | |- preserves _ (mbind _ _) => apply preserves_bind; [|intros ?]
  | |- preserves _ (mret _) => apply preserves_ret
  | |- preserves _ get => apply preserves_get
  | |- preserves _ (throw _) => apply preserves_throw
  | |- preserves _ (forEach _ _) => apply preserves_forEach; intros ?
  | |- preserves _ (modify _) => apply preserves_modify; intros ? ?; assumption
  | |- preserves _ (update _ _) => apply preserves_modify; intros ? ?; assumption
  | |- preserves _ (setPosition _ _) => apply preserves_modify; intros ? ?; assumption
  | |- preserves _ (match ?x with _ => _ end) => destruct x
  end.

(** ** Deleting along a list *)

Section fold_delete.
Context {K V B : Type} `{Countable K}.
Implicit Types (m : gmap K V) (l : list B).

Lemma fold_delete_subseteq (P : B → bool) (g : B → K) l m :
  foldl (λ m b, if P b then delete (g b) m else m) m l ⊆ m.
Proof.
  revert m. induction l as [|b l IH]; intros m; [done|]. cbn.
  etrans; [apply IH|]. destruct (P b); [apply delete_subseteq | done].
Qed.

Lemma fold_delete_hit (P : B → bool) (g : B → K) l m b :
  b ∈ l → P b = true → foldl (λ m b, if P b then delete (g b) m else m) m l !! g b = None.
Proof.
  revert m. induction l as [|b' l IH]; intros m Hb HP; [by apply elem_of_nil in Hb|].
  apply elem_of_cons in Hb as [<- | Hb]; cbn.
  - rewrite HP. eapply lookup_weaken_None; [|apply fold_delete_subseteq].
    apply lookup_delete_eq.
  - by apply IH.
Qed.

Lemma fold_delete_miss (P : B → bool) (g : B → K) l m k :
  (∀ b, b ∈ l → P b = true → g b ≠ k) →
  foldl (λ m b, if P b then delete (g b) m else m) m l !! k = m !! k.
Proof.
  revert m. induction l as [|b l IH]; intros m Hl; [done|]. cbn.
  rewrite IH; [|intros b' Hb'; apply Hl; by right].
  destruct (P b) eqn:HP; [|done].
  apply lookup_delete_ne, Hl; [by left | done].
Qed.

End fold_delete.

Section Properties.
Context `{Platform}.

(** ** The hide timers *)

Lemma cancel_loop depth l s :
  forEach (λ '(timeoutDepth, timeoutId),
             if ge timeoutDepth depth
             then clearTimeout timeoutId ;; modify (on_hideTimeouts (delete timeoutDepth))
             else mret tt) l s
  = (Ok tt,
     on_timers (λ t, foldl (λ t (kv : number * positive),
                              if ge kv.1 depth then delete kv.2 t else t) t l)
       (on_hideTimeouts (λ m, foldl (λ m (kv : number * positive),
                                       if ge kv.1 depth then delete kv.1 m else m) m l) s)).
Proof.
  revert s. induction l as [|[k v] l IH]; intros s; [by destruct s|].
  cbn [forEach]. unfold mbind, M_bind, clearTimeout, modify, mret, M_ret.
  destruct (ge k depth) eqn:Hk; rewrite IH; cbn; by rewrite Hk.
Qed.

Lemma cancel_run depth s :
  cancelHideTimeoutsFromDepth depth s = (Ok tt, cancelled depth s).
Proof. unfold cancelHideTimeoutsFromDepth, mbind, M_bind, get. apply cancel_loop. Qed.

Lemma cancelled_registry depth s k :
  hideTimeouts (cancelled depth s) !! k
  = if ge k depth then None else hideTimeouts s !! k.
Proof.
  cbn. destruct (ge k depth) eqn:Hk.
  - destruct (hideTimeouts s !! k) as [v|] eqn:Hv.
    + apply (fold_delete_hit (λ kv : number * positive, ge kv.1 depth) fst _ _ (k, v));
        [by apply elem_of_map_to_list | done].
    + eapply lookup_weaken_None; [exact Hv|].
      apply (fold_delete_subseteq (λ kv : number * positive, ge kv.1 depth) fst).
  - apply (fold_delete_miss (λ kv : number * positive, ge kv.1 depth) fst).
    intros [k' v'] _ Hk' <-. cbn in *. congruence.
Qed.

Lemma cancelled_timers_subseteq depth s : timers (cancelled depth s) ⊆ timers s.
Proof. apply (fold_delete_subseteq (λ kv : number * positive, ge kv.1 depth) snd). Qed.

Lemma cancelled_timers_hit depth s k id :
  hideTimeouts s !! k = Some id → ge k depth = true →
  timers (cancelled depth s) !! id = None.
Proof.
  intros Hk Hge.
  apply (fold_delete_hit (λ kv : number * positive, ge kv.1 depth) snd _ _ (k, id));
    [by apply elem_of_map_to_list | done].
Qed.

Lemma cancelled_timers_miss depth s id :
  (∀ k, hideTimeouts s !! k = Some id → ge k depth = false) →
  timers (cancelled depth s) !! id = timers s !! id.
Proof.
  intros Hid. apply (fold_delete_miss (λ kv : number * positive, ge kv.1 depth) snd).
  intros [k v] Hkv Hge <-. apply elem_of_map_to_list in Hkv.
  specialize (Hid _ Hkv). cbn in Hge. congruence.
Qed.

Lemma cancelled_registered depth s :
  timers_registered s → timers_registered (cancelled depth s).
Proof.
  intros (Hreg & Hnext & Hold & Hsame). split_and!.
  - intros id k Hid.
    assert (timers s !! id = Some k) as Hbefore
      by (eapply lookup_weaken; [exact Hid | apply cancelled_timers_subseteq]).
    rewrite cancelled_registry. destruct (ge k depth) eqn:Hge; [|by apply Hreg].
    rewrite (cancelled_timers_hit depth s k id) in Hid; [done | by apply Hreg | done].
  - intros id [k Hid]. apply Hnext. exists k.
    eapply lookup_weaken; [exact Hid | apply cancelled_timers_subseteq].
  - intros k id. rewrite cancelled_registry. destruct (ge k depth); [done | apply Hold].
  - intros k id k'. rewrite cancelled_registry. destruct (ge k depth); [done|].
    intros Hk Hid. apply (Hsame _ _ _ Hk).
    eapply lookup_weaken; [exact Hid | apply cancelled_timers_subseteq].
Qed.

Lemma cancel_preserves depth :
  preserves timers_registered (cancelHideTimeoutsFromDepth depth).
Proof. intros s Hs. rewrite cancel_run. by apply cancelled_registered. Qed.

Lemma schedule_run depth s :
  scheduleHideAtDepth depth s = (Ok tt, scheduled depth s).
Proof.
  unfold scheduleHideAtDepth, scheduled, mbind, M_bind, get, clearTimeout, setTimeout,
    modify, mret, M_ret.
  by destruct (hideTimeouts s !! depth).
Qed.

Lemma scheduled_registered depth s :
  timers_registered s → timers_registered (scheduled depth s).
Proof.
  intros (Hreg & Hnext & Hstale & Hsame).
  assert (∀ id k, id ≠ next_timer s →
            match hideTimeouts s !! depth with
            | Some existingTimeout => delete existingTimeout (timers s)
            | None => timers s
            end !! id = Some k → timers s !! id = Some k) as Hkeep.
  { intros id k _. destruct (hideTimeouts s !! depth); [|done].
    intros Hk. by apply lookup_delete_Some in Hk as [_ Hk]. }
  split_and!; cbn.
  - intros id k. destruct (decide (id = next_timer s)) as [->|Hne].
    + rewrite lookup_insert_eq. intros [= <-]. by rewrite lookup_insert_eq.
    + rewrite lookup_insert_ne by done. intros Hid.
      assert (timers s !! id = Some k ∧ hideTimeouts s !! depth ≠ Some id) as [Hold Hex].
      { destruct (hideTimeouts s !! depth) as [e|]; [|done].
        apply lookup_delete_Some in Hid as [? ?]. split; [done | congruence]. }
      apply Hreg in Hold as Hk. rewrite lookup_insert_ne; [done | by intros ->].
  - intros id Hid. destruct (decide (id = next_timer s)) as [->|Hne]; [lia|].
    rewrite lookup_insert_ne in Hid by done.
    assert (is_Some (timers s !! id)) as Hold.
    { destruct (hideTimeouts s !! depth); [|done].
      destruct Hid as [k Hk]. apply lookup_delete_Some in Hk as [_ Hk]. by exists k. }
    apply Hnext in Hold. lia.
  - intros k id. destruct (decide (depth = k)) as [->|Hne].
    + rewrite lookup_insert_eq. intros [= <-]. lia.
    + rewrite lookup_insert_ne by done. intros Hk. apply Hstale in Hk. lia.
  - intros k id k'. destruct (decide (depth = k)) as [->|Hne].
    + rewrite lookup_insert_eq. intros [= <-]. rewrite lookup_insert_eq. congruence.
    + rewrite lookup_insert_ne by done. intros Hk.
      assert (id ≠ next_timer s) as Hid by (apply Hstale in Hk; lia).
      rewrite lookup_insert_ne by done. intros Hid'. apply Hkeep in Hid'; [|done].
      by eapply Hsame.
Qed.

Lemma schedule_preserves depth :
  preserves timers_registered (scheduleHideAtDepth depth).
Proof. intros s Hs. rewrite schedule_run. by apply scheduled_registered. Qed.

Lemma registered_one_per_depth s : timers_registered s → one_timer_per_depth s.
Proof.
  intros (Hreg & _) id1 id2 k H1 H2. apply Hreg in H1, H2. congruence.
Qed.

(** *** Code that does not touch the timers *)

Section timer_frame.
Context (I : state → Prop).
Hypothesis timer_only : ∀ s s', timer_view s' = timer_view s → I s → I s'.

Local Ltac leaf := intros ? ?; eapply timer_only; [|eassumption]; reflexivity.

Local Ltac frame_step :=
  lazymatch goal with
  | |- preserves _ (mbind _ _) => apply preserves_bind; [|intros ?]
  | |- preserves _ (mret _) => apply preserves_ret
  | |- preserves _ get => apply preserves_get
  | |- preserves _ (throw _) => apply preserves_throw
  | |- preserves _ (forEach _ _) => apply preserves_forEach; intros ?
  | |- preserves _ (modify _) => apply preserves_modify; leaf
  | |- preserves _ (update _ _) => apply preserves_modify; leaf
  | |- preserves _ (setPosition _ _) => apply preserves_modify; leaf
  | |- preserves _ (match ?x with _ => _ end) => destruct x
  end.

Lemma querySelector_frame inner selector : preserves I (querySelector inner selector).
Proof. intros s Hs. unfold querySelector. by destruct (id_selector selector). Qed.

Lemma createElement_frame name : preserves I (createElement name).
Proof. unfold createElement. leaf. Qed.

Lemma adoptDocument_frame t : preserves I (adoptDocument t).
Proof.
  unfold adoptDocument. intros s Hs. destruct (adopt t (heap s)). cbn.
  eapply timer_only; [|exact Hs]. reflexivity.
Qed.

Lemma clearDeeperPopovers_frame keepDepth : preserves I (clearDeeperPopovers keepDepth).
Proof. unfold clearDeeperPopovers. repeat frame_step. Qed.

Lemma showPopover_frame cx inner p depth : preserves I (showPopover cx inner p depth).
Proof.
  unfold showPopover.
  repeat first [apply clearDeeperPopovers_frame | apply querySelector_frame | frame_step].
Qed.

Lemma attachPopoverListeners_frame p : preserves I (attachPopoverListeners p).
Proof. unfold attachPopoverListeners. repeat frame_step. Qed.

Lemma insertPopover_frame cx pe pi kids : preserves I (insertPopover cx pe pi kids).
Proof.
  unfold insertPopover.
  repeat first [apply showPopover_frame | apply attachPopoverListeners_frame | frame_step].
Qed.

Lemma afterFetch_frame cx response : preserves I (afterFetch cx response).
Proof.
  unfold afterFetch.
  repeat first [apply insertPopover_frame | apply createElement_frame | frame_step].
Qed.

Lemma afterText_frame cx pe pi contents : preserves I (afterText cx pe pi contents).
Proof.
  unfold afterText.
  repeat first [apply insertPopover_frame | apply adoptDocument_frame | frame_step].
Qed.

Lemma afterPosition_frame p x y : preserves I (afterPosition p x y).
Proof. unfold afterPosition. repeat frame_step. Qed.

Lemma onNav_frame : preserves I onNav.
Proof. unfold onNav. repeat frame_step. Qed.

End timer_frame.

Lemma timers_registered_view s s' :
  timer_view s' = timer_view s → timers_registered s → timers_registered s'.
Proof. unfold timer_view, timers_registered. intros [= -> -> ->]. done. Qed.

(** *** Clearing the stack *)

Lemma hide_loop slots s :
  forEach (λ popover : option nid,
             match popover with
             | Some p => update p (class_remove "active-popover")
             | None => mret tt
             end) slots s
  = (Ok tt, on_heap (hide_slots slots) s).
Proof.
  revert s. induction slots as [|[p|] slots IH]; intros s; [by destruct s| |];
    cbn [forEach]; unfold mbind, M_bind, update, modify, mret, M_ret; by rewrite IH.
Qed.

Lemma clearDeeperPopovers_run K s :
  0 ≤ K < 2 ^ 32 → clearDeeperPopovers (Int K) s = (Ok tt, cleared K s).
Proof.
  intros HK. unfold clearDeeperPopovers, mbind, M_bind, get.
  rewrite hide_loop. cbn -[Z.pow]. by rewrite bool_decide_true.
Qed.

(** *** A timeout that expires *)

Lemma fire_preserves id : preserves timers_registered (hideTimeoutFires id).
Proof.
  intros s (Hreg & Hnext & Hstale & Hsame). unfold hideTimeoutFires, mbind, M_bind, get.
  destruct (timers s !! id) as [depth|] eqn:Hid; [|done].
  cbn [modify]. set (s1 := on_timers (delete id) s).
  set (J := λ s' : state,
         (∀ id' k, timers s' !! id' = Some k →
                   k ≠ depth ∧ hideTimeouts s' !! k = Some id') ∧
         (∀ id', is_Some (timers s' !! id') → (id' < next_timer s')%positive) ∧
         (∀ k id', hideTimeouts s' !! k = Some id' → (id' < next_timer s')%positive) ∧
         (∀ k id' k', hideTimeouts s' !! k = Some id' → timers s' !! id' = Some k' →
                      k' = k)).
  assert (J s1) as HJ.
  { split_and!; cbn; [| |done|].
    - intros id' k Hk. apply lookup_delete_Some in Hk as [Hne Hk].
      split; [|by apply Hreg]. intros ->. apply Hreg in Hk, Hid. congruence.
    - intros id' [k Hk]. apply lookup_delete_Some in Hk as [_ Hk]. apply Hnext. by exists k.
    - intros k id' k' Hk Hid'. apply lookup_delete_Some in Hid' as [_ Hid']. by eapply Hsame. }
  assert (∀ s s', timer_view s' = timer_view s → J s → J s') as Hview.
  { unfold timer_view, J. intros ?? [= -> -> ->]. done. }
  pose proof (clearDeeperPopovers_frame J Hview depth s1 HJ) as HJ2.
  destruct (clearDeeperPopovers depth s1) as [[[]|e] s2]; cbn in *.
  - destruct HJ2 as (H1 & H2 & H3 & H4). split_and!; cbn; [|done| |].
    + intros id' k Hk. destruct (H1 _ _ Hk) as [? ?]. by rewrite lookup_delete_ne.
    + intros k id' Hk. apply lookup_delete_Some in Hk as [_ Hk]. by eapply H3.
    + intros k id' k' Hk. apply lookup_delete_Some in Hk as [_ Hk]. by eapply H4.
  - destruct HJ2 as (H1 & H2 & H3 & H4). split_and!; [|done|done|done].
    intros id' k Hk. by apply H1.
Qed.

Lemma fire_run id K s :
  timers s !! id = Some (Int K) → 0 ≤ K < 2 ^ 32 →
  hideTimeoutFires id s
  = (Ok tt, on_hideTimeouts (delete (Int K)) (cleared K (on_timers (delete id) s))).
Proof.
  intros Hid HK. unfold hideTimeoutFires, mbind, M_bind, get. rewrite Hid.
  cbn [modify]. by rewrite clearDeeperPopovers_run.
Qed.

(** *** Removing subtrees *)

Lemma prune_Node n m kids : prune n (Node m kids) = Node m (remove n kids).
Proof. cbn. f_equal. induction kids as [|k kids IH]; [done|]. cbn. by rewrite IH. Qed.

Lemma nodes_cons t f : nodes (t :: f) = preorder t ++ nodes f.
Proof. done. Qed.

Lemma preorder_Node n kids : preorder (Node n kids) = n :: nodes kids.
Proof. done. Qed.



(** *** The teardown *)

Lemma unbind_loop (links : list nid) s :
  ∃ ls, forEach (λ link : nid,
                   modify (on_listeners (λ ls, ls ∖ {[ (link, MouseEnterHandler) ]})))
                links s
        = (Ok tt, on_listeners (λ _, ls) s).
Proof.
  revert s. induction links as [|l links IH]; intros s.
  - exists (listeners s). by destruct s.
  - cbn [forEach]. rewrite run_modify.
    destruct (IH (on_listeners (λ ls, ls ∖ {[ (l, MouseEnterHandler) ]}) s)) as [ls Hls].
    exists ls. by rewrite Hls.
Qed.

Lemma teardown_loop (l : list nid) s :
  ∃ ls,
    forEach (λ popover : nid,
               s ← get;
               match popoverListenersAttached s !! popover with
               | Some attachedLinks =>
                   forEach (λ link : nid,
                              modify (on_listeners (λ ls, ls ∖ {[ (link, MouseEnterHandler) ]})))
                           (elements attachedLinks)
               | None => mret tt
               end ;;
               modify (on_document (remove popover))) l s
    = (Ok tt, on_listeners (λ _, ls) (on_document (λ d, foldl (λ d p, remove p d) d l) s)).
Proof.
  revert s. induction l as [|p l IH]; intros s.
  - exists (listeners s). by destruct s.
  - cbn [forEach]. rewrite run_bind, run_get.
    destruct (popoverListenersAttached s !! p) as [A|].
    + destruct (unbind_loop (elements A) s) as [ls1 Hls1].
      rewrite (run_bind_ok _ _ _ _ _ Hls1). unfold modify at 1.
      destruct (IH (on_document (remove p) (on_listeners (λ _, ls1) s))) as [ls Hls].
      exists ls. by rewrite Hls.
    + destruct (IH (on_document (remove p) s)) as [ls Hls].
      exists ls. rewrite run_bind. unfold mret at 1, M_ret at 1, modify at 1. exact Hls.
Qed.

Lemma clearTimeout_loop (l : list (number * positive)) s :
  forEach (λ '(_, timeoutId), clearTimeout timeoutId) l s
  = (Ok tt, on_timers (λ t, foldl (λ t (kv : number * positive),
                                     if true then delete kv.2 t else t) t l) s).
Proof.
  revert s. induction l as [|[k v] l IH]; intros s; [by destruct s|].
  cbn [forEach]. unfold mbind, M_bind, clearTimeout, modify. by rewrite IH.
Qed.

Lemma teardown_run s : ∃ ls, teardown s = (Ok tt, torn ls s).
Proof.
  unfold teardown. rewrite run_get.
  destruct (teardown_loop (filter (is_popover s) (nodes (document s))) s) as [ls Hls].
  exists ls. rewrite (run_bind_ok _ _ _ _ _ Hls), !run_modify, run_get.
  by rewrite (run_bind_ok _ _ _ _ _ (clearTimeout_loop _ _)).
Qed.

Lemma torn_no_timers ls s : timers_registered s → timers (torn ls s) = ∅.
Proof.
  intros (Hreg & _). apply map_eq. intros id. rewrite lookup_empty. cbn.
  destruct (timers s !! id) as [k|] eqn:Hid.
  - apply (fold_delete_hit (λ _ : number * positive, true) snd _ _ (k, id));
      [|done]. apply elem_of_map_to_list. by apply Hreg.
  - eapply lookup_weaken_None; [exact Hid|].
    apply (fold_delete_subseteq (λ _ : number * positive, true) snd).
Qed.


Lemma torn_registered ls s : timers_registered s → timers_registered (torn ls s).
Proof.
  intros Hs. pose proof (torn_no_timers ls s Hs) as Hnone.
  unfold timers_registered. rewrite Hnone.
  split_and!; [intros id k|intros id|intros k id|intros k id k']; rewrite ?lookup_empty;
    [done | by intros [? ?] | cbn; by rewrite lookup_empty | cbn; by rewrite lookup_empty].
Qed.

Lemma teardown_preserves : preserves timers_registered teardown.
Proof. intros s Hs. destruct (teardown_run s) as [ls ->]. by apply torn_registered. Qed.

(** *** Every turn of the event loop keeps the timers registered *)

Local Ltac registered_step :=
  first
    [ apply cancel_preserves | apply schedule_preserves
    | apply (clearDeeperPopovers_frame _ timers_registered_view)
    | apply (showPopover_frame _ timers_registered_view)
    | apply (attachPopoverListeners_frame _ timers_registered_view)
    | lazymatch goal with
      | |- preserves _ (mbind _ _) => apply preserves_bind; [|intros ?]
      | |- preserves _ (mret _) => apply preserves_ret
      | |- preserves _ get => apply preserves_get
      | |- preserves _ (throw _) => apply preserves_throw
      | |- preserves _ (modify _) => apply preserves_modify; intros ? ?; assumption
      | |- preserves _ (match ?x with _ => _ end) => destruct x
      end ].

Lemma mouseEnterHandler_preserves this x y :
  preserves timers_registered (mouseEnterHandler this x y).
Proof. unfold mouseEnterHandler. cbv zeta. repeat registered_step. Qed.

Lemma popoverMouseEnter_preserves p : preserves timers_registered (popoverMouseEnter p).
Proof. unfold popoverMouseEnter. cbv zeta. repeat registered_step. Qed.

Lemma popoverMouseLeave_preserves p related :
  preserves timers_registered (popoverMouseLeave p related).
Proof. unfold popoverMouseLeave. cbv zeta. repeat registered_step. Qed.

Lemma handleLinkLeave_preserves this related :
  preserves timers_registered (handleLinkLeave this related).
Proof. unfold handleLinkLeave. repeat registered_step. Qed.

Lemma runCleanup_preserves c : preserves timers_registered (runCleanup c).
Proof. destruct c; [|apply teardown_preserves]. cbn. repeat registered_step. Qed.

Lemma loaded_registered h d b : timers_registered (loaded h d b).
Proof.
  split_and!; cbn; [intros id k|intros id|intros k id|intros k id k']; rewrite lookup_empty;
    [done | by intros [? ?] | done | done].
Qed.

Lemma turn_registered e s : timers_registered s → timers_registered (turn e s).
Proof.
  intros Hs. destruct e as [target x y|target related|i response|i contents|i x y|id| |]; cbn.
  - apply preserves_exec.
    { destruct (registered s target PopoverMouseEnter); cbn;
        [apply popoverMouseEnter_preserves | apply preserves_ret]. }
    apply preserves_exec; [|done].
    destruct (registered s target MouseEnterHandler); cbn;
      [apply mouseEnterHandler_preserves | apply preserves_ret].
  - apply preserves_exec.
    { destruct (registered s target PopoverMouseLeave); cbn;
        [apply popoverMouseLeave_preserves | apply preserves_ret]. }
    apply preserves_exec; [|done].
    destruct (registered s target HandleLinkLeave); cbn;
      [apply handleLinkLeave_preserves | apply preserves_ret].
  - destruct (tasks s !! i) as [[cx|cx pe pi|cx pe]|]; try done.
    apply preserves_exec; [apply (afterFetch_frame _ timers_registered_view) | done].
  - destruct (tasks s !! i) as [[cx|cx pe pi|cx pe]|]; try done.
    apply preserves_exec; [apply (afterText_frame _ timers_registered_view) | done].
  - by destruct (tasks s !! i) as [[cx|cx pe pi|cx pe]|].
  - by apply fire_preserves.
  - by apply (onNav_frame _ timers_registered_view).
  - assert (timers_registered (on_cleanups (λ _, []) s)) as Hs' by done.
    revert Hs'. generalize (on_cleanups (λ _, []) s). clear Hs.
    induction (cleanups s) as [|c cs IH]; intros s0 Hs0; [done|].
    cbn. apply IH. by apply runCleanup_preserves.
Qed.

Lemma run_registered es s : timers_registered s → timers_registered (run es s).
Proof.
  revert s. induction es as [|e es IH]; intros s Hs; [done|].
  cbn. apply IH. by apply turn_registered.
Qed.

Lemma reachable_registered h d b es : timers_registered (run es (loaded h d b)).
Proof. apply run_registered, loaded_registered. Qed.

(** *** The cleanups *)






(** *** A hover at the maximal depth *)

Lemma walk_up_heap s s' parents :
  heap s' = heap s → walk_up s' parents = walk_up s parents.
Proof.
  intros Hh. induction parents as [|p up IH]; [done|]. cbn. rewrite IH.
  assert (is_popover s' p ↔ is_popover s p) as Hp
    by (unfold is_popover, elem; by rewrite Hh).
  destruct (decide (is_popover s' p)), (decide (is_popover s p)); try tauto.
  unfold dataset_depth, elem. by rewrite Hh.
Qed.

Lemma mouseEnterHandler_opted_out this x y s :
  attrs (elem s this) !! "data-no-popover" = Some "true" →
  mouseEnterHandler this x y s = (Ok tt, on_activeAnchor (λ _, Some this) s).
Proof.
  intros Hopt. unfold mouseEnterHandler. rewrite run_modify, run_get.
  unfold elem in *. cbn. by rewrite decide_True.
Qed.

Lemma mouseEnterHandler_too_deep this x y s depth :
  attrs (elem s this) !! "data-no-popover" ≠ Some "true" →
  getCurrentPopoverDepth this s = depth → ge depth MAX_POPOVER_DEPTH = true →
  mouseEnterHandler this x y s
  = (Ok tt, cancelled depth (on_activeAnchor (λ _, Some this) s)).
Proof.
  intros Hopt Hdepth Hmax. unfold mouseEnterHandler. rewrite run_modify, run_get.
  unfold elem in *. cbn [heap on_activeAnchor]. rewrite decide_False by done.
  cbv zeta.
  replace (getCurrentPopoverDepth this (on_activeAnchor (λ _, Some this) s)) with depth
    by (rewrite <- Hdepth; symmetry; by apply walk_up_heap).
  rewrite (run_bind_ok _ _ _ _ _ (cancel_run _ _)). by rewrite Hmax.
Qed.

(** The end of the handler when its link is no longer the active anchor:
    at most the document changes. *)
Lemma insertPopover_stale cx pe pi kids s :
  activeAnchor s ≠ Some (link cx) →
  exec (insertPopover cx pe pi kids) s
  = on_document (λ _, document (exec (insertPopover cx pe pi kids) s)) s.
Proof.
  intros Hstale. unfold exec, insertPopover. rewrite run_get.
  destruct (decide (is_Some (getElementById (popoverId cx) s))); [by destruct s|].
  destruct (decide (body s ∈ nodes (document s))); [|by destruct s].
  rewrite run_modify, run_get. cbn [activeAnchor on_document].
  by rewrite decide_True.
Qed.



(** C5.  A pointer-enter on a link whose computed depth is 3 or more ends
    normally without a fetch, without a new element or any other change of
    an element or of the document, and with the depth stack as it was. *)
Theorem no_popover_at_max_depth this x y s z :
  getCurrentPopoverDepth this s = Int z → 3 ≤ z →
  let s' := exec (mouseEnterHandler this x y) s in
  (mouseEnterHandler this x y s).1 = Ok tt ∧
  fetch_log s' = fetch_log s ∧
  tasks s' = tasks s ∧
  heap s' = heap s ∧
  document s' = document s ∧
  activePopoverStack s' = activePopoverStack s ∧
  listeners s' = listeners s ∧
  popoverListenersAttached s' = popoverListenersAttached s.
Proof.
  intros Hdepth Hz s'. unfold s', exec.
  destruct (decide (attrs (elem s this) !! "data-no-popover" = Some "true")) as [Hopt|Hopt].
  - by rewrite mouseEnterHandler_opted_out.
  - rewrite (mouseEnterHandler_too_deep this x y s (Int z)); [done..|].
    cbn. by apply bool_decide_eq_true.
Qed.

(** *** Clearing from a depth *)

Lemma class_remove_idemp c e : class_remove c (class_remove c e) = class_remove c e.
Proof.
  unfold class_remove, set_classList. cbn. f_equal.
  induction (classList e) as [|x l IH]; [done|].
  rewrite filter_cons. destruct (decide (x ≠ c)); [|done].
  rewrite filter_cons, decide_True by done. by rewrite IH.
Qed.

Lemma class_remove_hidden c e : contains c (class_remove c e) = false.
Proof.
  unfold contains, class_remove, set_classList. cbn. apply bool_decide_eq_false.
  intros Hin. apply list_elem_of_filter in Hin as [? ?]. done.
Qed.

Lemma hide_slots_lookup slots h p :
  hide_slots slots h !! p
  = if decide (Some p ∈ slots) then class_remove "active-popover" <$> h !! p else h !! p.
Proof.
  revert h. induction slots as [|o slots IH]; intros h.
  - cbn. rewrite decide_False; [done | apply not_elem_of_nil].
  - change (hide_slots (o :: slots) h)
      with (hide_slots slots (match o with
                              | Some q => alter (class_remove "active-popover") q h
                              | None => h
                              end)).
    rewrite IH.
    assert (match o with
            | Some q => alter (class_remove "active-popover") q h
            | None => h
            end !! p
            = if decide (o = Some p) then class_remove "active-popover" <$> h !! p
              else h !! p) as ->.
    { destruct o as [q|]; [|by rewrite decide_False].
      destruct (decide (q = p)) as [->|Hne].
      - by rewrite decide_True, lookup_alter_eq.
      - rewrite decide_False by congruence. by apply lookup_alter_ne. }
    destruct (decide (Some p ∈ o :: slots)) as [Hin'|Hout'].
    + destruct (decide (Some p ∈ slots)) as [Hin|Hout].
      * destruct (decide (o = Some p)); [|done].
        destruct (h !! p); [|done]. cbn. by rewrite class_remove_idemp.
      * destruct (decide (o = Some p)) as [|Hne]; [done|].
        apply elem_of_cons in Hin' as [?|?]; congruence.
    + rewrite decide_False by (intros ?; apply Hout', elem_of_cons; by right).
      rewrite decide_False; [done|]. intros ->. apply Hout', elem_of_cons. by left.
Qed.

(** C7 (amended).  For every state of the stack and every depth [K] that
    is an array length, clearing from [K] ends normally; it removes the class
    [active-popover], and nothing else, from exactly the elements recorded
    at an index [K] or above, which stay in the document; the stack then has
    length [K] and keeps what it recorded below [K]; and every element that
    is not recorded at an index [K] or above, so every popover recorded
    below [K] only, is unchanged. *)
Theorem clearing_from_depth K s :
  0 ≤ K < 2 ^ 32 →
  let s' := exec (clearDeeperPopovers (Int K)) s in
  let deeper := drop (Z.to_nat K) (activePopoverStack s) in
  (clearDeeperPopovers (Int K) s).1 = Ok tt ∧
  (∀ p, Some p ∈ deeper →
        heap s' !! p = class_remove "active-popover" <$> heap s !! p ∧ ¬ visible s' p) ∧
  (∀ p, Some p ∉ deeper → heap s' !! p = heap s !! p) ∧
  document s' = document s ∧
  length (activePopoverStack s') = Z.to_nat K ∧
  (∀ i slot, (i < Z.to_nat K)%nat → activePopoverStack s !! i = Some slot →
             activePopoverStack s' !! i = Some slot).
Proof.
  intros HK s' deeper. unfold s', exec. rewrite clearDeeperPopovers_run by done.
  cbn [fst snd]. split_and!; [done| | |done| |].
  - intros p Hp.
    assert (heap (cleared K s) !! p = class_remove "active-popover" <$> heap s !! p) as Hh.
    { cbn. rewrite hide_slots_lookup. by rewrite decide_True. }
    split; [done|]. unfold visible, elem. rewrite lookup_total_alt, Hh.
    destruct (heap s !! p); cbn; [by rewrite class_remove_hidden | done].
  - intros p Hp. cbn. rewrite hide_slots_lookup. by rewrite decide_False.
  - cbn. rewrite length_app, length_take, length_replicate. lia.
  - intros i slot Hi Hslot. cbn.
    rewrite lookup_app_l by (rewrite length_take; apply lookup_lt_Some in Hslot; lia).
    by rewrite lookup_take_lt.
Qed.

(** *** The end of the handler *)

(** C1 (amended).  When the content is ready and the document already has
    an element with the id of the popover, the handler ends and leaves the
    whole state as it is.  When there is no such element but another link
    has become the active anchor, the handler appends the new popover to the
    body of the document and ends there: nothing else changes, so the new
    element is not shown and the depth stack is as it was. *)
Theorem stale_result cx pe pi kids s :
  (is_Some (getElementById (popoverId cx) s) →
   insertPopover cx pe pi kids s = (Ok tt, s)) ∧
  (getElementById (popoverId cx) s = None →
   body s ∈ nodes (document s) →
   activeAnchor s ≠ Some (link cx) →
   insertPopover cx pe pi kids s
   = (Ok tt, on_document (append_child (body s) (Node pe [Node pi kids])) s)).
Proof.
  split.
  - intros Hex. unfold insertPopover. rewrite run_get. by rewrite decide_True.
  - intros Hnone Hbody Hstale. unfold insertPopover. rewrite run_get.
    rewrite decide_False by (rewrite Hnone; by intros [? ?]).
    rewrite decide_True by done. rewrite run_modify, run_get.
    cbn [activeAnchor on_document]. by rewrite decide_True.
Qed.

(** *** A fetched page *)

Lemma adopt_HElem e kids h :
  adopt (HElem e kids) h
  = let n := fresh (dom h) in
    let '(ks, h') := adopt_all kids (<[n := e]> h) in
    (Node n ks, h').
Proof. done. Qed.

Lemma adopt_all_cons k ks h :
  adopt_all (k :: ks) h
  = let '(t', h1) := adopt k h in
    let '(ts, h2) := adopt_all ks h1 in
    (t' :: ts, h2).
Proof. done. Qed.

(** The elements of the parsed document are new objects with the data the
    parser gave them; the objects of the page are as they were. *)
Lemma adopt_spec t h :
  h ⊆ (adopt t h).2 ∧
  Forall2 (λ n e, (adopt t h).2 !! n = Some e) (preorder (adopt t h).1) (flatten t).
Proof.
  revert h. induction t as [e kids IH] using html_ind. intros h.
  assert (∀ h, h ⊆ (adopt_all kids h).2 ∧
               Forall2 (λ n e, (adopt_all kids h).2 !! n = Some e)
                       (nodes (adopt_all kids h).1) (flat_map flatten kids)) as Hkids.
  { clear h. induction IH as [|k ks Hk _ IHks]; intros h; [by split|].
    rewrite adopt_all_cons. destruct (Hk h) as [Hsub1 Hall1].
    destruct (adopt k h) as [t' h1]. destruct (IHks h1) as [Hsub2 Hall2].
    destruct (adopt_all ks h1) as [ts h2]. cbn in *. split.
    { etrans. exact Hsub1. exact Hsub2. }
    apply Forall2_app; [|done].
    eapply Forall2_impl; [exact Hall1|]. intros n e' Hn.
    eapply lookup_weaken; [exact Hn | exact Hsub2]. }
  rewrite adopt_HElem. cbv zeta.
  pose proof (is_fresh (dom h)) as Hfresh. apply not_elem_of_dom in Hfresh.
  destruct (Hkids (<[fresh (dom h) := e]> h)) as [Hsub Hall].
  destruct (adopt_all kids (<[fresh (dom h) := e]> h)) as [ks h']. cbn in *. split.
  - etrans; [|exact Hsub]. by apply insert_subseteq.
  - constructor; [|done]. eapply lookup_weaken; [|exact Hsub]. apply lookup_insert_eq.
Qed.

Lemma flatten_prefix_ids t : flatten (prefix_ids t) = prefix_id <$> flatten t.
Proof.
  induction t as [e kids IH] using html_ind. cbn. f_equal.
  induction IH as [|k ks Hk _ IHks]; [done|]. cbn. by rewrite fmap_app, Hk, IHks.
Qed.

Lemma prefix_id_attr e :
  attrs (prefix_id e) !! "id" = String.append "popover-internal-" <$> attrs e !! "id".
Proof.
  unfold prefix_id. destruct (attrs e !! "id") as [i|] eqn:Hi; cbn; [|by rewrite Hi].
  apply lookup_insert_eq.
Qed.

Lemma prefix_id_classList e : classList (prefix_id e) = classList e.
Proof. unfold prefix_id. by destruct (attrs e !! "id"). Qed.

Lemma subtree_root n f t : subtree n f = Some t → root t = n.
Proof.
  assert (∀ u, subtree_in n u = Some t → root t = n) as Hin.
  { intros u. induction u as [m kids IH] using dtree_ind. cbn.
    destruct (decide (m = n)) as [->|_]; [by intros [= <-]|].
    induction IH as [|k ks Hk _ IHks]; [done|].
    destruct (subtree_in n k) eqn:Hsub; [intros [= <-]; by apply Hk | done]. }
  induction f as [|u f IH]; [done|]. cbn.
  destruct (subtree_in n u) eqn:Hsub; [intros [= <-]; by eapply Hin | done].
Qed.

Lemma root_prune n t : root (prune n t) = root t.
Proof. by destruct t. Qed.

(** *** Moving subtrees *)

Lemma subtree_in_Node n m kids :
  subtree_in n (Node m kids) = if decide (m = n) then Some (Node m kids) else subtree n kids.
Proof.
  cbn. destruct (decide (m = n)); [done|].
  induction kids as [|k kids IH]; [done|]. cbn. by rewrite IH.
Qed.

Lemma nodes_app f g : nodes (f ++ g) = nodes f ++ nodes g.
Proof. apply flat_map_app. Qed.

Lemma root_elem_of t : root t ∈ preorder t.
Proof. destruct t. by left. Qed.

(** The element [n] heads a subtree of the forest exactly when it is in it. *)
Lemma subtree_is_Some n f : is_Some (subtree n f) ↔ n ∈ nodes f.
Proof.
  assert (∀ f, Forall (λ t, is_Some (subtree_in n t) ↔ n ∈ preorder t) f →
               is_Some (subtree n f) ↔ n ∈ nodes f) as Hforest.
  { clear f. intros f Hf. induction Hf as [|t f Ht _ IH]; cbn [subtree].
    - split; [by intros [? ?] | by intros ?%elem_of_nil].
    - rewrite nodes_cons, elem_of_app, <- Ht, <- IH.
      destruct (subtree_in n t); [|split; [by right | by intros [[? ?]|?]]].
      split; [by left | by eauto]. }
  apply Hforest, Forall_forall. intros t _. clear f.
  induction t as [m kids IH] using dtree_ind.
  rewrite subtree_in_Node, preorder_Node, elem_of_cons.
  destruct (decide (m = n)) as [->|Hne]; [split; [by left | by eauto]|].
  rewrite (Hforest _ IH). split; [by right | by intros [?|?]].
Qed.

Lemma subtree_in_is_Some n t : is_Some (subtree_in n t) ↔ n ∈ preorder t.
Proof.
  pose proof (subtree_is_Some n [t]) as Hs. cbn in Hs. rewrite app_nil_r in Hs.
  rewrite <- Hs. by destruct (subtree_in n t).
Qed.

Lemma subtree_None n f : n ∉ nodes f → subtree n f = None.
Proof.
  intros Hn. destruct (subtree n f) eqn:Hsub; [|done].
  destruct Hn. apply subtree_is_Some. by rewrite Hsub.
Qed.

(** Removing an element that is not there changes nothing. *)
Lemma remove_id n f : n ∉ nodes f → remove n f = f.
Proof.
  assert (∀ f, Forall (λ t, n ∉ preorder t → prune n t = t) f →
               n ∉ nodes f → remove n f = f) as Hforest.
  { clear f. intros f Hf. induction Hf as [|t f Ht _ IH]; [done|].
    rewrite nodes_cons, not_elem_of_app. intros [Hn Hn']. cbn [remove].
    rewrite decide_False by (intros <-; apply Hn, root_elem_of).
    by rewrite Ht, IH. }
  apply Hforest, Forall_forall. intros t _. clear f.
  induction t as [m kids IH] using dtree_ind.
  rewrite preorder_Node, not_elem_of_cons, prune_Node. intros [_ Hn].
  by rewrite (Hforest _ IH).
Qed.

Lemma prune_id n t : n ∉ preorder t → prune n t = t.
Proof.
  intros Hn. assert (remove n [t] = [t]) as Hid.
  { apply remove_id. cbn. by rewrite app_nil_r. }
  cbn in Hid. rewrite decide_False in Hid by (intros <-; apply Hn, root_elem_of).
  by injection Hid.
Qed.

Lemma remove_app n f g : remove n (f ++ g) = remove n f ++ remove n g.
Proof.
  induction f as [|t f IH]; [done|]. cbn. rewrite IH. by destruct (decide (root t = n)).
Qed.

Lemma remove_keeps_roots n f : n ∉ root <$> f → root <$> remove n f = root <$> f.
Proof.
  induction f as [|t f IH]; [done|]. rewrite fmap_cons, not_elem_of_cons. intros [Hn Hn'].
  cbn. rewrite decide_False by done. cbn. by rewrite root_prune, IH.
Qed.

(** In a forest without repeated elements, the subtree of [n] and what
    [remove] leaves make up the forest. *)
Lemma remove_subtree n f sub :
  NoDup (nodes f) → subtree n f = Some sub →
  nodes (remove n f) ++ preorder sub ≡ₚ nodes f.
Proof.
  assert (∀ f, Forall (λ t, NoDup (preorder t) → root t ≠ n →
                            ∀ sub, subtree_in n t = Some sub →
                                   preorder (prune n t) ++ preorder sub ≡ₚ preorder t) f →
               ∀ sub, NoDup (nodes f) → subtree n f = Some sub →
                      nodes (remove n f) ++ preorder sub ≡ₚ nodes f) as Hforest.
  { clear f sub. intros f Hf. induction Hf as [|t f Ht _ IH]; intros sub; [done|].
    rewrite nodes_cons. intros (Hdup & Hdisj & Hdup')%NoDup_app. cbn [subtree remove].
    destruct (decide (root t = n)) as [Hroot|Hroot].
    - assert (subtree_in n t = Some t) as ->
        by (destruct t as [m kids]; rewrite subtree_in_Node; cbn in Hroot;
            by rewrite decide_True).
      intros [= <-]. rewrite remove_id; [apply Permutation_app_comm|].
      apply Hdisj. rewrite <- Hroot. apply root_elem_of.
    - destruct (subtree_in n t) as [sub'|] eqn:Hsub.
      + intros [= <-]. rewrite nodes_cons.
        rewrite (remove_id n f).
        * etrans; [|apply Permutation_app; [apply (Ht Hdup Hroot sub' eq_refl) | done]].
          rewrite <- !(assoc_L (++)). f_equiv. apply Permutation_app_comm.
        * apply Hdisj. apply subtree_in_is_Some. by rewrite Hsub.
      + intros Hsub'. rewrite nodes_cons, <- (assoc_L (++)).
        rewrite prune_id.
        * f_equiv. by apply IH.
        * intros Hn. apply subtree_in_is_Some in Hn. rewrite Hsub in Hn. by destruct Hn. }
  apply Hforest, Forall_forall. intros t _. clear f sub.
  induction t as [m kids IH] using dtree_ind. intros Hdup Hroot sub.
  rewrite subtree_in_Node, prune_Node, !preorder_Node. cbn in Hroot.
  rewrite decide_False by done. intros Hsub. cbn [app]. f_equiv.
  apply (Hforest _ IH); [|done]. rewrite preorder_Node in Hdup. by apply NoDup_cons in Hdup as [_ ?].
Qed.

(** [appendChild] along a list of elements of the forest: every one of
    them becomes a child, after those that were children before, and no
    element of the forest is lost or repeated. *)
Lemma move_in_all elts inner parsed :
  NoDup (nodes (inner ++ parsed)) → NoDup elts →
  (∀ elt, elt ∈ elts → elt ∈ nodes (inner ++ parsed) ∧ elt ∉ root <$> inner) →
  let moved := foldl move_in (inner, parsed) elts in
  root <$> moved.1 = (root <$> inner) ++ elts ∧
  nodes (moved.1 ++ moved.2) ≡ₚ nodes (inner ++ parsed).
Proof.
  revert inner parsed. induction elts as [|elt elts IH]; intros inner parsed Hdup Helts Hin.
  { cbn. by rewrite app_nil_r. }
  apply NoDup_cons in Helts as [Helt Helts].
  destruct (Hin elt) as [Hnode Hroot]; [by left|].
  apply subtree_is_Some in Hnode as [sub Hsub].
  cbn [foldl]. unfold move_in at 2 4 6. rewrite Hsub.
  pose proof (remove_subtree _ _ _ Hdup Hsub) as Hperm.
  assert (nodes ((remove elt inner ++ [sub]) ++ remove elt parsed)
          ≡ₚ nodes (inner ++ parsed)) as Hperm'.
  { rewrite <- Hperm, remove_app, !nodes_app. cbn [nodes flat_map]. rewrite app_nil_r.
    rewrite <- !(assoc_L (++)). f_equiv. apply Permutation_app_comm. }
  destruct (IH (remove elt inner ++ [sub]) (remove elt parsed)) as [Hroots Hnodes].
  - by rewrite Hperm'.
  - done.
  - intros e He. split.
    + rewrite Hperm'. apply Hin. by right.
    + rewrite fmap_app, remove_keeps_roots by done. cbn.
      rewrite (subtree_root _ _ _ Hsub). apply not_elem_of_app. split.
      * apply Hin. by right.
      * apply not_elem_of_cons. split; [|apply not_elem_of_nil]. intros ->. done.
  - cbv zeta in Hroots, Hnodes. split.
    + rewrite Hroots, fmap_app, remove_keeps_roots by done. cbn.
      rewrite (subtree_root _ _ _ Hsub). by rewrite <- (assoc_L (++)).
    + by rewrite Hnodes.
Qed.

(** The elements of an adopted document are new and all different. *)
Lemma adopt_fresh t h :
  NoDup (preorder (adopt t h).1) ∧
  ∀ n, n ∈ preorder (adopt t h).1 → h !! n = None.
Proof.
  revert h. induction t as [e kids IH] using html_ind. intros h.
  assert (∀ h, NoDup (nodes (adopt_all kids h).1) ∧
               ∀ n, n ∈ nodes (adopt_all kids h).1 → h !! n = None) as Hkids.
  { clear h. induction IH as [|k ks Hk _ IHks]; intros h.
    { split; [constructor | by intros n ?%elem_of_nil]. }
    rewrite adopt_all_cons. destruct (Hk h) as [Hdup1 Hnew1].
    destruct (adopt_spec k h) as [Hsub1 Hall1].
    destruct (adopt k h) as [t' h1]. destruct (IHks h1) as [Hdup2 Hnew2].
    destruct (adopt_all ks h1) as [ts h2]. cbn [fst snd] in *.
    rewrite nodes_cons. split.
    - apply NoDup_app. split_and!; [done| |done].
      intros n Hn Hn'. apply Hnew2 in Hn'.
      apply list_elem_of_lookup in Hn as [i Hi].
      destruct (Forall2_lookup_l _ _ _ i n Hall1 Hi) as (e' & _ & He'). congruence.
    - intros n [Hn|Hn]%elem_of_app; [by apply Hnew1|].
      eapply lookup_weaken_None; [by apply Hnew2 | done]. }
  rewrite adopt_HElem. cbv zeta.
  pose proof (is_fresh (dom h)) as Hfresh. apply not_elem_of_dom in Hfresh.
  destruct (Hkids (<[fresh (dom h) := e]> h)) as [Hdup Hnew].
  destruct (adopt_all kids (<[fresh (dom h) := e]> h)) as [ks h']. cbn [fst snd] in *.
  rewrite preorder_Node. split.
  - apply NoDup_cons. split; [|done]. intros Hn. apply Hnew in Hn.
    by rewrite lookup_insert_eq in Hn.
  - intros n [->|Hn]%elem_of_cons; [done|]. apply Hnew in Hn.
    apply lookup_insert_None in Hn as [? _]. done.
Qed.

Lemma root_in_nodes f n : n ∈ root <$> f → n ∈ nodes f.
Proof.
  induction f as [|t f IH]; [by intros ?%elem_of_nil|].
  rewrite fmap_cons, nodes_cons, elem_of_cons, elem_of_app.
  intros [->|Hn]; [left; apply root_elem_of | right; by apply IH].
Qed.

Lemma alter_new_subseteq (f : element → element) n (h h1 : gmap nid element) :
  h !! n = None → h ⊆ h1 → h ⊆ alter f n h1.
Proof.
  intros Hn Hsub. apply map_subseteq_spec. intros i x Hi.
  rewrite lookup_alter_ne by congruence. by eapply lookup_weaken.
Qed.

(** The handler after the fetch, for a response that is neither an image
    nor of the category [application]: two elements are created, nothing
    is inserted, and the handler waits for the text of the response. *)
Lemma run_createElement {B} name (k : nid → M B) s :
  (createElement name ≫= k) s
  = k (fresh (dom (heap s))) (on_heap (<[fresh (dom (heap s)) := blank name]>) s).
Proof. done. Qed.

Lemma afterFetch_html cx header s :
  hd "" (split "/" (hd "" (split ";" header))) ≠ "image" →
  hd "" (split "/" (hd "" (split ";" header))) ≠ "application" →
  ∃ pe pi h,
    afterFetch cx (Some header) s
    = (Ok tt, on_tasks (λ ts, ts ++ [AwaitText cx pe pi]) (on_heap (λ _, h) s)) ∧
    heap s ⊆ h.
Proof.
  intros Himg Happ. unfold afterFetch. cbv zeta.
  rewrite run_createElement, !run_update, run_createElement, !run_update.
  rewrite decide_False by done. rewrite decide_False by done.
  eexists _, _, _. split; [reflexivity|]. cbn.
  set (pe := fresh (dom (heap s))).
  assert (heap s !! pe = None) as Hpe by (apply not_elem_of_dom, is_fresh).
  match goal with |- _ ⊆ alter _ ?n _ => set (pi := n) end.
  assert (heap s ⊆ alter (class_add "popover")
                     pe (alter (setAttribute "id" (popoverId cx)) pe
                           (<[pe := blank "div"]> (heap s)))) as Hsub.
  { do 2 (apply alter_new_subseteq; [done|]). by apply insert_subseteq. }
  assert (heap s !! pi = None) as Hpi.
  { eapply lookup_weaken_None; [|exact Hsub]. apply not_elem_of_dom, is_fresh. }
  do 2 (apply alter_new_subseteq; [done|]).
  etrans; [exact Hsub|]. apply insert_subseteq. apply not_elem_of_dom, is_fresh.
Qed.

(** C2 (amended).  For a response whose content type is neither in the
    category [image] nor in the category [application], the handler creates
    the popover elements without inserting anything and waits for the text.
    With the text, it parses the document, rewrites the relative URLs
    against the target URL, gives every element that has an id the id with
    [popover-internal-] before it, and makes the elements objects ([parsed],
    in the heap [h]) without touching an element of the page.  If no element
    has the class [popover-hint], the handler ends there and nothing is
    inserted.  Otherwise every element with the class was appended to
    [popoverInner], in document order, and the handler goes on to the
    insertion.  The children of [popoverInner] are then the elements of the
    parsed document that have the class [popover-hint], all of them and
    only them, in document order; every element of the parsed document is
    either below [popoverInner] or still in the parsed document, none in
    both; and the parsed document keeps no element with the class. *)
Theorem html_preview cx header contents pe pi s :
  hd "" (split "/" (hd "" (split ";" header))) ≠ "image" →
  hd "" (split "/" (hd "" (split ";" header))) ≠ "application" →
  (∃ pe' pi' h',
     afterFetch cx (Some header) s
     = (Ok tt, on_tasks (λ ts, ts ++ [AwaitText cx pe' pi']) (on_heap (λ _, h') s)) ∧
     heap s ⊆ h') ∧
  let html := normalizeRelativeURLs (parseFromString contents) (targetUrl cx) in
  let parsed := (adopt (prefix_ids html) (heap s)).1 in
  let h := (adopt (prefix_ids html) (heap s)).2 in
  let s1 := on_heap (λ _, h) s in
  let elts := filter (is_hint s1) (preorder parsed) in
  heap s ⊆ h ∧
  Forall2 (λ n e, ∃ e', h !! n = Some e' ∧
                        attrs e' !! "id"
                        = String.append "popover-internal-" <$> attrs e !! "id" ∧
                        classList e' = classList e)
          (preorder parsed) (flatten html) ∧
  (elts = [] → afterText cx pe pi contents s = (Ok tt, s1)) ∧
  (elts ≠ [] →
   let moved := foldl move_in ([], [parsed]) elts in
   afterText cx pe pi contents s = insertPopover cx pe pi moved.1 s1 ∧
   root <$> moved.1 = elts ∧
   nodes moved.1 ++ nodes moved.2 ≡ₚ preorder parsed ∧
   ∀ n, n ∈ nodes moved.2 → ¬ is_hint s1 n).
Proof.
  intros Himg Happ. split; [by apply afterFetch_html|].
  intros html parsed h s1 elts.
  destruct (adopt_spec (prefix_ids html) (heap s)) as [Hsub Hall].
  destruct (adopt_fresh (prefix_ids html) (heap s)) as [Hdup _].
  fold parsed h in Hsub, Hall, Hdup.
  assert (afterText cx pe pi contents s
          = if decide (length elts = 0%nat) then (Ok tt, s1)
            else insertPopover cx pe pi (foldl move_in ([], [parsed]) elts).1 s1) as Hrun.
  { unfold afterText. cbv zeta. fold html. unfold adoptDocument at 1.
    rewrite run_bind. unfold elts, s1, h, parsed.
    destruct (adopt (prefix_ids html) (heap s)) as [d0 h0]. cbn [fst snd].
    rewrite run_get. by destruct (decide _). }
  split_and!.
  - done.
  - rewrite flatten_prefix_ids in Hall. apply Forall2_fmap_r in Hall.
    eapply Forall2_impl; [exact Hall|]. intros n e Hn. exists (prefix_id e).
    split_and!; [done | apply prefix_id_attr | apply prefix_id_classList].
  - intros Hnone. rewrite Hrun, Hnone. done.
  - intros Hsome.
    destruct (move_in_all elts [] [parsed]) as [Hroots Hnodes].
    { cbn. by rewrite app_nil_r. }
    { by apply NoDup_filter. }
    { intros elt Helt. apply list_elem_of_filter in Helt as [_ Helt]. cbn.
      rewrite app_nil_r. split; [done | apply not_elem_of_nil]. }
    cbv zeta in Hroots, Hnodes. cbn [app fmap list_fmap] in Hroots.
    rewrite nodes_app in Hnodes. cbn [app nodes flat_map] in Hnodes.
    rewrite app_nil_r in Hnodes.
    split_and!; [|done|done|].
    + rewrite Hrun. rewrite decide_False; [done|]. by destruct elts.
    + intros n Hn Hhint.
      assert (NoDup (nodes (foldl move_in ([], [parsed]) elts).1
                     ++ nodes (foldl move_in ([], [parsed]) elts).2)) as Hdup'
        by (by rewrite Hnodes).
      apply NoDup_app in Hdup' as (_ & Hdisj & _). apply (Hdisj n); [|done].
      apply root_in_nodes. rewrite Hroots. apply list_elem_of_filter. split; [done|].
      rewrite <- Hnodes. apply elem_of_app. by right.
Qed.

(** *** Showing a popover that is already there *)

Lemma showPopover_reused cx p z s :
  0 ≤ z < 2 ^ 32 →
  showPopover cx None p (Int z) s
  = (if decide (fragment cx ≠ "") then Throw ReferenceError else Ok tt, shown cx p z s).
Proof.
  intros Hz. unfold showPopover.
  rewrite (run_bind_ok _ _ _ _ _ (clearDeeperPopovers_run z s Hz)).
  rewrite !run_update. unfold setPosition. rewrite !run_modify.
  by destruct (decide (fragment cx ≠ "")).
Qed.

Lemma class_add_contains c e : contains c (class_add c e) = true.
Proof.
  unfold contains, class_add, set_classList. cbn. apply bool_decide_eq_true.
  destruct (bool_decide (c ∈ classList e)) eqn:Hc.
  - by apply bool_decide_eq_true in Hc.
  - apply elem_of_app. right. by left.
Qed.

Lemma shown_elem cx p z s e :
  heap s !! p = Some e →
  ∃ e0, heap (shown cx p z s) !! p
        = Some (set_style "z-index" (toString (Int (999 + z * 10)))
                  (setAttribute "data-depth" (toString (Int z))
                     (class_add "active-popover" e0))).
Proof.
  intros He. cbn. rewrite !lookup_alter_eq, hide_slots_lookup, He.
  destruct (decide _); cbn; eauto.
Qed.

Lemma shown_stack cx p z s :
  0 ≤ z < 3 →
  length (activePopoverStack (shown cx p z s)) = S (Z.to_nat z) ∧
  activePopoverStack (shown cx p z s) !! Z.to_nat z = Some (Some p).
Proof.
  intros Hz. cbn -[Z.pow].
  set (l := take (Z.to_nat z) (activePopoverStack s)
            ++ replicate (Z.to_nat z - length (activePopoverStack s))%nat None).
  assert (length l = Z.to_nat z) as Hl
    by (unfold l; rewrite length_app, length_take, length_replicate; lia).
  rewrite bool_decide_true by lia. cbv zeta.
  rewrite bool_decide_false by lia. rewrite Hl, Nat.sub_diag. cbn [replicate app].
  split.
  - rewrite length_app, Hl. cbn. lia.
  - rewrite lookup_app_r by lia. by rewrite Hl, Nat.sub_diag.
Qed.

Lemma getElementById_Some i s n :
  getElementById i s = Some n → has_id s i n ∧ is_Some (heap s !! n).
Proof.
  unfold getElementById. intros Hn.
  destruct (list_find (has_id s i) (nodes (document s))) as [[j m]|] eqn:Hfind; [|done].
  injection Hn as ->. apply list_find_Some in Hfind as (_ & Hid & _).
  split; [done|]. unfold has_id, elem in Hid. rewrite lookup_total_alt in Hid.
  destruct (heap s !! n); [done|]. cbn in Hid. by rewrite lookup_empty in Hid.
Qed.

(** *** Attaching the listeners of a popover *)

Lemma attach_loop p (links : list nid) s A :
  popoverListenersAttached s !! p = Some A →
  ∃ ls,
    forEach (λ link : nid,
               s ← get;
               let attachedLinks := default ∅ (popoverListenersAttached s !! p) in
               if decide (link ∈ attachedLinks) then mret tt
               else
                 modify (on_listeners (λ ls, ls ∪ {[ (link, MouseEnterHandler) ]})) ;;
                 modify (on_popoverListenersAttached
                           (<[p := attachedLinks ∪ {[ link ]}]>))) links s
    = (Ok tt, on_popoverListenersAttached (<[p := A ∪ list_to_set links]>)
                (on_listeners (λ _, ls) s)) ∧
    listeners s ⊆ ls ∧
    ∀ l, l ∈ links → l ∈ A ∨ (l, MouseEnterHandler) ∈ ls.
Proof.
  revert s A. induction links as [|x links IH]; intros s A HA.
  - exists (listeners s). split_and!; [|done|by intros l Hl%elem_of_nil].
    destruct s. unfold on_popoverListenersAttached, on_listeners. cbn in *.
    rewrite (right_id_L ∅ (∪)). by rewrite insert_id.
  - cbn [forEach]. destruct (decide (x ∈ A)) as [Hx|Hx].
    + erewrite run_bind_ok;
        [|rewrite run_get; cbv zeta; rewrite HA; change (default ∅ (Some A)) with A;
          rewrite decide_True by done; reflexivity].
      destruct (IH s A HA) as (ls & Hrun & Hsub & Hall). exists ls.
      cbv zeta in Hrun |- *. rewrite Hrun. split_and!; [|done|].
      * replace (A ∪ list_to_set (x :: links)) with (A ∪ list_to_set links :> gset nid);
          [done|]. cbn. apply set_eq. intros y.
        rewrite !elem_of_union, elem_of_singleton.
        split; [intros [?|?]; [by left | by right; right]|].
        intros [?|[->|?]]; [by left | by left | by right].
      * intros l Hl. apply elem_of_cons in Hl as [->|Hl]; [by left | by apply Hall].
    + erewrite run_bind_ok;
        [|rewrite run_get; cbv zeta; rewrite HA; change (default ∅ (Some A)) with A;
          rewrite decide_False by done; rewrite run_modify; reflexivity].
      set (s1 := on_popoverListenersAttached (<[p := A ∪ {[x]}]>)
                   (on_listeners (λ ls, ls ∪ {[ (x, MouseEnterHandler) ]}) s)).
      destruct (IH s1 (A ∪ {[x]})) as (ls & Hrun & Hsub & Hall);
        [by (cbn; rewrite lookup_insert_eq)|].
      exists ls. cbv zeta in Hrun |- *. rewrite Hrun. cbn in Hsub. split_and!.
      * f_equal. destruct s. unfold s1, on_popoverListenersAttached, on_listeners. cbn.
        f_equal. rewrite insert_insert_eq. f_equal. cbn. by rewrite (assoc_L (∪)).
      * intros l Hl. apply Hsub, elem_of_union. by left.
      * assert ((x, MouseEnterHandler) ∈ ls) as Hx'
          by (apply Hsub, elem_of_union; right; by apply elem_of_singleton).
        intros l Hl. apply elem_of_cons in Hl as [->|Hl]; [by right|].
        destruct (Hall l Hl) as [HlA|?]; [|by right].
        apply elem_of_union in HlA as [?|HlA]; [by left|].
        right. by apply elem_of_singleton in HlA as ->.
Qed.

Lemma attach_run p s :
  ∃ ls,
    attachPopoverListeners p s
    = (Ok tt,
       on_popoverListenersAttached
         (<[p := default ∅ (popoverListenersAttached s !! p)
                 ∪ list_to_set (filter (is_internal_link s) (descendants p (document s)))]>)
         (on_listeners (λ _, ls) s)) ∧
    listeners s ⊆ ls ∧
    ∀ l, l ∈ descendants p (document s) → is_internal_link s l →
         l ∈ default ∅ (popoverListenersAttached s !! p) ∨ (l, MouseEnterHandler) ∈ ls.
Proof.
  unfold attachPopoverListeners. rewrite run_get. cbv zeta.
  set (links := filter (is_internal_link s) (descendants p (document s))).
  destruct (popoverListenersAttached s !! p) as [A|] eqn:HA.
  - rewrite run_ret.
    destruct (attach_loop p links s A HA) as (ls & Hrun & Hsub & Hall).
    exists ls. cbv zeta in Hrun. rewrite Hrun. split_and!; [done..|].
    intros l Hl Hlink. apply Hall. by apply list_elem_of_filter.
  - rewrite run_modify.
    destruct (attach_loop p links (on_popoverListenersAttached (<[p := ∅]>) s) ∅)
      as (ls & Hrun & Hsub & Hall); [by (cbn; rewrite lookup_insert_eq)|].
    exists ls. cbv zeta in Hrun. rewrite Hrun. split_and!; [|done|].
    + f_equal. destruct s. unfold on_popoverListenersAttached, on_listeners. cbn.
      f_equal. by rewrite insert_insert_eq.
    + intros l Hl Hlink. apply Hall. by apply list_elem_of_filter.
Qed.

Lemma mouseEnterHandler_hover this x y s :
  attrs (elem s this) !! "data-no-popover" ≠ Some "true" →
  ge (getCurrentPopoverDepth this s) MAX_POPOVER_DEPTH = false →
  let depth := getCurrentPopoverDepth this s in
  let s1 := cancelled depth (on_activeAnchor (λ _, Some this) s) in
  mouseEnterHandler this x y s
  = match link_url (elem s this) with
    | None => (Throw TypeError, s1)
    | Some href =>
        match decodeURIComponent (hash href) with
        | Throw e => (Throw e, s1)
        | Ok frag =>
            let cx := Hover this x y depth frag (Url (origin href) (pathname href) "" "")
                            ("popover-" +:+ pathname href) in
            match getElementById ("popover-" +:+ pathname href) s with
            | Some prev => (showPopover cx None prev depth ;; attachPopoverListeners prev) s1
            | None => (Ok tt, on_tasks (λ ts, ts ++ [AwaitFetch cx])
                                (on_fetch_log (λ l, l ++ [targetUrl cx]) s1))
            end
        end
    end.
Proof.
  intros Hopt Hge depth s1. unfold mouseEnterHandler. rewrite run_modify, run_get.
  unfold elem in *. cbn [heap on_activeAnchor]. rewrite decide_False by done.
  cbv zeta.
  replace (getCurrentPopoverDepth this (on_activeAnchor (λ _, Some this) s)) with depth
    by (symmetry; by apply walk_up_heap).
  rewrite (run_bind_ok _ _ _ _ _ (cancel_run _ _)). fold s1. unfold depth at 1.
  rewrite Hge. destruct (link_url (heap s !!! this)) as [href|]; [|done].
  destruct (decodeURIComponent (hash href)) as [frag|e]; [|done].
  rewrite run_get.
  change (getElementById ("popover-" +:+ pathname href) s1)
    with (getElementById ("popover-" +:+ pathname href) s).
  by destruct (getElementById _ s).
Qed.

(** The task that was pending last settles. *)
Lemma delete_last {A} (l : list A) x : delete (length l) (l ++ [x]) = l.
Proof.
  rewrite delete_take_drop, take_app_length.
  rewrite drop_ge by (rewrite length_app; cbn; lia). apply app_nil_r.
Qed.

(** C6 (amended).  When the [href] of the link parses and the document
    already holds an element whose id is [popover-] and the path of the
    link, a pointer-enter on the link (not opted out, with a computed depth
    from 0 to 2) calls no fetch and leaves the document as it is, whatever
    the query and the fragment of the link.  If [decodeURIComponent] throws
    on the fragment, the handler ends with that exception and nothing is
    shown.  Otherwise that element is the one shown: it has the class
    [active-popover] and the depth of the link, it is recorded in the stack
    at that depth, and a placement is computed for it at the pointer
    position; when that placement arrives, it becomes the [transform] of
    the element.  When the fragment is empty the handler also ends normally,
    and then every internal link inside the element is in its attachment
    record and carries the handler, unless the record already listed it. *)
Theorem reuse_without_fetch this x y s z href prev :
  attrs (elem s this) !! "data-no-popover" ≠ Some "true" →
  getCurrentPopoverDepth this s = Int z → 0 ≤ z < 3 →
  link_url (elem s this) = Some href →
  getElementById ("popover-" +:+ pathname href) s = Some prev →
  let s' := exec (mouseEnterHandler this x y) s in
  fetch_log s' = fetch_log s ∧
  document s' = document s ∧
  (∀ e, decodeURIComponent (hash href) = Throw e →
        (mouseEnterHandler this x y s).1 = Throw e ∧
        heap s' = heap s ∧ activePopoverStack s' = activePopoverStack s ∧
        tasks s' = tasks s ∧ listeners s' = listeners s) ∧
  (∀ frag, decodeURIComponent (hash href) = Ok frag →
     (∃ cx, tasks s' = tasks s ++ [AwaitPosition cx prev] ∧
            link cx = this ∧ clientX cx = x ∧ clientY cx = y) ∧
     visible s' prev ∧
     dataset_depth s' prev = Some (toString (Int z)) ∧
     length (activePopoverStack s') = S (Z.to_nat z) ∧
     activePopoverStack s' !! Z.to_nat z = Some (Some prev) ∧
     (∀ px py,
        let s'' := turn (PositionSettled (length (tasks s)) px py) s' in
        style (elem s'' prev) !! "transform"
        = Some ("translate(" +:+ px +:+ "px, " +:+ py +:+ "px)") ∧
        tasks s'' = tasks s ∧ visible s'' prev) ∧
     (frag = "" →
      (mouseEnterHandler this x y s).1 = Ok tt ∧
      ∀ l, l ∈ descendants prev (document s') → is_internal_link s' l →
           (∃ A, popoverListenersAttached s' !! prev = Some A ∧ l ∈ A) ∧
           ((l, MouseEnterHandler) ∈ listeners s'
            ∨ l ∈ default ∅ (popoverListenersAttached s !! prev)))).
Proof.
  intros Hopt Hdepth Hz Hhref Hprev s'.
  assert (ge (getCurrentPopoverDepth this s) MAX_POPOVER_DEPTH = false) as Hge
    by (rewrite Hdepth; apply bool_decide_eq_false; lia).
  pose proof (mouseEnterHandler_hover this x y s Hopt Hge) as Hhover.
  cbv zeta in Hhover. rewrite Hhref, Hdepth, Hprev in Hhover.
  set (s1 := cancelled (Int z) (on_activeAnchor (λ _, Some this) s)) in *.
  destruct (decodeURIComponent (hash href)) as [frag|e] eqn:Hdecode.
  - set (cx := Hover this x y (Int z) frag (Url (origin href) (pathname href) "" "")
                     ("popover-" +:+ pathname href)) in *.
    set (s2 := shown cx prev z s1).
    assert (mouseEnterHandler this x y s
            = if decide (frag ≠ "") then (Throw ReferenceError, s2)
              else attachPopoverListeners prev s2) as Hrun.
    { rewrite Hhover, run_bind. rewrite showPopover_reused by lia. fold s2.
      cbn [fragment cx]. by destruct (decide (frag ≠ "")). }
    destruct (getElementById_Some _ _ _ Hprev) as [_ [e He]].
    destruct (shown_elem cx prev z s1 e He) as [e0 He0]. fold s2 in He0.
    destruct (shown_stack cx prev z s1 Hz) as [Hlen Hslot]. fold s2 in Hlen, Hslot.
    destruct (attach_run prev s2) as (ls & Hattach & Hsub & Hall).
    assert (heap s' = heap s2 ∧ activePopoverStack s' = activePopoverStack s2 ∧
            tasks s' = tasks s2 ∧ document s' = document s2 ∧
            fetch_log s' = fetch_log s2) as (Hheap & Hstack & Htasks & Hdoc & Hlog).
    { unfold s', exec. rewrite Hrun. destruct (decide (frag ≠ "")); [done|].
      by rewrite Hattach. }
    split_and!; [by rewrite Hlog | by rewrite Hdoc | done |].
    intros frag' [= <-]. split_and!.
    + exists cx. by rewrite Htasks.
    + unfold visible, elem. rewrite Hheap, lookup_total_alt, He0. cbn.
      apply class_add_contains.
    + unfold dataset_depth, elem. rewrite Hheap, lookup_total_alt, He0. cbn.
      apply lookup_insert_eq.
    + by rewrite Hstack.
    + by rewrite Hstack.
    + intros px py. cbn [turn].
      assert (tasks s' !! length (tasks s) = Some (AwaitPosition cx prev)) as ->.
      { rewrite Htasks. cbn. by rewrite lookup_app_r, Nat.sub_diag by lia. }
      unfold exec, afterPosition, update, modify. cbn [snd].
      unfold visible, elem. cbn [heap on_heap on_tasks tasks].
      rewrite !lookup_total_alt, lookup_alter_eq, Hheap, He0. cbn.
      split_and!; [apply lookup_insert_eq | | apply class_add_contains].
      rewrite Htasks. cbn. apply delete_last.
    + intros ->. unfold s', exec. rewrite Hrun. rewrite decide_False by (by intros ?).
      rewrite Hattach. cbn [fst snd]. split; [done|]. intros l Hl Hlink.
      destruct (Hall l Hl Hlink) as [HlA|Hls].
      * split; [|by right]. eexists. cbn. rewrite lookup_insert_eq. split; [done|].
        apply elem_of_union. by left.
      * split; [|by left]. eexists. cbn. rewrite lookup_insert_eq. split; [done|].
        apply elem_of_union. right. apply elem_of_list_to_set.
        by apply list_elem_of_filter.
  - unfold s', exec. rewrite Hhover. cbn [fst snd]. split_and!; [done | done | | done].
    by intros e' [= <-].
Qed.

(** ** The depths of the hide timers *)

Lemma keeps_depths_refl h : keeps_depths h h.
Proof. intros p e Hp. eauto. Qed.

Lemma keeps_depths_trans h1 h2 h3 :
  keeps_depths h1 h2 → keeps_depths h2 h3 → keeps_depths h1 h3.
Proof.
  intros H12 H23 p e Hp. destruct (H12 p e Hp) as (e2 & Hp2 & He2).
  destruct (H23 p e2 Hp2) as (e3 & Hp3 & He3). exists e3. split; [done | congruence].
Qed.

Lemma keeps_depths_subseteq (h h' : gmap nid element) : h ⊆ h' → keeps_depths h h'.
Proof. intros Hsub p e Hp. exists e. split; [by eapply lookup_weaken | done]. Qed.

Lemma keeps_depths_alter (f : element → element) n h :
  (∀ e, attrs (f e) !! "data-depth" = attrs e !! "data-depth") →
  keeps_depths h (alter f n h).
Proof.
  intros Hf p e Hp. destruct (decide (n = p)) as [->|Hne].
  - exists (f e). by rewrite lookup_alter_eq, Hp.
  - exists e. by rewrite lookup_alter_ne.
Qed.

Lemma keeps_depths_hide slots h : keeps_depths h (hide_slots slots h).
Proof.
  revert h. induction slots as [|[q|] slots IH]; intros h; [apply keeps_depths_refl| |];
    (eapply keeps_depths_trans; [|apply IH]);
    [by apply keeps_depths_alter | apply keeps_depths_refl].
Qed.

Lemma dataset_depth_heap s p v :
  dataset_depth s p = Some v ↔ ∃ e, heap s !! p = Some e ∧ attrs e !! "data-depth" = Some v.
Proof.
  unfold dataset_depth, elem. rewrite lookup_total_alt. split.
  - destruct (heap s !! p) as [e|]; cbn; [eauto|]. by rewrite lookup_empty.
  - by intros (e & -> & ?).
Qed.

Lemma task_ok_mono s s' t :
  keeps_depths (heap s) (heap s') → task_ok s t → task_ok s' t.
Proof.
  intros Hh. destruct t as [cx|cx pe pi|cx pe]; cbn; [done| |done].
  intros [? [e He]]. split; [done|]. destruct (Hh _ _ He) as (e' & ? & _). by exists e'.
Qed.

(** The state may change in every way that keeps the depth attributes,
    adds no timeout, hooks no popover and starts no task. *)
Lemma valid_with_mono (F : gmap nid element → Prop) s s' :
  (∀ h h', keeps_depths h h' → F h → F h') →
  valid_with F s →
  keeps_depths (heap s) (heap s') →
  timers s' ⊆ timers s →
  (∀ p, (p, PopoverMouseLeave) ∈ listeners s' → (p, PopoverMouseLeave) ∈ listeners s) →
  (∀ t, t ∈ tasks s' → t ∈ tasks s ∨ task_ok s' t) →
  valid_with F s'.
Proof.
  intros HF [(Htimers & Hhooks & Htasks) HFs] Hheap Hsub Hls Hts.
  split; [|by eapply HF]. split_and!.
  - intros id k Hid. eapply Htimers. by eapply lookup_weaken.
  - intros p Hp. destruct (Hhooks p (Hls p Hp)) as (z & Hz & Hd).
    exists z. split; [done|]. apply dataset_depth_heap in Hd as (e & He & Hv).
    apply dataset_depth_heap. destruct (Hheap _ _ He) as (e' & He' & Hv').
    exists e'. split; [done | congruence].
  - apply Forall_forall. intros t Ht. destruct (Hts t Ht) as [Hold|?]; [|done].
    eapply task_ok_mono; [done|]. by eapply Forall_forall in Htasks.
Qed.

Lemma depths_valid_with s : depths_valid s ↔ valid_with (λ _, True) s.
Proof. unfold valid_with. tauto. Qed.

(** *** Rules *)

Lemma hoare_ret {A} (P : state → Prop) (a : A) Q : (∀ s, P s → Q a s) → hoare P (mret a) Q.
Proof. intros HQ s Hs. by apply HQ. Qed.

Lemma hoare_throw {A} (P : state → Prop) e (Q : A → state → Prop) :
  (∀ s, P s → depths_valid s) → hoare P (throw e) Q.
Proof. intros HP s Hs. by apply HP. Qed.

Lemma hoare_bind {A B} (P : state → Prop) (m : M A) (k : A → M B) R Q :
  hoare P m R → (∀ a, hoare (R a) (k a) Q) → hoare P (m ≫= k) Q.
Proof.
  intros Hm Hk s Hs. rewrite run_bind. specialize (Hm s Hs).
  destruct (m s) as [[a|e] s']; [by apply Hk | done].
Qed.

Lemma hoare_get (P : state → Prop) : hoare P get (λ a s, P s ∧ a = s).
Proof. by intros s Hs. Qed.

Lemma hoare_conseq {A} (P P' : state → Prop) (m : M A) (Q Q' : A → state → Prop) :
  hoare P' m Q' → (∀ s, P s → P' s) → (∀ a s, Q' a s → Q a s) → hoare P m Q.
Proof.
  intros Hm HP HQ s Hs. specialize (Hm s (HP s Hs)).
  destruct (m s) as [[a|e] s']; [by apply HQ | done].
Qed.

Lemma hoare_preserves {A} (F : gmap nid element → Prop) (m : M A) :
  preserves (valid_with F) m → hoare (valid_with F) m (λ _, valid_with F).
Proof.
  intros Hm s Hs. specialize (Hm s Hs). destruct (m s) as [[a|e] s']; [done|]. apply Hm.
Qed.

Lemma hoare_exec {A} (P : state → Prop) (m : M A) Q s :
  hoare P m Q → (∀ a s', Q a s' → depths_valid s') → P s → depths_valid (exec m s).
Proof.
  intros Hm HQ Hs. specialize (Hm s Hs). unfold exec.
  destruct (m s) as [[a|e] s']; [by eapply HQ | done].
Qed.

(** *** Code that keeps the depth attributes *)

Ltac heap_goal :=
  first [ apply keeps_depths_refl
        | apply keeps_depths_alter; intros ?; first [reflexivity | by apply lookup_insert_ne] ].

Ltac hooks_goal :=
  let p := fresh "p" in let Hp := fresh "Hp" in
  intros p Hp;
  first [ exact Hp
        | apply elem_of_union in Hp as [Hp|Hp]; [exact Hp | by apply elem_of_singleton in Hp]
        | by apply elem_of_difference in Hp as [Hp _] ].

Ltac tasks_goal :=
  let t := fresh "t" in let Ht := fresh "Ht" in
  intros t Ht;
  first [ by left
        | apply elem_of_app in Ht as [Ht|Ht]; [by left|];
          apply list_elem_of_singleton in Ht as ->; by right ].

Ltac mono_leaf F_mono :=
  let s := fresh "s" in let Hs := fresh "Hs" in
  intros s Hs; eapply valid_with_mono; [exact F_mono | exact Hs | ..]; cbn;
  [heap_goal | first [done | apply delete_subseteq] | hooks_goal | tasks_goal].

Ltac valid_step F_mono :=
  lazymatch goal with
  | |- preserves _ (mbind _ _) => apply preserves_bind; [|intros ?]
  | |- preserves _ (mret _) => apply preserves_ret
  | |- preserves _ get => apply preserves_get
  | |- preserves _ (throw _) => apply preserves_throw
  | |- preserves _ (forEach _ _) => apply preserves_forEach; intros ?
  | |- preserves _ (modify _) => apply preserves_modify; mono_leaf F_mono
  | |- preserves _ (update _ _) => apply preserves_modify; mono_leaf F_mono
  | |- preserves _ (setPosition _ _) => apply preserves_modify; mono_leaf F_mono
  | |- preserves _ (match ?x with _ => _ end) => destruct x
  end.

Section depth_frame.
Context (F : gmap nid element → Prop).
Hypothesis F_mono : ∀ h h', keeps_depths h h' → F h → F h'.

Lemma clearDeeperPopovers_valid keepDepth :
  preserves (valid_with F) (clearDeeperPopovers keepDepth).
Proof. unfold clearDeeperPopovers. repeat valid_step F_mono. Qed.

Lemma cancelHideTimeoutsFromDepth_valid depth :
  preserves (valid_with F) (cancelHideTimeoutsFromDepth depth).
Proof. unfold cancelHideTimeoutsFromDepth, clearTimeout. repeat valid_step F_mono. Qed.

Lemma attachPopoverListeners_valid p :
  preserves (valid_with F) (attachPopoverListeners p).
Proof. unfold attachPopoverListeners. repeat valid_step F_mono. Qed.

Lemma afterPosition_valid p x y : preserves (valid_with F) (afterPosition p x y).
Proof. unfold afterPosition. repeat valid_step F_mono. Qed.

Lemma onNav_valid : preserves (valid_with F) onNav.
Proof. unfold onNav. repeat valid_step F_mono. Qed.

Lemma teardown_valid : preserves (valid_with F) teardown.
Proof. unfold teardown, clearTimeout. repeat valid_step F_mono. Qed.

Lemma runCleanup_valid c : preserves (valid_with F) (runCleanup c).
Proof. destruct c; [|apply teardown_valid]. cbn. repeat valid_step F_mono. Qed.

Lemma hideTimeoutFires_valid id : preserves (valid_with F) (hideTimeoutFires id).
Proof.
  unfold hideTimeoutFires.
  repeat first [apply clearDeeperPopovers_valid | valid_step F_mono].
Qed.

Lemma scheduleHideAtDepth_valid depth :
  depth_in_range depth → preserves (valid_with F) (scheduleHideAtDepth depth).
Proof.
  intros Hdepth s [(Htimers & Hhooks & Htasks) HF]. rewrite schedule_run. cbn [snd].
  split; [|done]. split_and!; [|done|done].
  intros id k. cbn. destruct (decide (id = next_timer s)) as [->|Hne].
  - rewrite lookup_insert_eq. by intros [= <-].
  - rewrite lookup_insert_ne by done. intros Hid. apply (Htimers id).
    destruct (hideTimeouts s !! depth); [|done].
    by apply lookup_delete_Some in Hid as [_ Hid].
Qed.

Lemma createElement_hoare name :
  hoare (valid_with F) (createElement name)
        (λ n, valid_with (λ h, F h ∧ is_Some (h !! n))).
Proof.
  intros s [Hs HF]. cbn.
  assert (heap s !! fresh (dom (heap s)) = None) as Hfresh
    by apply not_elem_of_dom, is_fresh.
  assert (keeps_depths (heap s) (<[fresh (dom (heap s)) := blank name]> (heap s))) as Hk
    by (by apply keeps_depths_subseteq, insert_subseteq).
  destruct (valid_with_mono (λ _, True) s
              (on_heap (<[fresh (dom (heap s)) := blank name]>) s)) as [Hs' _];
    [done | done | done | done | by intros p Hp | by left |].
  split; [done|]. cbn. split; [by eapply F_mono|]. by rewrite lookup_insert_eq.
Qed.

Lemma adoptDocument_valid t : preserves (valid_with F) (adoptDocument t).
Proof.
  intros s Hs. unfold adoptDocument.
  destruct (adopt_spec t (heap s)) as [Hsub _].
  destruct (adopt t (heap s)) as [d0 h0]. cbn in *.
  eapply valid_with_mono; [exact F_mono | exact Hs | ..]; cbn;
    [by apply keeps_depths_subseteq | done | by intros p Hp | by left].
Qed.

End depth_frame.

(** *** Showing a popover *)

Lemma has_depth_mono p h h' : keeps_depths h h' → has_depth p h → has_depth p h'.
Proof.
  intros Hk (z & e & Hz & He & Hd). destruct (Hk _ _ He) as (e' & He' & Hd').
  exists z, e'. split; [done|]. split; [done | congruence].
Qed.

Lemma is_Some_mono p (h h' : gmap nid element) :
  keeps_depths h h' → is_Some (h !! p) → is_Some (h' !! p).
Proof. intros Hk [e He]. destruct (Hk _ _ He) as (e' & He' & _). by exists e'. Qed.

Lemma true_mono (h h' : gmap nid element) : keeps_depths h h' → True → True.
Proof. done. Qed.

Lemma clearDeeperPopovers_ok keepDepth s s' :
  clearDeeperPopovers keepDepth s = (Ok tt, s') →
  ∃ z, keepDepth = Int z ∧ 0 ≤ z < 2 ^ 32 ∧ s' = cleared z s.
Proof.
  destruct keepDepth as [|z].
  - unfold clearDeeperPopovers. rewrite run_get.
    erewrite run_bind_ok by apply hide_loop. by rewrite run_get.
  - destruct (decide (0 ≤ z < 2 ^ 32)) as [Hz|Hz].
    + rewrite clearDeeperPopovers_run by done. intros [= <-]. by exists z.
    + unfold clearDeeperPopovers. rewrite run_get.
      erewrite run_bind_ok by apply hide_loop. rewrite run_get.
      cbn -[Z.pow]. by rewrite bool_decide_false.
Qed.

Lemma shown_valid cx p z s :
  0 ≤ z < 3 → depths_valid s →
  depths_valid (shown cx p z s) ∧
  (is_Some (heap s !! p) → has_depth p (heap (shown cx p z s))).
Proof.
  intros Hz (Htimers & Hhooks & Htasks).
  assert (∀ e, heap s !! p = Some e → has_depth p (heap (shown cx p z s))) as Hp.
  { intros e He. destruct (shown_elem cx p z s e He) as [e0 He0].
    exists z. eexists. split; [done|]. split; [exact He0|]. cbn. apply lookup_insert_eq. }
  assert (∀ q e, q ≠ p → heap s !! q = Some e →
                 ∃ e', heap (shown cx p z s) !! q = Some e' ∧
                       attrs e' !! "data-depth" = attrs e !! "data-depth") as Hq.
  { intros q e Hne He. cbn. rewrite !lookup_alter_ne by done.
    by apply keeps_depths_hide. }
  split; [|by intros [e He]; eapply Hp].
  split_and!.
  - done.
  - intros q Hq'. destruct (Hhooks q Hq') as (zq & Hzq & Hd).
    apply dataset_depth_heap in Hd as (e & He & Hv).
    destruct (decide (q = p)) as [->|Hne].
    + destruct (Hp e He) as (z' & e' & Hz' & He' & Hd').
      exists z'. split; [done|]. apply dataset_depth_heap. eauto.
    + destruct (Hq q e Hne He) as (e' & He' & Hd').
      exists zq. split; [done|]. apply dataset_depth_heap. exists e'.
      split; [done | congruence].
  - change (tasks (shown cx p z s)) with (tasks s ++ [AwaitPosition cx p]).
    apply Forall_app. split; [|by constructor].
    eapply Forall_impl; [exact Htasks|]. intros [c|c pe pi|c pe]; cbn; [done| |done].
    intros [? [e He]]. split; [done|].
    destruct (decide (pe = p)) as [->|Hne].
    + destruct (Hp e He) as (_ & e' & _ & He' & _). by exists e'.
    + destruct (Hq pe e Hne He) as (e' & He' & _). by exists e'.
Qed.

Lemma showPopover_effect cx inner p depth s :
  ge depth MAX_POPOVER_DEPTH = false → depths_valid s →
  depths_valid (showPopover cx inner p depth s).2 ∧
  (is_Some (heap s !! p) → (showPopover cx inner p depth s).1 = Ok tt →
   has_depth p (heap (showPopover cx inner p depth s).2)).
Proof.
  intros Hge Hs. unfold showPopover. rewrite run_bind.
  pose proof (clearDeeperPopovers_valid (λ _, True) true_mono depth s) as Hclear.
  destruct (clearDeeperPopovers depth s) as [[[]|e] s1] eqn:Hc; cbn [snd fst] in *.
  2: { split; [by apply Hclear, depths_valid_with | by intros _ [=]]. }
  apply clearDeeperPopovers_ok in Hc as (z & -> & Hz & ->).
  assert (0 ≤ z < 3) as Hz3 by (cbn in Hge; apply bool_decide_eq_false in Hge; lia).
  rewrite !run_update. unfold setPosition. rewrite !run_modify.
  change (on_activePopoverStack _ _) with (shown cx p z s).
  destruct (shown_valid cx p z s Hz3 Hs) as [Hshown Hp].
  destruct (decide (fragment cx ≠ "")) as [Hfrag|Hfrag];
    [|split; [exact Hshown | intros Hin _; by apply Hp]].
  destruct inner as [i|]; [|split; [exact Hshown | by intros _ [=]]].
  rewrite run_bind. unfold querySelector.
  assert (∀ hd, depths_valid (on_heap (alter (set_scrollTop hd) i) (shown cx p z s)) ∧
                (is_Some (heap s !! p) →
                 has_depth p (heap (on_heap (alter (set_scrollTop hd) i) (shown cx p z s)))))
    as Hscroll.
  { intros hd.
    assert (keeps_depths (heap (shown cx p z s)) (alter (set_scrollTop hd) i
                                                   (heap (shown cx p z s)))) as Hk
      by (by apply keeps_depths_alter).
    split.
    - apply depths_valid_with.
      eapply (valid_with_mono (λ _, True)); [done | by apply depths_valid_with | ..];
        [exact Hk | done | by intros q Hq | by left].
    - intros Hin. eapply has_depth_mono; [exact Hk | by apply Hp]. }
  destruct (id_selector _).
  - destruct (list_find _ _) as [[j hd]|]; cbn;
      [|split; [exact Hshown | intros Hin _; by apply Hp]].
    rewrite run_get.
    destruct (Hscroll (offsetTop (elem (shown cx p z s) hd) - 12)) as [H1 H2].
    split; [exact H1 | intros Hin _; by apply H2].
  - destruct (selectOther _ _ _) as [[hd|]|e]; cbn;
      [|split; [exact Hshown | intros Hin _; by apply Hp]
       |split; [exact Hshown | by intros _ [=]]].
    rewrite run_get.
    destruct (Hscroll (offsetTop (elem (shown cx p z s) hd) - 12)) as [H1 H2].
    split; [exact H1 | intros Hin _; by apply H2].
Qed.

Lemma showPopover_valid cx inner p depth :
  ge depth MAX_POPOVER_DEPTH = false →
  preserves depths_valid (showPopover cx inner p depth).
Proof. intros Hge s Hs. by apply showPopover_effect. Qed.

Lemma showPopover_hoare cx inner p depth :
  ge depth MAX_POPOVER_DEPTH = false →
  hoare (valid_with (λ h, is_Some (h !! p))) (showPopover cx inner p depth)
        (λ _, valid_with (has_depth p)).
Proof.
  intros Hge s [Hs Hp]. destruct (showPopover_effect cx inner p depth s Hge Hs) as [Hv Hd].
  destruct (showPopover cx inner p depth s) as [[[]|e] s'] eqn:Hrun; cbn in *; [|done].
  split; [done|]. by apply Hd.
Qed.

(** *** The handler, in its three parts *)

Lemma insertPopover_hoare cx pe pi kids :
  ge (currentDepth cx) MAX_POPOVER_DEPTH = false →
  hoare (valid_with (λ h, is_Some (h !! pe))) (insertPopover cx pe pi kids)
        (λ _, depths_valid).
Proof.
  intros Hge. unfold insertPopover.
  eapply hoare_bind; [apply (hoare_preserves _ _ (preserves_get _))|]. intros s0.
  destruct (decide _); [apply hoare_ret; by intros s [? _]|].
  eapply hoare_bind.
  { destruct (decide _).
    - apply hoare_preserves, preserves_modify. mono_leaf (is_Some_mono pe).
    - apply hoare_throw. by intros s [? _]. }
  intros ?. eapply hoare_bind; [apply (hoare_preserves _ _ (preserves_get _))|]. intros s1.
  destruct (decide _); [apply hoare_ret; by intros s [? _]|].
  eapply hoare_bind; [by apply showPopover_hoare|]. intros ?.
  eapply hoare_bind;
    [apply hoare_preserves, attachPopoverListeners_valid, has_depth_mono|]. intros ?.
  eapply hoare_bind.
  { apply hoare_preserves, preserves_modify. mono_leaf (has_depth_mono pe). }
  intros ? s [(Htimers & Hhooks & Htasks) (z & e & Hz & He & Hd)]. cbn.
  split_and!; [done| |done].
  intros p Hp. cbn in Hp. apply elem_of_union in Hp as [Hp|Hp]; [by apply Hhooks|].
  apply elem_of_singleton in Hp as [= ->].
  exists z. split; [done|]. apply dataset_depth_heap. eauto.
Qed.

Lemma afterFetch_hoare cx response :
  ge (currentDepth cx) MAX_POPOVER_DEPTH = false →
  hoare depths_valid (afterFetch cx response) (λ _, depths_valid).
Proof.
  intros Hge. unfold afterFetch. destruct response as [header|]; [|by apply hoare_ret].
  cbv zeta.
  eapply hoare_conseq with (P' := valid_with (λ _, True)) (Q' := λ _, depths_valid);
    [|by intros s ?; apply depths_valid_with | done].
  eapply hoare_bind; [apply createElement_hoare, true_mono|]. intros pe.
  assert (∀ h h', keeps_depths h h' → True ∧ is_Some (h !! pe) → True ∧ is_Some (h' !! pe))
    as Hpe by (intros h h' Hk [_ ?]; split; [done | by eapply is_Some_mono]).
  do 2 (eapply hoare_bind;
        [apply hoare_preserves, preserves_modify; mono_leaf Hpe|]; intros ?).
  eapply hoare_bind; [by apply createElement_hoare|]. intros pi.
  assert (∀ h h', keeps_depths h h' →
            (True ∧ is_Some (h !! pe)) ∧ is_Some (h !! pi) →
            (True ∧ is_Some (h' !! pe)) ∧ is_Some (h' !! pi)) as Hpi.
  { intros h h' Hk [[_ ?] ?]. split_and!; [done | by eapply is_Some_mono..]. }
  do 2 (eapply hoare_bind;
        [apply hoare_preserves, preserves_modify; mono_leaf Hpi|]; intros ?).
  destruct (decide _); [|destruct (decide _); [destruct (decide _)|]].
  - eapply hoare_bind; [by apply createElement_hoare|]. intros img.
    assert (∀ h h', keeps_depths h h' →
              ((True ∧ is_Some (h !! pe)) ∧ is_Some (h !! pi)) ∧ is_Some (h !! img) →
              ((True ∧ is_Some (h' !! pe)) ∧ is_Some (h' !! pi)) ∧ is_Some (h' !! img))
      as Himg.
    { intros h h' Hk [[[_ ?] ?] ?]. split_and!; [done | by eapply is_Some_mono..]. }
    do 2 (eapply hoare_bind;
          [apply hoare_preserves, preserves_modify; mono_leaf Himg|]; intros ?).
    eapply hoare_conseq; [by apply insertPopover_hoare| |done].
    intros s [? [[[_ ?] _] _]]. by split.
  - eapply hoare_bind; [by apply createElement_hoare|]. intros pdf.
    assert (∀ h h', keeps_depths h h' →
              ((True ∧ is_Some (h !! pe)) ∧ is_Some (h !! pi)) ∧ is_Some (h !! pdf) →
              ((True ∧ is_Some (h' !! pe)) ∧ is_Some (h' !! pi)) ∧ is_Some (h' !! pdf))
      as Hpdf.
    { intros h h' Hk [[[_ ?] ?] ?]. split_and!; [done | by eapply is_Some_mono..]. }
    eapply hoare_bind;
      [apply hoare_preserves, preserves_modify; mono_leaf Hpdf|]; intros ?.
    eapply hoare_conseq; [by apply insertPopover_hoare| |done].
    intros s [? [[[_ ?] _] _]]. by split.
  - eapply hoare_conseq; [by apply insertPopover_hoare| |done].
    intros s [? [[_ ?] _]]. by split.
  - intros s [(Htimers & Hhooks & Htasks) [[_ Hin] _]]. cbn.
    split_and!; [done | done|]. apply Forall_app. split; [done|]. by constructor.
Qed.

Lemma afterText_hoare cx pe pi contents :
  ge (currentDepth cx) MAX_POPOVER_DEPTH = false →
  hoare (valid_with (λ h, is_Some (h !! pe))) (afterText cx pe pi contents)
        (λ _, depths_valid).
Proof.
  intros Hge. unfold afterText. cbv zeta.
  eapply hoare_bind; [apply hoare_preserves, adoptDocument_valid, is_Some_mono|].
  intros parsed.
  eapply hoare_bind; [apply (hoare_preserves _ _ (preserves_get _))|]. intros s0.
  destruct (decide _); [apply hoare_ret; by intros s [? _]|].
  by apply insertPopover_hoare.
Qed.

Lemma depths_valid_preserves {A} (m : M A) :
  preserves (valid_with (λ _, True)) m → preserves depths_valid m.
Proof. intros Hm s Hs. by apply depths_valid_with, Hm, depths_valid_with. Qed.

Lemma mouseEnterHandler_valid this x y :
  preserves depths_valid (mouseEnterHandler this x y).
Proof.
  unfold mouseEnterHandler. cbv zeta.
  apply preserves_bind;
    [apply depths_valid_preserves, preserves_modify; mono_leaf true_mono|]. intros ?.
  apply preserves_bind; [apply preserves_get|]. intros s.
  destruct (decide _); [apply preserves_ret|].
  apply preserves_bind;
    [apply depths_valid_preserves, cancelHideTimeoutsFromDepth_valid, true_mono|]. intros ?.
  destruct (ge _ MAX_POPOVER_DEPTH) eqn:Hge; [apply preserves_ret|].
  destruct (link_url _) as [href|]; [|apply preserves_throw].
  destruct (decodeURIComponent _); [|apply preserves_throw].
  apply preserves_bind; [apply preserves_get|]. intros s1.
  destruct (getElementById _ s1).
  - apply preserves_bind; [by apply showPopover_valid|]. intros ?.
    apply depths_valid_preserves, attachPopoverListeners_valid, true_mono.
  - apply preserves_bind;
      [apply depths_valid_preserves, preserves_modify; mono_leaf true_mono|]. intros ?.
    intros s2 (Htimers & Hhooks & Htasks). cbn. split_and!; [done | done|].
    apply Forall_app. split; [done|]. by constructor.
Qed.

Lemma popoverMouseEnter_valid p : preserves depths_valid (popoverMouseEnter p).
Proof.
  unfold popoverMouseEnter. cbv zeta. apply preserves_bind; [apply preserves_get|].
  intros s. apply depths_valid_preserves, cancelHideTimeoutsFromDepth_valid, true_mono.
Qed.

Lemma getPopoverDepth_in_range p s :
  depths_valid s → (p, PopoverMouseLeave) ∈ listeners s →
  depth_in_range (getPopoverDepth p s).
Proof.
  intros (_ & Hhooks & _) Hp. destruct (Hhooks p Hp) as (z & Hz & Hd).
  unfold getPopoverDepth. rewrite Hd. exists z. split; [|done].
  assert (z = 0 ∨ z = 1 ∨ z = 2) as [-> | [-> | ->]] by lia; reflexivity.
Qed.

Lemma popoverMouseLeave_valid p related s :
  (p, PopoverMouseLeave) ∈ listeners s → depths_valid s →
  depths_valid (exec (popoverMouseLeave p related) s).
Proof.
  intros Hp Hs. pose proof (getPopoverDepth_in_range p s Hs Hp) as Hdepth.
  assert (preserves depths_valid (scheduleHideAtDepth (getPopoverDepth p s))) as Hsched
    by (by apply depths_valid_preserves, scheduleHideAtDepth_valid).
  unfold exec, popoverMouseLeave. rewrite run_get. cbv zeta.
  destruct related as [target|]; [|by apply Hsched].
  destruct (closest _ target s); [|destruct (closest _ target s); by apply Hsched].
  destruct (gt _ _); [done|]. destruct (strict_eq _ _); [by apply Hsched|].
  by apply (depths_valid_preserves _ (clearDeeperPopovers_valid _ true_mono _)).
Qed.

Lemma handleLinkLeave_valid this related :
  preserves depths_valid (handleLinkLeave this related).
Proof.
  assert (preserves depths_valid (scheduleHideAtDepth (Int 0))) as Hsched.
  { apply depths_valid_preserves, scheduleHideAtDepth_valid.
    exists 0. split; [done | lia]. }
  unfold handleLinkLeave. apply preserves_bind; [apply preserves_get|]. intros s.
  destruct related as [target|]; [|done].
  destruct (closest _ target s); [apply preserves_ret | done].
Qed.

Lemma handleLinkLeave_listeners this related s :
  listeners (exec (handleLinkLeave this related) s) = listeners s.
Proof.
  unfold exec, handleLinkLeave. rewrite run_get.
  destruct related as [target|]; [destruct (closest _ target s); [done|]|];
    by rewrite schedule_run.
Qed.

Lemma loaded_valid h d b : depths_valid (loaded h d b).
Proof.
  split_and!; cbn; [intros id k; by rewrite lookup_empty | | done].
  intros p Hp. by apply not_elem_of_empty in Hp.
Qed.

Lemma list_delete_elem_of {A} (l : list A) i x : x ∈ delete i l → x ∈ l.
Proof.
  revert i. induction l as [|y l IH]; intros [|i]; cbn; [done..| |].
  - intros Hx. by right.
  - intros Hx. apply elem_of_cons in Hx as [->|Hx]; [by left | right; by eapply IH].
Qed.

Lemma task_taken s i t :
  depths_valid s → tasks s !! i = Some t →
  depths_valid (on_tasks (delete i) s) ∧ task_ok (on_tasks (delete i) s) t.
Proof.
  intros Hs Ht. split.
  - apply depths_valid_with. eapply (valid_with_mono (λ _, True));
      [done | by apply depths_valid_with | ..]; cbn;
      [apply keeps_depths_refl | done | by intros p Hp|].
    intros t' Ht'. left. by eapply list_delete_elem_of.
  - destruct Hs as (_ & _ & Htasks). eapply Forall_forall in Htasks;
      [|by eapply list_elem_of_lookup_2]. by destruct t.
Qed.

Lemma turn_valid e s : depths_valid s → depths_valid (turn e s).
Proof.
  intros Hs. destruct e as [target x y|target related|i response|i contents|i x y|id| |]; cbn.
  - apply preserves_exec.
    { destruct (registered s target PopoverMouseEnter); cbn;
        [apply popoverMouseEnter_valid | apply preserves_ret]. }
    apply preserves_exec; [|done].
    destruct (registered s target MouseEnterHandler); cbn;
      [apply mouseEnterHandler_valid | apply preserves_ret].
  - set (s1 := exec (when (registered s target HandleLinkLeave)
                          (handleLinkLeave target related)) s).
    assert (depths_valid s1 ∧ listeners s1 = listeners s) as [Hs1 Hls].
    { unfold s1. destruct (registered s target HandleLinkLeave); cbn; [|done].
      split; [by apply handleLinkLeave_valid | apply handleLinkLeave_listeners]. }
    destruct (registered s target PopoverMouseLeave) eqn:Hreg; cbn; [|done].
    apply popoverMouseLeave_valid; [|done].
    rewrite Hls. by apply bool_decide_eq_true in Hreg.
  - destruct (tasks s !! i) as [[cx|cx pe pi|cx pe]|] eqn:Ht; try done.
    destruct (task_taken s i _ Hs Ht) as [Hs' Hok].
    eapply hoare_exec; [by apply afterFetch_hoare | done | done].
  - destruct (tasks s !! i) as [[cx|cx pe pi|cx pe]|] eqn:Ht; try done.
    destruct (task_taken s i _ Hs Ht) as [Hs' [Hge Hpe]].
    eapply hoare_exec; [by apply afterText_hoare | done | by split].
  - destruct (tasks s !! i) as [[cx|cx pe pi|cx pe]|] eqn:Ht; try done.
    destruct (task_taken s i _ Hs Ht) as [Hs' _].
    by apply (depths_valid_preserves _ (afterPosition_valid _ true_mono _ _ _)).
  - by apply (depths_valid_preserves _ (hideTimeoutFires_valid _ true_mono _)).
  - by apply (depths_valid_preserves _ (onNav_valid _ true_mono)).
  - assert (depths_valid (on_cleanups (λ _, []) s)) as Hs' by done.
    revert Hs'. generalize (on_cleanups (λ _, []) s). clear Hs.
    induction (cleanups s) as [|c cs IH]; intros s0 Hs0; [done|].
    cbn. apply IH. by apply (depths_valid_preserves _ (runCleanup_valid _ true_mono _)).
Qed.

Lemma run_valid es s : depths_valid s → depths_valid (run es s).
Proof.
  revert s. induction es as [|e es IH]; intros s Hs; [done|].
  cbn. apply IH. by apply turn_valid.
Qed.

Lemma reachable_valid h d b es : depths_valid (run es (loaded h d b)).
Proof. apply run_valid, loaded_valid. Qed.

(** C8.  At every point of every run no two pending hide timeouts are for
    the same depth.  Scheduling a hide at a depth cancels the timeout the
    registry holds for that depth, so that it is no longer pending, and
    then registers the new timeout, which is the only one pending for the
    depth.  The callback of a timeout that expires ends normally; the
    timeout is then no longer pending and the registry has no entry for its
    depth. *)
Theorem one_hide_timer_per_depth h d b es :
  let s := run es (loaded h d b) in
  one_timer_per_depth s ∧
  (∀ depth,
     let s' := exec (scheduleHideAtDepth depth) s in
     (∀ existing, hideTimeouts s !! depth = Some existing → timers s' !! existing = None) ∧
     (∀ id, timers s' !! id = Some depth ↔ id = next_timer s) ∧
     hideTimeouts s' !! depth = Some (next_timer s) ∧
     one_timer_per_depth s') ∧
  (∀ id depth,
     timers s !! id = Some depth →
     let s' := exec (hideTimeoutFires id) s in
     (hideTimeoutFires id s).1 = Ok tt ∧
     timers s' !! id = None ∧ hideTimeouts s' !! depth = None ∧ one_timer_per_depth s').
Proof.
  intros s. pose proof (reachable_registered h d b es) as Hs. fold s in Hs.
  split_and!.
  - by apply registered_one_per_depth.
  - intros depth s'.
    assert (timers_registered s') as Hs' by (by apply schedule_preserves).
    unfold s', exec in *. rewrite schedule_run in *. cbn [snd] in *.
    destruct Hs as (Hreg & Hnext & Hstale & Hsame).
    assert (timers (scheduled depth s) !! next_timer s = Some depth) as Hnew
      by (cbn; apply lookup_insert_eq).
    split_and!.
    + intros existing Hex. cbn. rewrite Hex.
      rewrite lookup_insert_ne by (apply Hstale in Hex; lia). apply lookup_delete_eq.
    + intros id. split; [|by intros ->].
      intros Hid. by eapply (registered_one_per_depth _ Hs').
    + cbn. apply lookup_insert_eq.
    + by apply registered_one_per_depth.
  - intros id depth Hid s'.
    destruct (reachable_valid h d b es) as (Hrange & _). fold s in Hrange.
    destruct (Hrange id depth Hid) as (K & -> & HK).
    assert (0 ≤ K < 2 ^ 32) as HK' by lia.
    assert (timers_registered s') as Hs' by (by apply fire_preserves).
    unfold s', exec in *. rewrite (fire_run id K s Hid HK') in *. cbn [fst snd] in *.
    split_and!; cbn.
    + done.
    + apply lookup_delete_eq.
    + apply lookup_delete_eq.
    + by apply registered_one_per_depth.
Qed.

(** ** Further properties of the script *)

(** ** Numbers and their decimal notation *)

Lemma digit_value_pretty d : (d < 10)%N → digit_value (pretty_N_char d) = Some (Z.of_N d).
Proof.
  intros Hd.
  assert (d = 0 ∨ d = 1 ∨ d = 2 ∨ d = 3 ∨ d = 4 ∨ d = 5 ∨ d = 6 ∨ d = 7 ∨ d = 8 ∨ d = 9)%N
    as Hcases by lia.
  destruct_or!; subst; reflexivity.
Qed.

Lemma read_digits_pretty x s :
  (0 < x)%N → read_digits 10 (pretty_N_go x s) None = read_digits 10 s (Some (Z.of_N x)).
Proof.
  revert s. induction (N.lt_wf_0 x) as [x _ IH]. intros s Hx.
  rewrite pretty_N_go_step by done.
  assert (read_digits 10 (String (pretty_N_char (x `mod` 10)) s) 
            (if decide (x `div` 10 = 0)%N then None else Some (Z.of_N (x `div` 10)))
          = read_digits 10 s (Some (Z.of_N x))) as Hlast.
  { cbn [read_digits]. rewrite digit_value_pretty by (by apply N.mod_lt).
    rewrite bool_decide_true by (pose proof (N.mod_lt x 10 ltac:(done)); lia).
    f_equal. f_equal. pose proof (N.div_mod x 10 ltac:(done)) as Hx10.
    apply (f_equal Z.of_N) in Hx10. rewrite N2Z.inj_add, N2Z.inj_mul in Hx10.
    destruct (decide (x `div` 10 = 0)%N) as [Hdiv|Hdiv]; cbn; [rewrite Hdiv in Hx10|]; lia. }
  destruct (decide (x `div` 10 = 0)%N) as [Hdiv|Hdiv].
  - by rewrite Hdiv, pretty_N_go_0.
  - rewrite IH; [done | by apply N.div_lt | by apply N.neq_0_lt_0].
Qed.

Lemma pretty_N_go_head x s :
  (0 < x)%N →
  ∃ d rest, (1 ≤ d < 10)%N ∧ pretty_N_go x s = String (pretty_N_char d) rest.
Proof.
  revert s. induction (N.lt_wf_0 x) as [x _ IH]. intros s Hx.
  rewrite pretty_N_go_step by done.
  destruct (decide (x `div` 10 = 0)%N) as [Hdiv|Hdiv].
  - rewrite Hdiv, pretty_N_go_0. exists (x `mod` 10)%N, s. split; [|done].
    pose proof (N.div_mod x 10 ltac:(done)). pose proof (N.mod_lt x 10 ltac:(done)). lia.
  - apply IH; [by apply N.div_lt | by apply N.neq_0_lt_0].
Qed.

Lemma parseInt_pretty_pos p radix :
  radix = None ∨ radix = Some 10 →
  ∃ s, pretty (N.pos p) = s ∧ skip_white s = s ∧ strip_sign s = (false, s) ∧
       strip_hex_prefix s = None ∧ read_digits 10 s None = Some (Z.pos p).
Proof.
  intros _. exists (pretty (N.pos p)). split; [done|].
  unfold pretty, pretty_N. rewrite decide_False by done.
  destruct (pretty_N_go_head (N.pos p) "") as (d & rest & Hd & Heq); [done|].
  assert (read_digits 10 (pretty_N_go (N.pos p) "") None = Some (Z.pos p)) as Hread
    by (by rewrite read_digits_pretty).
  rewrite Heq in *.
  assert (d = 1 ∨ d = 2 ∨ d = 3 ∨ d = 4 ∨ d = 5 ∨ d = 6 ∨ d = 7 ∨ d = 8 ∨ d = 9)%N
    as Hcases by lia.
  destruct_or!; subst; done.
Qed.

Lemma parseInt_toString z radix :
  radix = None ∨ radix = Some 10 → parseInt (toString (Int z)) radix = Int z.
Proof.
  intros Hr. destruct z as [|p|p].
  - by destruct Hr as [-> | ->].
  - destruct (parseInt_pretty_pos p radix Hr) as (s & Hs & Hw & Hsign & Hhex & Hread).
    change (toString (Int (Z.pos p))) with (pretty (N.pos p)). rewrite Hs.
    unfold parseInt. rewrite Hw, Hsign.
    destruct Hr as [-> | ->]; cbn -[read_digits]; rewrite ?Hhex;
      repeat (case_bool_decide; try lia); cbn -[read_digits]; by rewrite Hread.
  - destruct (parseInt_pretty_pos p radix Hr) as (s & Hs & Hw & Hsign & Hhex & Hread).
    change (toString (Int (Z.neg p))) with ("-" +:+ pretty (N.pos p)). rewrite Hs.
    unfold parseInt.
    change (skip_white ("-" +:+ s)) with ("-" +:+ s).
    change (strip_sign ("-" +:+ s)) with (true, s).
    destruct Hr as [-> | ->]; cbn -[read_digits]; rewrite ?Hhex;
      repeat (case_bool_decide; try lia); cbn -[read_digits]; by rewrite Hread.
Qed.

(** ** Reading a depth *)

Lemma toString_not_empty z : toString (Int z) ≠ "".
Proof.
  intros Hz. pose proof (parseInt_toString z (Some 10) (or_intror eq_refl)) as Hp.
  by rewrite Hz in Hp.
Qed.

Lemma getPopoverDepth_written popover s z :
  dataset_depth s popover = Some (toString (Int z)) → getPopoverDepth popover s = Int z.
Proof.
  unfold getPopoverDepth. intros ->. rewrite decide_False by apply toString_not_empty.
  by rewrite parseInt_toString by (by right).
Qed.

(** X1.  [getPopoverDepth] gives a number for every element, never [NaN]:
    it is 0 when the depth attribute is missing, empty, or a text that
    [parseInt] does not read as a number, and it reads back every integer
    of magnitude up to 2^53 that was written to the attribute with
    [toString]. *)
Theorem getPopoverDepth_never_NaN popover s :
  getPopoverDepth popover s ≠ NaN ∧
  (dataset_depth s popover = None ∨ dataset_depth s popover = Some ""
   ∨ (∃ depthStr, dataset_depth s popover = Some depthStr ∧
                  parseInt depthStr (Some 10) = NaN) →
   getPopoverDepth popover s = Int 0) ∧
  (∀ z, - 2 ^ 53 ≤ z ≤ 2 ^ 53 →
        dataset_depth s popover = Some (toString (Int z)) →
        getPopoverDepth popover s = Int z).
Proof.
  unfold getPopoverDepth. split_and!.
  - destruct (dataset_depth s popover) as [depthStr|]; [|done].
    destruct (decide (depthStr = "")); [done|].
    by destruct (parseInt depthStr (Some 10)).
  - intros [->|[->|(depthStr & -> & Hparse)]]; [done..|].
    destruct (decide (depthStr = "")); [done|]. by rewrite Hparse.
  - intros z _. apply getPopoverDepth_written.
Qed.

Lemma walk_up_none s parents :
  (∀ a, a ∈ parents → ¬ is_popover s a) → walk_up s parents = Int 0.
Proof.
  induction parents as [|a up IH]; intros Hnone; [done|]. cbn.
  rewrite decide_False by (apply Hnone; by left). apply IH. intros b Hb. apply Hnone. by right.
Qed.

Lemma walk_up_first s parents i p :
  list_find (is_popover s) parents = Some (i, p) →
  walk_up s parents = add (parseInt (or_else (dataset_depth s p) "0") None) (Int 1).
Proof.
  revert i. induction parents as [|a up IH]; intros i; [done|]. cbn.
  destruct (decide (is_popover s a)) as [Ha|Ha]; [by intros [= _ <-]|].
  destruct (list_find (is_popover s) up) as [[j q]|] eqn:Hfind; [|done].
  cbn. intros [= _ <-]. by eapply IH.
Qed.

Lemma getCurrentPopoverDepth_nested link s i p z :
  list_find (is_popover s) (ancestors link (document s)) = Some (i, p) →
  dataset_depth s p = Some (toString (Int z)) →
  getCurrentPopoverDepth link s = Int (z + 1).
Proof.
  intros Hfind Hdepth. unfold getCurrentPopoverDepth.
  rewrite (walk_up_first _ _ _ _ Hfind), Hdepth. unfold or_else.
  rewrite decide_False by apply toString_not_empty.
  by rewrite parseInt_toString by (by left).
Qed.

(** X2.  A link that has no element with the class [popover] above it, so
    every link of the page proper, is at depth 0; a link whose nearest such
    element carries a depth [z] written with [toString] (of magnitude below
    2^53, as every depth that the script writes is), or no depth at all, is
    one deeper than that element. *)
Theorem link_depth_by_nearest_popover link s :
  ((∀ a, a ∈ ancestors link (document s) → ¬ is_popover s a) →
   getCurrentPopoverDepth link s = Int 0) ∧
  (∀ i p, list_find (is_popover s) (ancestors link (document s)) = Some (i, p) →
     (∀ z, - 2 ^ 53 < z < 2 ^ 53 →
           dataset_depth s p = Some (toString (Int z)) →
           getCurrentPopoverDepth link s = Int (z + 1)) ∧
     (dataset_depth s p = None ∨ dataset_depth s p = Some "" →
      getCurrentPopoverDepth link s = Int 1)).
Proof.
  split; [apply walk_up_none|]. intros i p Hfind. split.
  - intros z _ Hdepth. by eapply getCurrentPopoverDepth_nested.
  - unfold getCurrentPopoverDepth. rewrite (walk_up_first _ _ _ _ Hfind).
    by intros [-> | ->].
Qed.

(** ** The state after [showPopover] *)

Lemma on_heap_same s : on_heap (λ _, heap s) s = s.
Proof. by destruct s. Qed.

Lemma showPopover_state cx inner p z s :
  0 ≤ z < 2 ^ 32 →
  ∃ h, (showPopover cx inner p (Int z) s).2 = on_heap (λ _, h) (shown cx p z s) ∧
       ∀ n, h !! n = heap (shown cx p z s) !! n ∨
            ∃ top e, heap (shown cx p z s) !! n = Some e ∧ h !! n = Some (set_scrollTop top e).
Proof.
  intros Hz. unfold showPopover.
  rewrite (run_bind_ok _ _ _ _ _ (clearDeeperPopovers_run z s Hz)).
  rewrite !run_update. unfold setPosition. rewrite !run_modify.
  change (on_activePopoverStack _ _) with (shown cx p z s).
  set (s1 := shown cx p z s).
  assert (∃ h, s1 = on_heap (λ _, h) s1 ∧
               ∀ n, h !! n = heap s1 !! n ∨
                    ∃ top e, heap s1 !! n = Some e ∧ h !! n = Some (set_scrollTop top e))
    as Hsame by (exists (heap s1); split; [by rewrite on_heap_same | by left]).
  assert (∀ top i,
            ∃ h, on_heap (alter (set_scrollTop top) i) s1 = on_heap (λ _, h) s1 ∧
                 ∀ n, h !! n = heap s1 !! n ∨
                      ∃ top e, heap s1 !! n = Some e ∧ h !! n = Some (set_scrollTop top e))
    as Hscroll.
  { intros top i. exists (alter (set_scrollTop top) i (heap s1)). split; [done|].
    intros n. destruct (decide (i = n)) as [->|Hne]; [|left; by apply lookup_alter_ne].
    rewrite lookup_alter_eq. destruct (heap s1 !! n) as [e|]; [|by left].
    right. by exists top, e. }
  destruct (decide (fragment cx ≠ "")); [|done].
  destruct inner as [i|]; [|done].
  rewrite run_bind. unfold querySelector.
  destruct (id_selector _).
  - destruct (list_find _ _) as [[j hd]|]; cbn; [|done]. apply Hscroll.
  - destruct (selectOther _ _ _) as [[hd|]|e]; cbn; [|done..]. apply Hscroll.
Qed.

Lemma contains_class_add c d e : c ≠ d → contains c (class_add d e) = contains c e.
Proof.
  intros Hne. unfold contains, class_add, set_classList. cbn.
  destruct (bool_decide (d ∈ classList e)); [done|].
  apply bool_decide_ext. rewrite elem_of_app, list_elem_of_singleton.
  split; [intros [?|?]; [done | congruence] | by left].
Qed.

Lemma contains_class_remove c d e : c ≠ d → contains c (class_remove d e) = contains c e.
Proof.
  intros Hne. unfold contains, class_remove, set_classList. cbn.
  apply bool_decide_ext. rewrite list_elem_of_filter. split; [by intros [_ ?] | by split].
Qed.

Lemma keeps_class_refl c h : keeps_class c h h.
Proof. done. Qed.

Lemma keeps_class_trans c h1 h2 h3 :
  keeps_class c h1 h2 → keeps_class c h2 h3 → keeps_class c h1 h3.
Proof. intros H12 H23 n. by rewrite H23. Qed.

Lemma keeps_class_alter c (f : element → element) n h :
  (∀ e, contains c (f e) = contains c e) → keeps_class c h (alter f n h).
Proof.
  intros Hf k. destruct (decide (n = k)) as [->|Hne]; [|by rewrite lookup_total_alter_ne].
  rewrite !lookup_total_alt, lookup_alter_eq. by destruct (h !! k); cbn.
Qed.

Lemma keeps_class_hide c slots h :
  c ≠ "active-popover" → keeps_class c h (hide_slots slots h).
Proof.
  intros Hc. revert h. induction slots as [|[q|] slots IH]; intros h; [done| |apply IH].
  eapply keeps_class_trans; [|apply IH].
  apply keeps_class_alter. intros e. by apply contains_class_remove.
Qed.

Lemma keeps_class_shown c cx p z s :
  c ≠ "active-popover" → keeps_class c (heap s) (heap (shown cx p z s)).
Proof.
  intros Hc. cbn.
  eapply keeps_class_trans; [by apply keeps_class_hide|].
  eapply keeps_class_trans; [|by apply keeps_class_alter].
  eapply keeps_class_trans; [|by apply keeps_class_alter].
  apply keeps_class_alter. intros e. by apply contains_class_add.
Qed.

Lemma showPopover_keeps_class c cx inner p z s :
  0 ≤ z < 2 ^ 32 → c ≠ "active-popover" →
  keeps_class c (heap s) (heap (showPopover cx inner p (Int z) s).2).
Proof.
  intros Hz Hc. destruct (showPopover_state cx inner p z s Hz) as (h & -> & Hh).
  eapply keeps_class_trans; [by apply (keeps_class_shown c cx p z)|].
  intros n. cbn [heap on_heap]. rewrite !lookup_total_alt.
  destruct (Hh n) as [->|(top & e & -> & ->)]; done.
Qed.

Lemma showPopover_depth cx inner p z s :
  0 ≤ z < 2 ^ 32 → is_Some (heap s !! p) →
  dataset_depth (showPopover cx inner p (Int z) s).2 p = Some (toString (Int z)).
Proof.
  intros Hz [e He]. destruct (showPopover_state cx inner p z s Hz) as (h & -> & Hh).
  destruct (shown_elem cx p z s e He) as [e0 He0].
  unfold dataset_depth, elem. cbn [heap on_heap]. rewrite lookup_total_alt.
  destruct (Hh p) as [->|(top & e' & He' & ->)].
  - rewrite He0. cbn. apply lookup_insert_eq.
  - rewrite He0 in He'. injection He' as <-. cbn. apply lookup_insert_eq.
Qed.

(** X3.  The depth that [showPopover] writes is the depth that the two
    readers find afterwards: [getPopoverDepth] gives it for the popover, and
    [getCurrentPopoverDepth] gives one more for every link whose nearest
    element with the class [popover] is that popover.  This holds whether
    [showPopover] returns or throws at the use of the fragment. *)
Theorem shown_depth_is_read_back cx inner p z s :
  0 ≤ z < 2 ^ 32 → is_Some (heap s !! p) →
  let s' := exec (showPopover cx inner p (Int z)) s in
  getPopoverDepth p s' = Int z ∧
  ∀ link i, list_find (is_popover s) (ancestors link (document s)) = Some (i, p) →
            getCurrentPopoverDepth link s' = Int (z + 1).
Proof.
  intros Hz Hp s'.
  pose proof (showPopover_depth cx inner p z s Hz Hp) as Hdepth.
  fold (exec (showPopover cx inner p (Int z)) s) in Hdepth. fold s' in Hdepth.
  split; [by apply getPopoverDepth_written|].
  intros link i Hfind.
  assert (document s' = document s) as Hdoc.
  { unfold s', exec. by destruct (showPopover_state cx inner p z s Hz) as (h & -> & _). }
  assert (list_find (is_popover s') (ancestors link (document s')) = Some (i, p)) as Hfind'.
  { rewrite Hdoc, <- Hfind. apply list_find_ext. intros a. unfold is_popover, elem.
    by rewrite (showPopover_keeps_class "popover" cx inner p z s Hz). }
  by eapply getCurrentPopoverDepth_nested.
Qed.

(** ** Clearing from a depth that is not an array length *)

Lemma clearDeeperPopovers_throws keepDepth s :
  keepDepth = NaN ∨ (∃ z, keepDepth = Int z ∧ ¬ 0 ≤ z < 2 ^ 32) →
  clearDeeperPopovers keepDepth s
  = (Throw RangeError, on_heap (hide_slots (slots_from keepDepth (activePopoverStack s))) s).
Proof.
  intros Hbad. unfold clearDeeperPopovers. rewrite run_get.
  erewrite run_bind_ok by apply hide_loop. rewrite run_get.
  destruct Hbad as [->|(z & -> & Hz)]; [done|].
  cbn -[Z.pow]. by rewrite bool_decide_false.
Qed.

Lemma hide_slots_hidden slots h p :
  Some p ∈ slots → contains "active-popover" (hide_slots slots h !!! p) = false.
Proof.
  intros Hp. rewrite lookup_total_alt, hide_slots_lookup, decide_True by done.
  destruct (h !! p); cbn; [apply class_remove_hidden | done].
Qed.

(** X4.  [clearDeeperPopovers] with a depth that is not an array length
    fails with a [RangeError] at the assignment to [length], after its loop
    has run.  With [NaN] the loop does not start, so nothing changes.  With
    a negative depth, from -2^53 on (from where the counter of the loop
    counts up to 0), the loop starts at that index and runs over the whole
    stack: every recorded popover loses the class [active-popover], and the
    stack is left untrimmed. *)
Theorem clearing_from_a_bad_depth s :
  clearDeeperPopovers NaN s = (Throw RangeError, s) ∧
  ∀ z, - 2 ^ 53 ≤ z < 0 →
    let s' := exec (clearDeeperPopovers (Int z)) s in
    (clearDeeperPopovers (Int z) s).1 = Throw RangeError ∧
    activePopoverStack s' = activePopoverStack s ∧
    (∀ p, Some p ∈ activePopoverStack s → ¬ visible s' p) ∧
    (∀ p, Some p ∉ activePopoverStack s → heap s' !! p = heap s !! p).
Proof.
  split.
  - rewrite clearDeeperPopovers_throws by (by left). by destruct s.
  - intros z Hz s'. unfold s', exec.
    rewrite clearDeeperPopovers_throws by (right; exists z; split; [done | lia]).
    cbn [fst snd slots_from]. replace (Z.to_nat z) with 0%nat by lia. rewrite drop_0.
    split_and!; [done | done | |].
    + intros p Hp. unfold visible, elem. cbn [heap on_heap].
      by rewrite hide_slots_hidden.
    + intros p Hp. cbn [heap on_heap]. rewrite hide_slots_lookup. by rewrite decide_False.
Qed.

(** ** Clearing twice *)

Lemma hide_slots_twice slots1 slots2 slots h :
  (∀ p, Some p ∈ slots ↔ Some p ∈ slots1 ∨ Some p ∈ slots2) →
  hide_slots slots2 (hide_slots slots1 h) = hide_slots slots h.
Proof.
  intros Hslots. apply map_eq. intros p. rewrite !hide_slots_lookup.
  destruct (decide (Some p ∈ slots)) as [Hin|Hout].
  - apply Hslots in Hin.
    destruct (decide (Some p ∈ slots1)), (decide (Some p ∈ slots2)); try tauto;
      destruct (h !! p); cbn; by rewrite ?class_remove_idemp.
  - rewrite !decide_False; [done | |]; intros ?; apply Hout, Hslots; tauto.
Qed.

Lemma take_padded {A} (j k : nat) (l : list (option A)) :
  (j ≤ k)%nat →
  take j (take k l ++ replicate (k - length l) None) = take j l ++ replicate (j - length l) None.
Proof.
  intros Hjk. destruct (decide (length l ≤ j)%nat) as [Hlen|Hlen].
  - rewrite (take_ge l k), (take_ge l j) by lia. rewrite take_app_ge by done. f_equal.
    rewrite take_replicate. f_equal. lia.
  - rewrite take_app_le by (rewrite length_take; lia).
    rewrite take_take. replace (j `min` k)%nat with j by lia.
    replace (j - length l)%nat with 0%nat by lia. by rewrite app_nil_r.
Qed.

Lemma cleared_cleared J K s :
  0 ≤ J ≤ K → cleared J (cleared K s) = cleared J s.
Proof.
  intros HJK. unfold cleared. destruct s as [a stack ht pa h d b t nt ls cs fl ts].
  unfold on_activePopoverStack, on_heap. cbn.
  set (j := Z.to_nat J). set (k := Z.to_nat K). assert (j ≤ k)%nat as Hjk by lia.
  set (l1 := take k stack ++ replicate (k - length stack) None).
  assert (length l1 = k) as Hl1
    by (unfold l1; rewrite length_app, length_take, length_replicate; lia).
  f_equal.
  - replace (j - length l1)%nat with 0%nat by lia. rewrite app_nil_r.
    by apply take_padded.
  - apply hide_slots_twice. intros p. rewrite !list_elem_of_lookup. split.
    + intros [i Hi]. rewrite lookup_drop in Hi.
      destruct (decide (j + i < k)%nat) as [Hlt|Hge].
      * right. exists i. rewrite lookup_drop. unfold l1.
        rewrite lookup_app_l by (rewrite length_take; apply lookup_lt_Some in Hi; lia).
        by rewrite lookup_take_lt.
      * left. exists (j + i - k)%nat. rewrite lookup_drop. rewrite <- Hi. f_equal. lia.
    + intros [[i Hi]|[i Hi]].
      * rewrite lookup_drop in Hi. exists (k + i - j)%nat. rewrite lookup_drop, <- Hi.
        f_equal. lia.
      * rewrite lookup_drop in Hi. unfold l1 in Hi.
        apply lookup_app_Some in Hi as [Hi|[_ Hi]].
        -- apply lookup_take_Some in Hi as [Hi _]. exists i. by rewrite lookup_drop.
        -- by apply lookup_replicate in Hi as [? _].
Qed.

(** X5.  Clearing from a depth and then from a shallower one leaves the
    state that clearing from the shallower depth alone leaves; so clearing
    a second time from the same depth changes nothing. *)
Theorem clearing_twice J K s :
  0 ≤ J ≤ K → K < 2 ^ 32 →
  exec (clearDeeperPopovers (Int J)) (exec (clearDeeperPopovers (Int K)) s)
  = exec (clearDeeperPopovers (Int J)) s.
Proof.
  intros HJK HK. unfold exec. rewrite !clearDeeperPopovers_run by lia. cbn [snd].
  by apply cleared_cleared.
Qed.

(** X6.  Clearing from a depth at or above the length of the stack hides
    nothing: the state stays as it is, except that the assignment to
    [length] lengthens the stack to that depth with empty slots. *)
Theorem clearing_above_the_top K s :
  Z.of_nat (length (activePopoverStack s)) ≤ K < 2 ^ 32 →
  clearDeeperPopovers (Int K) s
  = (Ok tt,
     on_activePopoverStack
       (λ l, l ++ replicate (Z.to_nat K - length (activePopoverStack s)) None) s).
Proof.
  intros HK. rewrite clearDeeperPopovers_run by lia. f_equal. unfold cleared.
  rewrite drop_ge by lia. destruct s as [a stack ht pa h d b t nt ls cs fl ts].
  unfold on_activePopoverStack, on_heap. cbn in *. f_equal. rewrite take_ge by lia. done.
Qed.

(** ** [clearActivePopover] *)

Lemma hide_all_loop (l : list nid) s :
  forEach (λ popoverElement, update popoverElement (class_remove "active-popover")) l s
  = (Ok tt, on_heap (hide_slots (Some <$> l)) s).
Proof.
  revert s. induction l as [|p l IH]; intros s; [by destruct s|].
  cbn [forEach]. rewrite run_update, IH. done.
Qed.

Lemma clearActivePopover_run s :
  clearActivePopover s
  = (Ok tt,
     on_hideTimeouts (λ _, ∅)
       (on_timers (λ t, foldl (λ t (kv : number * positive),
                                 if true then delete kv.2 t else t) t
                              (map_to_list (hideTimeouts s)))
          (on_activePopoverStack (λ _, [])
             (on_heap (hide_slots (Some <$> filter (is_popover s) (nodes (document s))))
                (on_activeAnchor (λ _, None) s))))).
Proof.
  unfold clearActivePopover. rewrite run_modify, run_get.
  erewrite run_bind_ok by apply hide_all_loop.
  rewrite run_modify, run_get.
  erewrite run_bind_ok by apply clearTimeout_loop. done.
Qed.

(** X7.  [clearActivePopover] ends normally.  Afterwards there is no active
    anchor, the stack and the registry are empty and no timeout of the
    registry is pending; every element of the document with the class
    [popover] has lost the class [active-popover] and nothing else, whether
    the stack recorded it or not.  Unlike the teardown it removes no element
    and no listener. *)
Theorem clearActivePopover_hides_all s :
  let s' := exec clearActivePopover s in
  (clearActivePopover s).1 = Ok tt ∧
  activeAnchor s' = None ∧ activePopoverStack s' = [] ∧ hideTimeouts s' = ∅ ∧
  (∀ depth id, hideTimeouts s !! depth = Some id → timers s' !! id = None) ∧
  (∀ id, (∀ depth, hideTimeouts s !! depth ≠ Some id) → timers s' !! id = timers s !! id) ∧
  (∀ p, p ∈ nodes (document s) → is_popover s p →
        heap s' !! p = class_remove "active-popover" <$> heap s !! p ∧ ¬ visible s' p) ∧
  (∀ n, ¬ (n ∈ nodes (document s) ∧ is_popover s n) → heap s' !! n = heap s !! n) ∧
  document s' = document s ∧ listeners s' = listeners s.
Proof.
  intros s'. unfold s', exec. rewrite clearActivePopover_run. cbn [fst snd].
  split_and!; try done.
  - intros depth id Hid. cbn.
    apply (fold_delete_hit (λ _ : number * positive, true) snd _ _ (depth, id));
      [by apply elem_of_map_to_list | done].
  - intros id Hid. cbn.
    apply (fold_delete_miss (λ _ : number * positive, true) snd).
    intros [k v] Hkv _ <-. apply elem_of_map_to_list in Hkv. by apply (Hid k).
  - intros p Hp Hpop.
    assert (Some p ∈ Some <$> filter (is_popover s) (nodes (document s))) as Hin
      by (apply list_elem_of_fmap_2; by apply list_elem_of_filter).
    split.
    + cbn. rewrite hide_slots_lookup. by rewrite decide_True.
    + unfold visible, elem. cbn [heap on_hideTimeouts on_timers on_activePopoverStack on_heap].
      by rewrite hide_slots_hidden.
  - intros n Hn. cbn. rewrite hide_slots_lookup. rewrite decide_False; [done|].
    intros Hin. apply list_elem_of_fmap in Hin as (m & [= <-] & Hm).
    apply list_elem_of_filter in Hm as [? ?]. by apply Hn.
Qed.

(** ** Cancelling from a depth *)

Lemma cancelled_NaN s : cancelled NaN s = s.
Proof.
  assert (∀ (l : list (number * positive)) (t : gmap positive number),
            foldl (λ t kv, if ge kv.1 NaN then delete kv.2 t else t) t l = t) as Ht.
  { intros l. induction l as [|[[|k] v] l IH]; intros t; cbn; [done | apply IH..]. }
  assert (∀ (l : list (number * positive)) (m : gmap number positive),
            foldl (λ m kv, if ge kv.1 NaN then delete kv.1 m else m) m l = m) as Hm.
  { intros l. induction l as [|[[|k] v] l IH]; intros m; cbn; [done | apply IH..]. }
  unfold cancelled. destruct s. unfold on_timers, on_hideTimeouts. cbn. by rewrite Ht, Hm.
Qed.

(** X8.  [cancelHideTimeoutsFromDepth] ends normally for every depth.  It
    removes from the registry exactly the entries whose depth is at or above
    the given one, and the timeouts of those entries are no longer pending;
    every other entry and every other pending timeout stays.  No element,
    no slot of the stack and no listener changes.  With the depth [NaN],
    which compares false with every number, it changes nothing at all. *)
Theorem cancelling_from_a_depth depth s :
  let s' := exec (cancelHideTimeoutsFromDepth depth) s in
  (cancelHideTimeoutsFromDepth depth s).1 = Ok tt ∧
  (∀ k, hideTimeouts s' !! k = if ge k depth then None else hideTimeouts s !! k) ∧
  (∀ k id, hideTimeouts s !! k = Some id → ge k depth = true → timers s' !! id = None) ∧
  (∀ id, (∀ k, hideTimeouts s !! k = Some id → ge k depth = false) →
         timers s' !! id = timers s !! id) ∧
  heap s' = heap s ∧ activePopoverStack s' = activePopoverStack s ∧
  listeners s' = listeners s ∧ activeAnchor s' = activeAnchor s ∧
  (depth = NaN → s' = s).
Proof.
  intros s'. unfold s', exec. rewrite cancel_run. cbn [fst snd].
  split_and!; try done.
  - apply cancelled_registry.
  - apply cancelled_timers_hit.
  - apply cancelled_timers_miss.
  - intros ->. apply cancelled_NaN.
Qed.

(** ** A hide that is scheduled and then cancelled *)

Lemma cancelled_scheduled d d' s :
  timers_registered s → ge d d' = true →
  timers (cancelled d' (scheduled d s)) = timers (cancelled d' s) ∧
  hideTimeouts (cancelled d' (scheduled d s)) = hideTimeouts (cancelled d' s).
Proof.
  intros (Hreg & Hnext & Hstale & Hsame) Hge.
  assert (∀ k, hideTimeouts (scheduled d s) !! k
               = if decide (k = d) then Some (next_timer s) else hideTimeouts s !! k) as Hsched.
  { intros k. cbn. destruct (decide (k = d)) as [->|Hne];
      [apply lookup_insert_eq | by apply lookup_insert_ne]. }
  split.
  - apply map_eq. intros id.
    destruct (decide (id = next_timer s)) as [->|Hid].
    { rewrite (cancelled_timers_hit d' (scheduled d s) d);
        [|by rewrite Hsched, decide_True | done].
      symmetry. eapply lookup_weaken_None; [|apply cancelled_timers_subseteq].
      destruct (timers s !! next_timer s) eqn:Hn; [|done].
      assert (next_timer s < next_timer s)%positive by (by apply Hnext). lia. }
    destruct (decide (hideTimeouts s !! d = Some id)) as [Hex|Hex].
    { rewrite (cancelled_timers_hit d' s d id Hex Hge).
      eapply lookup_weaken_None; [|apply cancelled_timers_subseteq].
      cbn. rewrite lookup_insert_ne by done. rewrite Hex. apply lookup_delete_eq. }
    assert (timers (scheduled d s) !! id = timers s !! id) as Hkeep.
    { cbn. rewrite lookup_insert_ne by done.
      destruct (hideTimeouts s !! d) as [e|] eqn:He; [|done].
      apply lookup_delete_ne. congruence. }
    destruct (timers s !! id) as [k|] eqn:Hk.
    + pose proof (Hreg _ _ Hk) as Hrk.
      assert (∀ k', hideTimeouts s !! k' = Some id → k' = k) as Honly
        by (intros k' Hk'; symmetry; by eapply Hsame).
      destruct (ge k d') eqn:Hkge.
      * rewrite (cancelled_timers_hit d' s k id Hrk Hkge).
        apply (cancelled_timers_hit d' (scheduled d s) k); [|done].
        rewrite Hsched. rewrite decide_False; [done | congruence].
      * rewrite !cancelled_timers_miss; [congruence | |].
        -- intros k' Hk'. by rewrite (Honly k' Hk').
        -- intros k'. rewrite Hsched. destruct (decide (k' = d)); [congruence|].
           intros Hk'. by rewrite (Honly k' Hk').
    + transitivity (@None number); [|symmetry];
        (eapply lookup_weaken_None; [|apply cancelled_timers_subseteq]); congruence.
  - apply map_eq. intros k. rewrite !cancelled_registry, Hsched.
    destruct (ge k d') eqn:Hkge; [done|]. rewrite decide_False; [done | congruence].
Qed.

Lemma popoverMouseEnter_run p z s :
  dataset_depth s p = Some (toString (Int z)) →
  popoverMouseEnter p s = (Ok tt, cancelled (Int z) s).
Proof.
  intros Hdepth. unfold popoverMouseEnter. rewrite run_get. cbv zeta. rewrite Hdepth.
  unfold or_else. rewrite decide_False by apply toString_not_empty.
  rewrite parseInt_toString by (by left). apply cancel_run.
Qed.

(** X9.  At any point of any run, when a hide is scheduled at some depth
    and the pointer then enters a popover whose depth attribute holds a depth
    at or below it, the listener of the popover ends normally and the new
    timeout is cancelled: it is no longer pending and the registry has no
    entry for its depth.  The pending timeouts and the registry are then
    what cancelling from the depth of the popover would have left without
    the hide; no element and no slot of the stack has changed. *)
Theorem entering_a_popover_cancels_the_hide h d b es p z depth :
  let s := run es (loaded h d b) in
  dataset_depth s p = Some (toString (Int z)) → z ≤ depth →
  let s1 := exec (scheduleHideAtDepth (Int depth)) s in
  let s2 := exec (popoverMouseEnter p) s1 in
  timers s1 !! next_timer s = Some (Int depth) ∧
  (popoverMouseEnter p s1).1 = Ok tt ∧
  timers s2 !! next_timer s = None ∧
  hideTimeouts s2 !! Int depth = None ∧
  timers s2 = timers (exec (cancelHideTimeoutsFromDepth (Int z)) s) ∧
  hideTimeouts s2 = hideTimeouts (exec (cancelHideTimeoutsFromDepth (Int z)) s) ∧
  heap s2 = heap s ∧ activePopoverStack s2 = activePopoverStack s.
Proof.
  intros s Hdepth Hz s1 s2.
  pose proof (reachable_registered h d b es) as Hs. fold s in Hs.
  assert (ge (Int depth) (Int z) = true) as Hge by (cbn; by apply bool_decide_eq_true).
  assert (s1 = scheduled (Int depth) s) as Hs1 by (unfold s1, exec; by rewrite schedule_run).
  assert (popoverMouseEnter p s1 = (Ok tt, cancelled (Int z) s1)) as Hrun
    by (apply popoverMouseEnter_run; by rewrite Hs1).
  assert (s2 = cancelled (Int z) s1) as Hs2 by (unfold s2, exec; by rewrite Hrun).
  destruct (cancelled_scheduled (Int depth) (Int z) s Hs Hge) as [Ht Hr].
  unfold exec at 1 2. rewrite cancel_run. cbn [snd].
  rewrite Hrun, Hs2, Hs1. split_and!; try done.
  - cbn. apply lookup_insert_eq.
  - apply (cancelled_timers_hit _ _ (Int depth)); [|done]. cbn. apply lookup_insert_eq.
  - by rewrite cancelled_registry, Hge.
Qed.

(** X10.  [handleLinkLeave] does nothing when the pointer goes to an element
    inside a popover.  Otherwise it hides nothing at once: it schedules a
    hide at depth 0, whatever the depth of the link.  When that timeout
    expires its callback ends normally, the stack is empty, every popover
    the stack recorded has lost the class [active-popover], and the timeout
    has left the registry. *)
Theorem leaving_a_link this related s :
  ((∃ target popover, related = Some target ∧
                      closest (is_popover s) target s = Some popover) →
   handleLinkLeave this related s = (Ok tt, s)) ∧
  ((∀ target, related = Some target → closest (is_popover s) target s = None) →
   let s1 := exec (handleLinkLeave this related) s in
   let s2 := exec (hideTimeoutFires (next_timer s)) s1 in
   (handleLinkLeave this related s).1 = Ok tt ∧
   timers s1 !! next_timer s = Some (Int 0) ∧
   hideTimeouts s1 !! Int 0 = Some (next_timer s) ∧
   heap s1 = heap s ∧ activePopoverStack s1 = activePopoverStack s ∧
   (hideTimeoutFires (next_timer s) s1).1 = Ok tt ∧
   activePopoverStack s2 = [] ∧
   (∀ p, Some p ∈ activePopoverStack s → ¬ visible s2 p) ∧
   (∀ p, Some p ∉ activePopoverStack s → heap s2 !! p = heap s !! p) ∧
   timers s2 !! next_timer s = None ∧
   hideTimeouts s2 !! Int 0 = None).
Proof.
  split.
  - intros (target & popover & -> & Hclosest). unfold handleLinkLeave.
    by rewrite run_get, Hclosest.
  - intros Hout s1 s2.
    assert (handleLinkLeave this related s = (Ok tt, scheduled (Int 0) s)) as Hrun.
    { unfold handleLinkLeave. rewrite run_get. destruct related as [target|].
      - rewrite (Hout target eq_refl). apply schedule_run.
      - apply schedule_run. }
    assert (s1 = scheduled (Int 0) s) as Hs1 by (unfold s1, exec; by rewrite Hrun).
    assert (timers s1 !! next_timer s = Some (Int 0)) as Hpending
      by (rewrite Hs1; cbn; apply lookup_insert_eq).
    assert (0 ≤ 0 < 2 ^ 32) as H0 by lia.
    pose proof (fire_run (next_timer s) 0 s1 Hpending H0) as Hfire.
    assert (s2 = on_hideTimeouts (delete (Int 0))
                   (cleared 0 (on_timers (delete (next_timer s)) s1))) as Hs2
      by (unfold s2, exec; by rewrite Hfire).
    rewrite Hrun, Hfire. cbn [fst]. split_and!; try done.
    + rewrite Hs1. cbn. apply lookup_insert_eq.
    + by rewrite Hs1.
    + by rewrite Hs1.
    + by rewrite Hs2.
    + intros p Hp. rewrite Hs2, Hs1. unfold visible, elem. cbn - [hide_slots].
      rewrite drop_0. by rewrite hide_slots_hidden.
    + intros p Hp. rewrite Hs2, Hs1. cbn - [hide_slots]. rewrite drop_0.
      rewrite hide_slots_lookup. by rewrite decide_False.
    + rewrite Hs2. cbn. apply lookup_delete_eq.
    + rewrite Hs2. cbn. apply lookup_delete_eq.
Qed.

(** X11.  The [mouseleave] listener of a popover whose depth attribute holds
    the depth [z].  When the pointer goes to an element inside a deeper
    popover, nothing changes.  When it goes to one inside a shallower
    popover, of depth [zq], the popovers recorded above [zq] are hidden at
    once and no timeout is scheduled.  In every other case (a popover of the
    same depth, a link, anything else, nothing) nothing is hidden at once
    and a hide is scheduled at the depth [z]; when that timeout expires the
    stack is cut to the length [z], so the popover itself is hidden with the
    deeper ones, and the shallower ones stay. *)
Theorem leaving_a_popover p related z s :
  dataset_depth s p = Some (toString (Int z)) → 0 ≤ z < 2 ^ 32 →
  (∀ target q zq,
     related = Some target → closest (is_popover s) target s = Some q →
     getPopoverDepth q s = Int zq →
     (z < zq → popoverMouseLeave p related s = (Ok tt, s)) ∧
     (0 ≤ zq + 1 ≤ z →
      popoverMouseLeave p related s = (Ok tt, cleared (zq + 1) s) ∧
      timer_view (cleared (zq + 1) s) = timer_view s)) ∧
  ((∀ target q, related = Some target → closest (is_popover s) target s = Some q →
                getPopoverDepth q s = Int z) →
   let s1 := exec (popoverMouseLeave p related) s in
   let s2 := exec (hideTimeoutFires (next_timer s)) s1 in
   (popoverMouseLeave p related s).1 = Ok tt ∧
   timers s1 !! next_timer s = Some (Int z) ∧
   heap s1 = heap s ∧ activePopoverStack s1 = activePopoverStack s ∧
   (hideTimeoutFires (next_timer s) s1).1 = Ok tt ∧
   length (activePopoverStack s2) = Z.to_nat z ∧
   (∀ i slot, (i < Z.to_nat z)%nat → activePopoverStack s !! i = Some slot →
              activePopoverStack s2 !! i = Some slot) ∧
   (∀ q, Some q ∈ drop (Z.to_nat z) (activePopoverStack s) → ¬ visible s2 q) ∧
   (∀ q, Some q ∉ drop (Z.to_nat z) (activePopoverStack s) → heap s2 !! q = heap s !! q) ∧
   hideTimeouts s2 !! Int z = None).
Proof.
  intros Hdepth Hz.
  pose proof (getPopoverDepth_written p s z Hdepth) as Hp.
  split.
  - intros target q zq -> Hclosest Hq. split.
    + intros Hlt. unfold popoverMouseLeave. rewrite run_get. cbv zeta.
      rewrite Hclosest, Hp, Hq. cbn. by rewrite bool_decide_true.
    + intros Hzq. split; [|done]. unfold popoverMouseLeave. rewrite run_get. cbv zeta.
      rewrite Hclosest, Hp, Hq. cbn -[Z.pow clearDeeperPopovers].
      rewrite bool_decide_false by lia. rewrite bool_decide_false by lia.
      apply clearDeeperPopovers_run. lia.
  - intros Hsame s1 s2.
    assert (popoverMouseLeave p related s = (Ok tt, scheduled (Int z) s)) as Hrun.
    { unfold popoverMouseLeave. rewrite run_get. cbv zeta. rewrite Hp.
      destruct related as [target|]; [|apply schedule_run].
      destruct (closest (is_popover s) target s) as [q|] eqn:Hq.
      - rewrite (Hsame target q eq_refl Hq). cbn -[scheduleHideAtDepth].
        rewrite bool_decide_false by lia. rewrite bool_decide_true by done.
        apply schedule_run.
      - destruct (closest (is_internal_link s) target s); apply schedule_run. }
    assert (s1 = scheduled (Int z) s) as Hs1 by (unfold s1, exec; by rewrite Hrun).
    assert (timers s1 !! next_timer s = Some (Int z)) as Hpending
      by (rewrite Hs1; cbn; apply lookup_insert_eq).
    pose proof (fire_run (next_timer s) z s1 Hpending Hz) as Hfire.
    assert (s2 = on_hideTimeouts (delete (Int z))
                   (cleared z (on_timers (delete (next_timer s)) s1))) as Hs2
      by (unfold s2, exec; by rewrite Hfire).
    rewrite Hrun, Hfire. cbn [fst]. split_and!; try done.
    + by rewrite Hs1.
    + by rewrite Hs1.
    + rewrite Hs2, Hs1. cbn. rewrite length_app, length_take, length_replicate. lia.
    + intros i slot Hi Hslot. rewrite Hs2, Hs1. cbn.
      rewrite lookup_app_l by (rewrite length_take; apply lookup_lt_Some in Hslot; lia).
      by rewrite lookup_take_lt.
    + intros q Hq. rewrite Hs2, Hs1. unfold visible, elem. cbn - [hide_slots].
      by rewrite hide_slots_hidden.
    + intros q Hq. rewrite Hs2, Hs1. cbn - [hide_slots].
      rewrite hide_slots_lookup. by rewrite decide_False.
    + rewrite Hs2. cbn. apply lookup_delete_eq.
Qed.

(** ** Attaching the listeners, exactly *)

Lemma elem_of_attached_now A links x :
  x ∈ attached_now A links ↔ ∃ l, x = (l, MouseEnterHandler) ∧ l ∈ links ∧ l ∉ A.
Proof.
  unfold attached_now. rewrite elem_of_list_to_set, list_elem_of_fmap. split.
  - intros (l & -> & Hl). apply list_elem_of_filter in Hl as [? ?]. by exists l.
  - intros (l & -> & Hl & HA). exists l. split; [done|]. by apply list_elem_of_filter.
Qed.

Lemma attach_loop_exact p (links : list nid) s A :
  popoverListenersAttached s !! p = Some A →
  forEach (λ link : nid,
             s ← get;
             let attachedLinks := default ∅ (popoverListenersAttached s !! p) in
             if decide (link ∈ attachedLinks) then mret tt
             else
               modify (on_listeners (λ ls, ls ∪ {[ (link, MouseEnterHandler) ]})) ;;
               modify (on_popoverListenersAttached
                         (<[p := attachedLinks ∪ {[ link ]}]>))) links s
  = (Ok tt, on_popoverListenersAttached (<[p := A ∪ list_to_set links]>)
              (on_listeners (λ ls, ls ∪ attached_now A links) s)).
Proof.
  revert s A. induction links as [|x links IH]; intros s A HA.
  - destruct s. unfold on_popoverListenersAttached, on_listeners, attached_now. cbn in *.
    rewrite !(right_id_L ∅ (∪)). by rewrite insert_id.
  - cbn [forEach]. destruct (decide (x ∈ A)) as [Hx|Hx].
    + erewrite run_bind_ok;
        [|rewrite run_get; cbv zeta; rewrite HA; change (default ∅ (Some A)) with A;
          rewrite decide_True by done; reflexivity].
      pose proof (IH s A HA) as Hrun. cbv zeta in Hrun |- *. rewrite Hrun.
      assert (A ∪ list_to_set (x :: links) = A ∪ list_to_set links :> gset nid) as ->.
      { apply set_eq. intros y. cbn. rewrite !elem_of_union, elem_of_singleton.
        split; [|intros [?|?]; [by left | by right; right]].
        intros [?|[-> |?]]; [by left | by left | by right]. }
      assert (attached_now A (x :: links) = attached_now A links) as ->; [|done].
      apply set_eq. intros y. rewrite !elem_of_attached_now.
      split; intros (l & -> & Hl & HlA); exists l; (split; [done|]); (split; [|done]).
      * apply elem_of_cons in Hl as [-> |Hl]; done.
      * by right.
    + erewrite run_bind_ok;
        [|rewrite run_get; cbv zeta; rewrite HA; change (default ∅ (Some A)) with A;
          rewrite decide_False by done; rewrite run_modify; reflexivity].
      set (s1 := on_popoverListenersAttached (<[p := A ∪ {[x]}]>)
                   (on_listeners (λ ls, ls ∪ {[ (x, MouseEnterHandler) ]}) s)).
      assert (popoverListenersAttached s1 !! p = Some (A ∪ {[x]})) as HA1
        by (cbn; apply lookup_insert_eq).
      pose proof (IH s1 (A ∪ {[x]}) HA1) as Hrun. cbv zeta in Hrun |- *. rewrite Hrun.
      f_equal. destruct s. unfold s1, on_popoverListenersAttached, on_listeners.
      cbn -[attached_now]. f_equal.
      * rewrite insert_insert_eq. f_equal. cbn. by rewrite (assoc_L (∪)).
      * apply set_eq. intros y. rewrite !elem_of_union, elem_of_singleton.
        rewrite !elem_of_attached_now. split.
        -- intros [[?| ->]|(l & -> & Hl & HlA)]; [by left| |].
           ++ right. exists x. split; [done|]. split; [by left | done].
           ++ right. exists l. split; [done|]. split; [by right|].
              intros ?. apply HlA, elem_of_union. by left.
        -- intros [?|(l & -> & Hl & HlA)]; [by left; left|].
           destruct (decide (l = x)) as [-> |Hne]; [left; by right|].
           right. exists l. split; [done|].
           apply elem_of_cons in Hl as [?|Hl]; [done|]. split; [done|].
           intros HlA'. apply elem_of_union in HlA' as [?|Hlx]; [done|].
           by apply elem_of_singleton in Hlx.
Qed.

Lemma attach_exact p s :
  attachPopoverListeners p s
  = (Ok tt,
     on_popoverListenersAttached
       (<[p := default ∅ (popoverListenersAttached s !! p)
               ∪ list_to_set (filter (is_internal_link s) (descendants p (document s)))]>)
       (on_listeners
          (λ ls, ls ∪ attached_now (default ∅ (popoverListenersAttached s !! p))
                        (filter (is_internal_link s) (descendants p (document s)))) s)).
Proof.
  unfold attachPopoverListeners. rewrite run_get. cbv zeta.
  set (links := filter (is_internal_link s) (descendants p (document s))).
  destruct (popoverListenersAttached s !! p) as [A|] eqn:HA.
  - rewrite run_ret. pose proof (attach_loop_exact p links s A HA) as Hrun.
    cbv zeta in Hrun. by rewrite Hrun.
  - rewrite run_modify.
    pose proof (attach_loop_exact p links (on_popoverListenersAttached (<[p := ∅]>) s) ∅)
      as Hrun. cbv zeta in Hrun. rewrite Hrun by (cbn; apply lookup_insert_eq).
    f_equal. destruct s. unfold on_popoverListenersAttached, on_listeners.
    cbn -[attached_now]. f_equal. by rewrite insert_insert_eq.
Qed.

Lemma attached_now_listed A links : (∀ l, l ∈ links → l ∈ A) → attached_now A links = ∅.
Proof.
  intros Hall. apply set_eq. intros x. rewrite elem_of_attached_now. split.
  - intros (l & _ & Hl & HlA). destruct HlA. by apply Hall.
  - intros Hx. by apply not_elem_of_empty in Hx.
Qed.

(** X12.  Attaching the listeners of a popover a second time changes
    nothing: the record of the popover lists every link that the first call
    gave the handler, and the second call skips them all. *)
Theorem attaching_twice p s :
  exec (attachPopoverListeners p) (exec (attachPopoverListeners p) s)
  = exec (attachPopoverListeners p) s.
Proof.
  unfold exec. rewrite (attach_exact p s). cbn [snd].
  set (A := default ∅ (popoverListenersAttached s !! p)).
  set (links := filter (is_internal_link s) (descendants p (document s))).
  set (s1 := on_popoverListenersAttached (<[p := A ∪ list_to_set links]>)
               (on_listeners (λ ls, ls ∪ attached_now A links) s)).
  rewrite (attach_exact p s1). cbn [snd].
  assert (default ∅ (popoverListenersAttached s1 !! p) = A ∪ list_to_set links) as ->
    by (cbn; by rewrite lookup_insert_eq).
  change (filter (is_internal_link s1) (descendants p (document s1))) with links.
  rewrite attached_now_listed
    by (intros l Hl; apply elem_of_union; right; by apply elem_of_list_to_set).
  assert (A ∪ list_to_set links ∪ list_to_set links = A ∪ list_to_set links :> gset nid) as ->.
  { apply set_eq. intros l. rewrite !elem_of_union. tauto. }
  destruct s. unfold s1, on_popoverListenersAttached, on_listeners. cbn -[attached_now].
  f_equal; [by rewrite insert_insert_eq | by rewrite (right_id_L ∅ (∪))].
Qed.

(** X13.  [attachPopoverListeners] ends normally.  It adds the handler to
    exactly the internal links below the popover that the record of the
    popover does not list, and removes no listener; afterwards the record
    lists what it listed and every internal link below the popover; the
    records of the other popovers, the elements, the document, the stack
    and the timeouts are as they were. *)
Theorem attaching_listeners p s :
  let s' := exec (attachPopoverListeners p) s in
  let A := default ∅ (popoverListenersAttached s !! p) in
  (attachPopoverListeners p s).1 = Ok tt ∧
  (∀ x, x ∈ listeners s' ↔
        x ∈ listeners s ∨
        ∃ l, x = (l, MouseEnterHandler) ∧ l ∈ descendants p (document s) ∧
             is_internal_link s l ∧ l ∉ A) ∧
  (∃ A', popoverListenersAttached s' !! p = Some A' ∧
         ∀ l, l ∈ A' ↔ l ∈ A ∨ l ∈ descendants p (document s) ∧ is_internal_link s l) ∧
  (∀ q, q ≠ p → popoverListenersAttached s' !! q = popoverListenersAttached s !! q) ∧
  heap s' = heap s ∧ document s' = document s ∧
  activePopoverStack s' = activePopoverStack s ∧
  timers s' = timers s ∧ hideTimeouts s' = hideTimeouts s.
Proof.
  intros s' A. unfold s', exec. rewrite attach_exact. cbn [fst snd]. fold A.
  split_and!; try done.
  - intros x. cbn -[attached_now]. rewrite elem_of_union, elem_of_attached_now.
    split.
    + intros [?|(l & -> & Hl & HlA)]; [by left|]. right. exists l.
      apply list_elem_of_filter in Hl as [? ?]. done.
    + intros [?|(l & -> & Hl & Hlink & HlA)]; [by left|]. right. exists l.
      split; [done|]. split; [by apply list_elem_of_filter | done].
  - eexists. cbn. rewrite lookup_insert_eq. split; [done|].
    intros l. rewrite elem_of_union, elem_of_list_to_set, list_elem_of_filter. tauto.
  - intros q Hq. cbn. by rewrite lookup_insert_ne.
Qed.

(** ** The start of the handler *)

(** X14.  A pointer-enter on a link that has opted out ends normally and
    only makes the link the active anchor: no timeout is cancelled, nothing
    is fetched and nothing else changes.  Because the anchor has changed,
    the end of a handler that was started for another link, resumed
    afterwards, shows nothing. *)
Theorem hovering_an_opted_out_link this x y s :
  attrs (elem s this) !! "data-no-popover" = Some "true" →
  let s' := exec (mouseEnterHandler this x y) s in
  mouseEnterHandler this x y s = (Ok tt, on_activeAnchor (λ _, Some this) s) ∧
  activeAnchor s' = Some this ∧
  timers s' = timers s ∧ hideTimeouts s' = hideTimeouts s ∧
  fetch_log s' = fetch_log s ∧ tasks s' = tasks s ∧
  ∀ cx pe pi kids,
    link cx ≠ this →
    let s'' := exec (insertPopover cx pe pi kids) s' in
    heap s'' = heap s' ∧ activePopoverStack s'' = activePopoverStack s' ∧
    tasks s'' = tasks s' ∧ listeners s'' = listeners s'.
Proof.
  intros Hopt s'. unfold s', exec. rewrite mouseEnterHandler_opted_out by done.
  cbn [snd]. split_and!; try done.
  intros cx pe pi kids Hcx.
  change ((insertPopover cx pe pi kids (on_activeAnchor (λ _, Some this) s)).2)
    with (exec (insertPopover cx pe pi kids) (on_activeAnchor (λ _, Some this) s)).
  rewrite insertPopover_stale; [done|]. cbn. congruence.
Qed.

(** X15.  When [decodeURIComponent] throws on the fragment of the link, the
    handler (on a link that has not opted out, below the maximal depth)
    ends with that exception after it has made the link the active anchor
    and cancelled the timeouts from the depth of the link: nothing is
    fetched, no promise is pending, and no element, slot of the stack or
    listener has changed. *)
Theorem hovering_a_malformed_fragment this x y s href e :
  attrs (elem s this) !! "data-no-popover" ≠ Some "true" →
  ge (getCurrentPopoverDepth this s) MAX_POPOVER_DEPTH = false →
  link_url (elem s this) = Some href →
  decodeURIComponent (hash href) = Throw e →
  let s' := exec (mouseEnterHandler this x y) s in
  (mouseEnterHandler this x y s).1 = Throw e ∧
  activeAnchor s' = Some this ∧
  (∀ k, hideTimeouts s' !! k
        = if ge k (getCurrentPopoverDepth this s) then None else hideTimeouts s !! k) ∧
  fetch_log s' = fetch_log s ∧ tasks s' = tasks s ∧
  heap s' = heap s ∧ document s' = document s ∧
  activePopoverStack s' = activePopoverStack s ∧ listeners s' = listeners s.
Proof.
  intros Hopt Hge Hhref Hdecode s'. unfold s', exec.
  rewrite mouseEnterHandler_hover by done. cbv zeta. rewrite Hhref, Hdecode.
  cbn [fst snd]. split_and!; try done.
  intros k. apply (cancelled_registry _ (on_activeAnchor (λ _, Some this) s)).
Qed.

(** X16.  A pointer-enter on a link (not opted out, below the maximal
    depth, with an [href] that parses and a fragment that decodes) for whose
    path the document holds no popover ends normally with one call of
    [fetchCanonical], for the URL of the link without its query and
    fragment, and with one pending promise for it; the link is the active
    anchor; nothing is shown: no element, no slot of the stack and no
    listener changes before the fetch settles. *)
Theorem hovering_a_new_link this x y s href frag :
  attrs (elem s this) !! "data-no-popover" ≠ Some "true" →
  ge (getCurrentPopoverDepth this s) MAX_POPOVER_DEPTH = false →
  link_url (elem s this) = Some href →
  decodeURIComponent (hash href) = Ok frag →
  getElementById ("popover-" +:+ pathname href) s = None →
  let s' := exec (mouseEnterHandler this x y) s in
  (mouseEnterHandler this x y s).1 = Ok tt ∧
  activeAnchor s' = Some this ∧
  fetch_log s' = fetch_log s ++ [Url (origin href) (pathname href) "" ""] ∧
  (∃ cx, tasks s' = tasks s ++ [AwaitFetch cx] ∧
         link cx = this ∧ clientX cx = x ∧ clientY cx = y ∧
         currentDepth cx = getCurrentPopoverDepth this s ∧ fragment cx = frag ∧
         targetUrl cx = Url (origin href) (pathname href) "" "" ∧
         popoverId cx = "popover-" +:+ pathname href) ∧
  heap s' = heap s ∧ document s' = document s ∧
  activePopoverStack s' = activePopoverStack s ∧ listeners s' = listeners s.
Proof.
  intros Hopt Hge Hhref Hdecode Hnone s'. unfold s', exec.
  rewrite mouseEnterHandler_hover by done. cbv zeta. rewrite Hhref, Hdecode, Hnone.
  cbn [fst snd]. split_and!; try done. eexists. split; [reflexivity|]. done.
Qed.

(** X27.  A pointer-enter on a link (not opted out, below the maximal
    depth) whose [href] is missing or is not a URL ends with the [TypeError]
    of [new URL], after it has made the link the active anchor and cancelled
    the timeouts from the depth of the link: nothing is fetched, no promise
    is pending, and no element, slot of the stack or listener has changed. *)
Theorem hovering_a_link_without_url this x y s :
  attrs (elem s this) !! "data-no-popover" ≠ Some "true" →
  ge (getCurrentPopoverDepth this s) MAX_POPOVER_DEPTH = false →
  link_url (elem s this) = None →
  let s' := exec (mouseEnterHandler this x y) s in
  (mouseEnterHandler this x y s).1 = Throw TypeError ∧
  activeAnchor s' = Some this ∧
  (∀ k, hideTimeouts s' !! k
        = if ge k (getCurrentPopoverDepth this s) then None else hideTimeouts s !! k) ∧
  fetch_log s' = fetch_log s ∧ tasks s' = tasks s ∧
  heap s' = heap s ∧ document s' = document s ∧
  activePopoverStack s' = activePopoverStack s ∧ listeners s' = listeners s.
Proof.
  intros Hopt Hge Hhref s'. unfold s', exec.
  rewrite mouseEnterHandler_hover by done. cbv zeta. rewrite Hhref.
  cbn [fst snd]. split_and!; try done.
  intros k. apply (cancelled_registry _ (on_activeAnchor (λ _, Some this) s)).
Qed.

(** ** A response that is not read as text *)

Lemma afterFetch_run cx header s :
  let contentType := hd "" (split ";" header) in
  let contentTypeCategory := hd "" (split "/" contentType) in
  let typeInfo := split "/" contentType !! 1%nat in
  let pe := fresh (dom (heap s)) in
  let h1 := alter (class_add "popover") pe
              (alter (setAttribute "id" (popoverId cx)) pe (<[pe := blank "div"]> (heap s))) in
  let pi := fresh (dom h1) in
  let h2 := alter (setAttribute "data-content-type" contentType) pi
              (alter (class_add "popover-inner") pi (<[pi := blank "div"]> h1)) in
  let media := fresh (dom h2) in
  afterFetch cx (Some header) s
  = if decide (contentTypeCategory = "image") then
      insertPopover cx pe pi [Node media []]
        (on_heap (λ _, alter (setAttribute "alt" (pathname (targetUrl cx))) media
                         (alter (setAttribute "src" (url_toString (targetUrl cx))) media
                            (<[media := blank "img"]> h2))) s)
    else if decide (contentTypeCategory = "application") then
      if decide (typeInfo = Some "pdf") then
        insertPopover cx pe pi [Node media []]
          (on_heap (λ _, alter (setAttribute "src" (url_toString (targetUrl cx))) media
                           (<[media := blank "iframe"]> h2)) s)
      else insertPopover cx pe pi [] (on_heap (λ _, h2) s)
    else (Ok tt, on_tasks (λ ts, ts ++ [AwaitText cx pe pi]) (on_heap (λ _, h2) s)).
Proof.
  cbv zeta. unfold afterFetch. cbv zeta.
  rewrite run_createElement, !run_update, run_createElement, !run_update.
  destruct (decide _); [by rewrite run_createElement, !run_update|].
  destruct (decide _); [|done].
  destruct (decide _); [by rewrite run_createElement, !run_update | done].
Qed.

Lemma created_lookup (f g : element → element) n e (h : gmap nid element) :
  alter f n (alter g n (<[n := e]> h)) !! n = Some (f (g e)).
Proof. by rewrite !lookup_alter_eq, lookup_insert_eq. Qed.

Lemma created_subseteq (f g : element → element) n e (h : gmap nid element) :
  h !! n = None → h ⊆ alter f n (alter g n (<[n := e]> h)).
Proof. intros Hn. do 2 (apply alter_new_subseteq; [done|]). by apply insert_subseteq. Qed.

Lemma fresh_lookup (h : gmap nid element) : h !! fresh (dom h) = None.
Proof. apply not_elem_of_dom, is_fresh. Qed.

(** X17.  What the handler does with a response that it does not read as
    text.  For a content type of the category [image] it creates the popover
    element (a [div] with the id and the class [popover]), the inner
    container (a [div] with the class [popover-inner] and the content type)
    and an [img] whose [src] is the target URL and whose [alt] is its path,
    and goes on to the insertion with the [img] as the only child of the
    container.  For [application/pdf] the child is an [iframe] with that
    [src].  For every other content type of the category [application] the
    container gets no child, and the insertion goes on with an empty
    popover.  The three elements are new objects, and no element of the page
    changes before the insertion.  A fetch that failed ends the handler with
    the state as it is. *)
Theorem media_preview cx header s :
  let contentType := hd "" (split ";" header) in
  let contentTypeCategory := hd "" (split "/" contentType) in
  let typeInfo := split "/" contentType !! 1%nat in
  let popoverElement :=
    class_add "popover" (setAttribute "id" (popoverId cx) (blank "div")) in
  let popoverInner :=
    setAttribute "data-content-type" contentType (class_add "popover-inner" (blank "div")) in
  let src := setAttribute "src" (url_toString (targetUrl cx)) in
  afterFetch cx None s = (Ok tt, s) ∧
  (contentTypeCategory = "image" →
   ∃ pe pi img h,
     afterFetch cx (Some header) s
     = insertPopover cx pe pi [Node img []] (on_heap (λ _, h) s) ∧
     heap s ⊆ h ∧ heap s !! pe = None ∧ heap s !! pi = None ∧ heap s !! img = None ∧
     h !! pe = Some popoverElement ∧ h !! pi = Some popoverInner ∧
     h !! img = Some (setAttribute "alt" (pathname (targetUrl cx)) (src (blank "img")))) ∧
  (contentTypeCategory = "application" → typeInfo = Some "pdf" →
   ∃ pe pi pdf h,
     afterFetch cx (Some header) s
     = insertPopover cx pe pi [Node pdf []] (on_heap (λ _, h) s) ∧
     heap s ⊆ h ∧ heap s !! pe = None ∧ heap s !! pi = None ∧ heap s !! pdf = None ∧
     h !! pe = Some popoverElement ∧ h !! pi = Some popoverInner ∧
     h !! pdf = Some (src (blank "iframe"))) ∧
  (contentTypeCategory = "application" → typeInfo ≠ Some "pdf" →
   ∃ pe pi h,
     afterFetch cx (Some header) s = insertPopover cx pe pi [] (on_heap (λ _, h) s) ∧
     heap s ⊆ h ∧ heap s !! pe = None ∧ heap s !! pi = None ∧
     h !! pe = Some popoverElement ∧ h !! pi = Some popoverInner).
Proof.
  intros contentType contentTypeCategory typeInfo popoverElement popoverInner src.
  pose proof (afterFetch_run cx header s) as Hrun. cbv zeta in Hrun.
  fold contentType contentTypeCategory typeInfo in Hrun.
  set (pe := fresh (dom (heap s))) in *.
  set (h1 := alter (class_add "popover") pe
               (alter (setAttribute "id" (popoverId cx)) pe (<[pe := blank "div"]> (heap s))))
    in *.
  set (pi := fresh (dom h1)) in *.
  set (h2 := alter (setAttribute "data-content-type" contentType) pi
               (alter (class_add "popover-inner") pi (<[pi := blank "div"]> h1))) in *.
  set (media := fresh (dom h2)) in *.
  assert (heap s !! pe = None) as Hpe by apply fresh_lookup.
  assert (h1 !! pi = None) as Hpi by apply fresh_lookup.
  assert (h2 !! media = None) as Hmedia by apply fresh_lookup.
  assert (heap s ⊆ h1) as Hsub1 by (by apply created_subseteq).
  assert (h1 ⊆ h2) as Hsub2 by (by apply created_subseteq).
  assert (heap s ⊆ h2) as Hsub by (etrans; [exact Hsub1 | exact Hsub2]).
  assert (h1 !! pe = Some popoverElement) as Hpe1 by apply created_lookup.
  assert (h2 !! pe = Some popoverElement) as Hpe2
    by (eapply lookup_weaken; [exact Hpe1 | exact Hsub2]).
  assert (h2 !! pi = Some popoverInner) as Hpi2 by apply created_lookup.
  assert (heap s !! pi = None) as Hpi0
    by (eapply lookup_weaken_None; [exact Hpi | exact Hsub1]).
  assert (heap s !! media = None) as Hmedia0
    by (eapply lookup_weaken_None; [exact Hmedia | exact Hsub]).
  assert (∀ h3, h2 ⊆ h3 →
            heap s ⊆ h3 ∧ h3 !! pe = Some popoverElement ∧ h3 !! pi = Some popoverInner)
    as Hh3.
  { intros h3 Hsub3. split_and!.
    - etrans; [exact Hsub | exact Hsub3].
    - eapply lookup_weaken; [exact Hpe2 | exact Hsub3].
    - eapply lookup_weaken; [exact Hpi2 | exact Hsub3]. }
  split_and!.
  - done.
  - intros Himg. rewrite decide_True in Hrun by done.
    destruct (Hh3 (alter (setAttribute "alt" (pathname (targetUrl cx))) media
                     (alter src media (<[media := blank "img"]> h2))))
      as (? & ? & ?); [by apply created_subseteq|].
    eexists pe, pi, media, _. split; [exact Hrun|].
    split_and!; [done..|]. apply created_lookup.
  - intros Happ Hpdf.
    rewrite decide_False in Hrun by (rewrite Happ; done).
    rewrite decide_True in Hrun by done. rewrite decide_True in Hrun by done.
    destruct (Hh3 (alter src media (<[media := blank "iframe"]> h2))) as (? & ? & ?);
      [apply alter_new_subseteq; [exact Hmedia|]; by apply insert_subseteq|].
    eexists pe, pi, media, _. split; [exact Hrun|].
    split_and!; [done..|]. by rewrite lookup_alter_eq, lookup_insert_eq.
  - intros Happ Hpdf.
    rewrite decide_False in Hrun by (rewrite Happ; done).
    rewrite decide_True in Hrun by done. rewrite decide_False in Hrun by done.
    eexists pe, pi, h2. done.
Qed.

(** ** The listeners after the teardown *)

Lemma unbind_loop_exact (links : list nid) s :
  ∃ ls, forEach (λ link : nid,
                   modify (on_listeners (λ ls, ls ∖ {[ (link, MouseEnterHandler) ]})))
                links s
        = (Ok tt, on_listeners (λ _, ls) s) ∧
        ∀ x, x ∈ ls ↔ x ∈ listeners s ∧ ¬ ∃ link, link ∈ links ∧ x = (link, MouseEnterHandler).
Proof.
  revert s. induction links as [|l links IH]; intros s.
  - exists (listeners s). split; [by destruct s|]. intros x. split; [|by intros [? _]].
    intros Hx. split; [done|]. by intros (link & Hl%elem_of_nil & _).
  - cbn [forEach]. rewrite run_modify.
    destruct (IH (on_listeners (λ ls, ls ∖ {[ (l, MouseEnterHandler) ]}) s))
      as (ls & Hls & Hchar).
    exists ls. split; [by rewrite Hls|]. intros x. rewrite Hchar. cbn.
    rewrite elem_of_difference, elem_of_singleton. split.
    + intros [[Hx Hne] Hnot]. split; [done|]. intros (link & Hl & ->).
      apply elem_of_cons in Hl as [-> |Hl]; [done|]. apply Hnot. by exists link.
    + intros [Hx Hnot]. split_and!; [done| |].
      * intros ->. apply Hnot. exists l. split; [by left | done].
      * intros (link & Hl & ->). apply Hnot. exists link. split; [by right | done].
Qed.

Lemma teardown_loop_exact (l : list nid) s :
  ∃ ls,
    forEach (λ popover : nid,
               s ← get;
               match popoverListenersAttached s !! popover with
               | Some attachedLinks =>
                   forEach (λ link : nid,
                              modify (on_listeners (λ ls, ls ∖ {[ (link, MouseEnterHandler) ]})))
                           (elements attachedLinks)
               | None => mret tt
               end ;;
               modify (on_document (remove popover))) l s
    = (Ok tt, on_listeners (λ _, ls) (on_document (λ d, foldl (λ d p, remove p d) d l) s)) ∧
    ∀ x, x ∈ ls ↔
         x ∈ listeners s ∧
         ¬ ∃ p A link, p ∈ l ∧ popoverListenersAttached s !! p = Some A ∧ link ∈ A ∧
                       x = (link, MouseEnterHandler).
Proof.
  revert s. induction l as [|p l IH]; intros s.
  - exists (listeners s). split; [by destruct s|]. intros x. split; [|by intros [? _]].
    intros Hx. split; [done|]. by intros (q & A & link & Hq%elem_of_nil & _).
  - cbn [forEach]. rewrite run_bind, run_get.
    destruct (popoverListenersAttached s !! p) as [A|] eqn:HA.
    + destruct (unbind_loop_exact (elements A) s) as (ls1 & Hls1 & Hchar1).
      rewrite (run_bind_ok _ _ _ _ _ Hls1). unfold modify at 1.
      destruct (IH (on_document (remove p) (on_listeners (λ _, ls1) s)))
        as (ls & Hls & Hchar).
      exists ls. split; [by rewrite Hls|]. intros x. rewrite Hchar. cbn. rewrite Hchar1.
      split.
      * intros [[Hx Hnot1] Hnot]. split; [done|]. intros (q & B & link & Hq & HB & Hl & ->).
        apply elem_of_cons in Hq as [-> |Hq].
        -- apply Hnot1. exists link. split; [|done]. apply elem_of_elements. congruence.
        -- apply Hnot. by exists q, B, link.
      * intros [Hx Hnot]. split_and!; [done| |].
        -- intros (link & Hl & ->). apply elem_of_elements in Hl.
           apply Hnot. exists p, A, link. split; [by left | done].
        -- intros (q & B & link & Hq & HB & Hl & ->).
           apply Hnot. exists q, B, link. split; [by right | done].
    + destruct (IH (on_document (remove p) s)) as (ls & Hls & Hchar).
      exists ls. split.
      { rewrite run_bind. unfold mret at 1, M_ret at 1, modify at 1. exact Hls. }
      intros x. rewrite Hchar. cbn. split.
      * intros [Hx Hnot]. split; [done|]. intros (q & B & link & Hq & HB & Hl & ->).
        apply elem_of_cons in Hq as [-> |Hq]; [congruence|].
        apply Hnot. by exists q, B, link.
      * intros [Hx Hnot]. split; [done|]. intros (q & B & link & Hq & HB & Hl & ->).
        apply Hnot. exists q, B, link. split; [by right | done].
Qed.

Lemma teardown_run_exact s :
  ∃ ls, teardown s = (Ok tt, torn ls s) ∧
        ∀ x, x ∈ ls ↔
             x ∈ listeners s ∧
             ¬ ∃ p A link, p ∈ nodes (document s) ∧ is_popover s p ∧
                           popoverListenersAttached s !! p = Some A ∧ link ∈ A ∧
                           x = (link, MouseEnterHandler).
Proof.
  unfold teardown. rewrite run_get.
  destruct (teardown_loop_exact (filter (is_popover s) (nodes (document s))) s)
    as (ls & Hls & Hchar).
  exists ls. split.
  - rewrite (run_bind_ok _ _ _ _ _ Hls), !run_modify, run_get.
    by rewrite (run_bind_ok _ _ _ _ _ (clearTimeout_loop _ _)).
  - intros x. rewrite Hchar. split; intros [Hx Hnot]; (split; [done|]).
    + intros (p & A & link & Hp & Hpop & HA & Hl & ->). apply Hnot. exists p, A, link.
      split; [by apply list_elem_of_filter | done].
    + intros (p & A & link & Hp & HA & Hl & ->). apply Hnot. exists p, A, link.
      apply list_elem_of_filter in Hp as [? ?]. done.
Qed.

(** X18.  The teardown takes the handler off exactly the links that the
    attachment records list for the popovers of the document.  It removes
    no other listener: the leave listeners of the links and the listeners
    of the popovers stay registered, on elements that are no longer in the
    document.  The records themselves and the elements are kept. *)
Theorem teardown_unbinds_the_recorded_links s :
  let s' := exec teardown s in
  (∀ x, x ∈ listeners s' ↔
        x ∈ listeners s ∧
        ¬ ∃ p A link, p ∈ nodes (document s) ∧ is_popover s p ∧
                      popoverListenersAttached s !! p = Some A ∧ link ∈ A ∧
                      x = (link, MouseEnterHandler)) ∧
  (∀ n l, l ≠ MouseEnterHandler → (n, l) ∈ listeners s → (n, l) ∈ listeners s') ∧
  popoverListenersAttached s' = popoverListenersAttached s ∧
  heap s' = heap s.
Proof.
  intros s'. unfold s', exec. destruct (teardown_run_exact s) as (ls & -> & Hchar).
  cbn [snd]. split_and!; [exact Hchar| |done..].
  intros n l Hl Hin. apply Hchar. split; [done|].
  intros (p & A & link & _ & _ & _ & _ & [= _ ->]). done.
Qed.

(** ** The [nav] listener *)

Lemma nav_loop_exact (l : list nid) s :
  ∃ ls, forEach (λ link : nid,
                   modify (on_listeners (λ ls, ls ∪ {[ (link, MouseEnterHandler) ]})) ;;
                   modify (on_listeners (λ ls, ls ∪ {[ (link, HandleLinkLeave) ]})) ;;
                   modify (on_cleanups (λ cs, cs ++ [UnbindLink link]))) l s
        = (Ok tt, on_cleanups (λ cs, cs ++ (UnbindLink <$> l)) (on_listeners (λ _, ls) s)) ∧
        ∀ x, x ∈ ls ↔
             x ∈ listeners s ∨
             ∃ link, link ∈ l ∧ (x = (link, MouseEnterHandler) ∨ x = (link, HandleLinkLeave)).
Proof.
  revert s. induction l as [|a l IH]; intros s.
  - exists (listeners s). split.
    + destruct s. unfold on_cleanups, on_listeners. cbn. by rewrite app_nil_r.
    + intros x. split; [by left|]. by intros [?|(link & Hl%elem_of_nil & _)].
  - cbn [forEach]. erewrite run_bind_ok; [|rewrite !run_modify; reflexivity].
    edestruct IH as (ls & Hls & Hchar). exists ls. split.
    + rewrite Hls. unfold on_cleanups, on_listeners. cbn. by rewrite <- app_assoc.
    + intros x. rewrite Hchar. cbn. rewrite !elem_of_union, !elem_of_singleton. split.
      * intros [[[?| ->]| ->]|(link & Hl & Hx)]; [by left|..].
        -- right. exists a. split; [by left | by left].
        -- right. exists a. split; [by left | by right].
        -- right. exists link. split; [by right | done].
      * intros [?|(link & Hl & Hx)]; [by left; left; left|].
        apply elem_of_cons in Hl as [-> |Hl].
        -- left. destruct Hx as [-> | ->]; [left; by right | by right].
        -- right. by exists link.
Qed.

(** X19.  The [nav] listener ends normally.  It gives the handler and the
    leave listener to every internal link of the document, those inside
    popovers included, and removes no listener.  It registers one cleanup
    for each of these links, in document order, and after them the teardown.
    It changes no element, nothing of the document, the stack or the
    timeouts: a popover that is shown stays shown. *)
Theorem nav_binds_the_links s :
  let s' := exec onNav s in
  let links := filter (is_internal_link s) (nodes (document s)) in
  (onNav s).1 = Ok tt ∧
  (∀ x, x ∈ listeners s' ↔
        x ∈ listeners s ∨
        ∃ link, link ∈ nodes (document s) ∧ is_internal_link s link ∧
                (x = (link, MouseEnterHandler) ∨ x = (link, HandleLinkLeave))) ∧
  cleanups s' = cleanups s ++ (UnbindLink <$> links) ++ [Teardown] ∧
  heap s' = heap s ∧ document s' = document s ∧
  activePopoverStack s' = activePopoverStack s ∧ activeAnchor s' = activeAnchor s ∧
  timers s' = timers s ∧ hideTimeouts s' = hideTimeouts s.
Proof.
  intros s' links. unfold s', exec, onNav. rewrite run_get. fold links.
  destruct (nav_loop_exact links s) as (ls & Hls & Hchar).
  rewrite (run_bind_ok _ _ _ _ _ Hls). cbn [fst snd modify].
  split_and!; try done.
  - intros x. cbn. rewrite Hchar. split.
    + intros [?|(link & Hl & Hx)]; [by left|]. right. exists link.
      apply list_elem_of_filter in Hl as [? ?]. done.
    + intros [?|(link & Hl & Hlink & Hx)]; [by left|]. right. exists link.
      split; [by apply list_elem_of_filter | done].
  - cbn. by rewrite <- app_assoc.
Qed.

(** ** Running the cleanups *)

Lemma runCleanup_listeners c s : listeners (exec (runCleanup c) s) ⊆ listeners s.
Proof.
  destruct c as [l|]; unfold exec; cbn [runCleanup].
  - rewrite !run_modify. cbn. intros x Hx.
    apply elem_of_difference in Hx as [Hx _]. by apply elem_of_difference in Hx as [Hx _].
  - destruct (teardown_run_exact s) as (ls & -> & Hchar). cbn. intros x Hx.
    by apply Hchar in Hx as [? _].
Qed.

Lemma cleanups_listeners cs s :
  listeners (foldl (λ s c, exec (runCleanup c) s) s cs) ⊆ listeners s.
Proof.
  revert s. induction cs as [|c cs IH]; intros s; [done|]. cbn [foldl].
  etrans; [apply IH | apply runCleanup_listeners].
Qed.

Lemma cleanups_unbind cs s l :
  UnbindLink l ∈ cs →
  ((l, MouseEnterHandler) ∉ listeners (foldl (λ s c, exec (runCleanup c) s) s cs)) ∧
  ((l, HandleLinkLeave) ∉ listeners (foldl (λ s c, exec (runCleanup c) s) s cs)).
Proof.
  revert s. induction cs as [|c cs IH]; intros s Hin; [by apply elem_of_nil in Hin|].
  cbn [foldl]. apply elem_of_cons in Hin as [<- |Hin]; [|by apply IH].
  pose proof (cleanups_listeners cs (exec (runCleanup (UnbindLink l)) s)) as Hsub.
  assert (((l, MouseEnterHandler) ∉ listeners (exec (runCleanup (UnbindLink l)) s)) ∧
          ((l, HandleLinkLeave) ∉ listeners (exec (runCleanup (UnbindLink l)) s)))
    as [Hgone1 Hgone2].
  { unfold exec. cbn [runCleanup]. rewrite !run_modify. cbn.
    split; intros Hx; apply elem_of_difference in Hx as [Hx Hx2].
    - apply elem_of_difference in Hx as [_ Hx]. apply Hx. by apply elem_of_singleton.
    - apply Hx2. by apply elem_of_singleton. }
  split; intros Hx; apply Hsub in Hx; done.
Qed.

(** ** Code that leaves a part of the state alone *)

Lemma querySelector_keeps (I : state → Prop) inner selector :
  preserves I (querySelector inner selector).
Proof. intros s Hs. unfold querySelector. by destruct (id_selector selector). Qed.

Lemma adoptDocument_keeps (I : state → Prop) t :
  (∀ h s, I s → I (on_heap (λ _, h) s)) → preserves I (adoptDocument t).
Proof.
  intros Hheap s Hs. unfold adoptDocument. destruct (adopt t (heap s)) as [d0 h0].
  by apply Hheap.
Qed.

Ltac keeps_leaf :=
  let s := fresh "s" in let Hs := fresh "Hs" in intros s Hs; exact Hs.

Ltac keeps_step :=
  lazymatch goal with
  | |- preserves _ (mbind _ _) => apply preserves_bind; [|intros ?]
  | |- preserves _ (mret _) => apply preserves_ret
  | |- preserves _ get => apply preserves_get
  | |- preserves _ (throw _) => apply preserves_throw
  | |- preserves _ (forEach _ _) => apply preserves_forEach; intros ?
  | |- preserves _ (modify _) => keeps_leaf
  | |- preserves _ (update _ _) => keeps_leaf
  | |- preserves _ (setPosition _ _) => keeps_leaf
  | |- preserves _ (clearTimeout _) => keeps_leaf
  | |- preserves _ (setTimeout _) => keeps_leaf
  | |- preserves _ (createElement _) => keeps_leaf
  | |- preserves _ (querySelector _ _) => apply querySelector_keeps
  | |- preserves _ (adoptDocument _) => apply adoptDocument_keeps; intros ? ? ?; assumption
  | |- preserves _ (match ?x with _ => _ end) => destruct x
  end.

Ltac unfold_script :=
  unfold mouseEnterHandler, popoverMouseEnter, popoverMouseLeave, handleLinkLeave,
    afterFetch, afterText, insertPopover, showPopover, attachPopoverListeners,
    hideTimeoutFires, clearDeeperPopovers, cancelHideTimeoutsFromDepth,
    scheduleHideAtDepth, afterPosition, onNav, runCleanup, teardown;
  cbv zeta.

(** ** One turn, for a property that every listener keeps *)

Lemma turn_preserves (I : state → Prop) :
  (∀ f s, I s → I (on_tasks f s)) →
  (∀ f s, I s → I (on_cleanups f s)) →
  (∀ this x y, preserves I (mouseEnterHandler this x y)) →
  (∀ p, preserves I (popoverMouseEnter p)) →
  (∀ p related, preserves I (popoverMouseLeave p related)) →
  (∀ this related, preserves I (handleLinkLeave this related)) →
  (∀ cx response, preserves I (afterFetch cx response)) →
  (∀ cx pe pi contents, preserves I (afterText cx pe pi contents)) →
  (∀ p x y, preserves I (afterPosition p x y)) →
  (∀ id, preserves I (hideTimeoutFires id)) →
  preserves I onNav →
  (∀ c, preserves I (runCleanup c)) →
  ∀ e s, I s → I (turn e s).
Proof.
  intros Htasks Hcleanups Henter Hpenter Hpleave Hleave Hfetch Htext Hpos Hfire Hnav Hclean.
  intros e s Hs.
  destruct e as [target x y|target related|i response|i contents|i x y|id| |]; cbn [turn].
  - apply preserves_exec.
    { destruct (registered s target PopoverMouseEnter); cbn;
        [apply Hpenter | apply preserves_ret]. }
    apply preserves_exec; [|done].
    destruct (registered s target MouseEnterHandler); cbn;
      [apply Henter | apply preserves_ret].
  - apply preserves_exec.
    { destruct (registered s target PopoverMouseLeave); cbn;
        [apply Hpleave | apply preserves_ret]. }
    apply preserves_exec; [|done].
    destruct (registered s target HandleLinkLeave); cbn;
      [apply Hleave | apply preserves_ret].
  - destruct (tasks s !! i) as [[cx|cx pe pi|cx pe]|]; try done.
    apply preserves_exec; [apply Hfetch | by apply Htasks].
  - destruct (tasks s !! i) as [[cx|cx pe pi|cx pe]|]; try done.
    apply preserves_exec; [apply Htext | by apply Htasks].
  - destruct (tasks s !! i) as [[cx|cx pe pi|cx pe]|]; try done.
    apply preserves_exec; [apply Hpos | by apply Htasks].
  - by apply Hfire.
  - by apply Hnav.
  - assert (I (on_cleanups (λ _, []) s)) as Hs' by (by apply Hcleanups).
    revert Hs'. generalize (on_cleanups (λ _, []) s). clear Hs.
    induction (cleanups s) as [|c cs IH]; intros s0 Hs0; [done|].
    cbn. apply IH. by apply Hclean.
Qed.

(** ** The URLs that are fetched *)

Ltac fetch_step :=
  first
    [ keeps_step
    | lazymatch goal with
      | |- preserves _ (modify (on_fetch_log _)) =>
          let s := fresh "s" in let Hs := fresh "Hs" in
          intros s Hs; apply Forall_app; split; [exact Hs | by repeat constructor]
      end ].

Lemma mouseEnterHandler_bare this x y : preserves fetched_bare (mouseEnterHandler this x y).
Proof. unfold_script. repeat fetch_step. Qed.

(** X24.  At every point of every run, every URL that the script has given
    to [fetchCanonical] is without query and without fragment. *)
Theorem fetches_are_bare h d b es :
  let s := run es (loaded h d b) in
  ∀ u, u ∈ fetch_log s → search u = "" ∧ hash u = "".
Proof.
  intros s. apply Forall_forall. change (fetched_bare s). unfold s. clear s.
  assert (∀ e s, fetched_bare s → fetched_bare (turn e s)) as Hturn.
  { apply turn_preserves;
      [intros f s Hs; exact Hs | intros f s Hs; exact Hs | apply mouseEnterHandler_bare
      | intros; unfold_script; repeat keeps_step ..]. }
  assert (∀ es s, fetched_bare s → fetched_bare (run es s)) as Hrun.
  { intros es'. induction es' as [|e es' IH]; intros s Hs; [exact Hs|].
    cbn. apply IH. by apply Hturn. }
  apply Hrun. by constructor.
Qed.

Lemma run_preserves (I : state → Prop) :
  (∀ e s, I s → I (turn e s)) → ∀ es s, I s → I (run es s).
Proof.
  intros Hturn es. induction es as [|e es IH]; intros s Hs; [exact Hs|].
  cbn. apply IH. by apply Hturn.
Qed.

(** ** The depths at any point of a run *)

(** X21.  At every point of every run, every pending hide timeout is for
    the depth 0, 1 or 2; every popover that has its [mouseleave] listener
    carries such a depth in its depth attribute, which [getPopoverDepth]
    reads back; and every fetch that is awaited was started for a link
    below the maximal depth. *)
Theorem depths_are_below_the_maximum h d b es :
  let s := run es (loaded h d b) in
  (∀ id depth, timers s !! id = Some depth → ∃ z, depth = Int z ∧ 0 ≤ z < 3) ∧
  (∀ p, (p, PopoverMouseLeave) ∈ listeners s →
        ∃ z, 0 ≤ z < 3 ∧ dataset_depth s p = Some (toString (Int z)) ∧
             getPopoverDepth p s = Int z) ∧
  (∀ cx, AwaitFetch cx ∈ tasks s → ge (currentDepth cx) MAX_POPOVER_DEPTH = false).
Proof.
  intros s. destruct (reachable_valid h d b es) as (Htimers & Hhooks & Htasks).
  fold s in Htimers, Hhooks, Htasks. split_and!.
  - exact Htimers.
  - intros p Hp. destruct (Hhooks p Hp) as (z & Hz & Hd). exists z.
    split; [done|]. split; [done | by apply getPopoverDepth_written].
  - intros cx Hcx. eapply Forall_forall in Htasks; [|exact Hcx]. exact Htasks.
Qed.

(** ** The registry mirrors the pending timeouts *)

Lemma registry_mirrors_view s s' :
  timer_view s' = timer_view s → registry_mirrors s → registry_mirrors s'.
Proof.
  unfold timer_view, registry_mirrors, timers_registered, registry_exact.
  intros [= -> -> ->]. done.
Qed.

Lemma cancelled_mirrors depth s : registry_mirrors s → registry_mirrors (cancelled depth s).
Proof.
  intros [Hreg Hex]. split; [by apply cancelled_registered|].
  destruct Hreg as (_ & _ & _ & Hsame).
  intros k id. rewrite cancelled_registry. destruct (ge k depth) eqn:Hge; [done|].
  intros Hk. rewrite cancelled_timers_miss; [by apply Hex|].
  intros k' Hk'. by rewrite (Hsame k' id k Hk' (Hex _ _ Hk)) in Hge.
Qed.

Lemma scheduled_mirrors depth s : registry_mirrors s → registry_mirrors (scheduled depth s).
Proof.
  intros [Hreg Hex]. split; [by apply scheduled_registered|].
  destruct Hreg as (_ & _ & Hstale & _).
  intros k id. cbn. destruct (decide (depth = k)) as [->|Hne].
  - rewrite lookup_insert_eq. intros [= <-]. apply lookup_insert_eq.
  - rewrite lookup_insert_ne by done. intros Hk.
    assert (id ≠ next_timer s) as Hid by (apply Hstale in Hk; lia).
    rewrite lookup_insert_ne by done.
    destruct (hideTimeouts s !! depth) as [existing|] eqn:He; [|by apply Hex].
    rewrite lookup_delete_ne; [by apply Hex|].
    intros ->. apply Hex in He, Hk. congruence.
Qed.

Lemma cancel_mirrors depth : preserves registry_mirrors (cancelHideTimeoutsFromDepth depth).
Proof. intros s Hs. rewrite cancel_run. by apply cancelled_mirrors. Qed.

Lemma schedule_mirrors depth : preserves registry_mirrors (scheduleHideAtDepth depth).
Proof. intros s Hs. rewrite schedule_run. by apply scheduled_mirrors. Qed.

Lemma teardown_mirrors : preserves registry_mirrors teardown.
Proof.
  intros s [Hs _]. destruct (teardown_run s) as [ls ->].
  split; [by apply torn_registered|]. intros k id. cbn. by rewrite lookup_empty.
Qed.

Lemma fire_mirrors id s :
  depths_valid s → registry_mirrors s → registry_mirrors (exec (hideTimeoutFires id) s).
Proof.
  intros (Hdepths & _) [Hreg Hex]. split; [by apply fire_preserves|].
  destruct (timers s !! id) as [depth|] eqn:Hid.
  - destruct (Hdepths id depth Hid) as (K & -> & HK).
    unfold exec. rewrite (fire_run id K s Hid) by lia. cbn [snd].
    intros k id'. cbn. destruct (decide (Int K = k)) as [<-|Hne].
    + by rewrite lookup_delete_eq.
    + rewrite lookup_delete_ne by done. intros Hk. apply Hex in Hk as Hid'.
      rewrite lookup_delete_ne; [done|]. intros <-. congruence.
  - unfold exec, hideTimeoutFires. rewrite run_get, Hid. done.
Qed.

Ltac mirrors_step :=
  first
    [ apply cancel_mirrors | apply schedule_mirrors | apply teardown_mirrors
    | apply (clearDeeperPopovers_frame _ registry_mirrors_view)
    | apply (showPopover_frame _ registry_mirrors_view)
    | apply (attachPopoverListeners_frame _ registry_mirrors_view)
    | apply (afterFetch_frame _ registry_mirrors_view)
    | apply (afterText_frame _ registry_mirrors_view)
    | apply (afterPosition_frame _ registry_mirrors_view)
    | apply (onNav_frame _ registry_mirrors_view)
    | lazymatch goal with
      | |- preserves _ (mbind _ _) => apply preserves_bind; [|intros ?]
      | |- preserves _ (mret _) => apply preserves_ret
      | |- preserves _ get => apply preserves_get
      | |- preserves _ (throw _) => apply preserves_throw
      | |- preserves _ (modify _) => apply preserves_modify; intros ? ?; assumption
      | |- preserves _ (match ?x with _ => _ end) => destruct x
      end ].

Lemma turn_mirrors e s : depths_valid s → registry_mirrors s → registry_mirrors (turn e s).
Proof.
  intros Hvalid Hs.
  destruct e as [target x y|target related|i response|i contents|i x y|id| |]; cbn [turn].
  - apply preserves_exec.
    { destruct (registered s target PopoverMouseEnter); cbn;
        [unfold popoverMouseEnter; cbv zeta; repeat mirrors_step | apply preserves_ret]. }
    apply preserves_exec; [|done].
    destruct (registered s target MouseEnterHandler); cbn;
      [unfold mouseEnterHandler; cbv zeta; repeat mirrors_step | apply preserves_ret].
  - apply preserves_exec.
    { destruct (registered s target PopoverMouseLeave); cbn;
        [unfold popoverMouseLeave; cbv zeta; repeat mirrors_step | apply preserves_ret]. }
    apply preserves_exec; [|done].
    destruct (registered s target HandleLinkLeave); cbn;
      [unfold handleLinkLeave; repeat mirrors_step | apply preserves_ret].
  - destruct (tasks s !! i) as [[cx|cx pe pi|cx pe]|]; try done.
    apply preserves_exec; [mirrors_step | done].
  - destruct (tasks s !! i) as [[cx|cx pe pi|cx pe]|]; try done.
    apply preserves_exec; [mirrors_step | done].
  - by destruct (tasks s !! i) as [[cx|cx pe pi|cx pe]|].
  - by apply fire_mirrors.
  - apply preserves_exec; [mirrors_step | done].
  - assert (registry_mirrors (on_cleanups (λ _, []) s)) as Hs' by done.
    revert Hs'. generalize (on_cleanups (λ _, []) s). clear Hs.
    induction (cleanups s) as [|c cs IH]; intros s0 Hs0; [done|].
    cbn. apply IH. apply preserves_exec; [|done].
    destruct c; cbn [runCleanup]; repeat mirrors_step.
Qed.

Lemma loaded_mirrors h d b : registry_mirrors (loaded h d b).
Proof. split; [apply loaded_registered|]. intros k id. cbn. by rewrite lookup_empty. Qed.


(** X22.  At every point of every run the registry and the pending
    timeouts mirror each other: the registry holds a timeout under a depth
    exactly when that timeout is pending with a callback for that depth.  So
    the registry never keeps a timeout that has expired or was cancelled,
    and no hide timeout is pending outside the registry. *)
Theorem registry_mirrors_the_timers h d b es :
  let s := run es (loaded h d b) in
  ∀ depth id, hideTimeouts s !! depth = Some id ↔ timers s !! id = Some depth.
Proof.
  intros s.
  assert (depths_valid s ∧ registry_mirrors s) as [_ [(Hreg & _) Hex]].
  { unfold s. apply (run_preserves (λ s, depths_valid s ∧ registry_mirrors s)).
    - intros e s0 [? ?]. split; [by apply turn_valid | by apply turn_mirrors].
    - split; [apply loaded_valid | apply loaded_mirrors]. }
  intros depth id. split; [apply Hex | apply Hreg].
Qed.

(** ** The length of the stack *)

Lemma clearDeeperPopovers_bounded keepDepth :
  (∀ z, keepDepth = Int z → z ≤ 3) →
  preserves stack_bounded (clearDeeperPopovers keepDepth).
Proof.
  intros Hk s Hs. destruct keepDepth as [|z].
  - rewrite clearDeeperPopovers_throws by (by left). exact Hs.
  - destruct (decide (0 ≤ z < 2 ^ 32)) as [Hz|Hz].
    + rewrite clearDeeperPopovers_run by done. unfold stack_bounded. cbn.
      rewrite length_app, length_take, length_replicate. specialize (Hk z eq_refl). lia.
    + rewrite clearDeeperPopovers_throws by (right; by exists z). exact Hs.
Qed.

Lemma showPopover_bounded cx inner p depth :
  ge depth MAX_POPOVER_DEPTH = false →
  preserves stack_bounded (showPopover cx inner p depth).
Proof.
  intros Hge s Hs.
  assert (∀ keepDepth,
            keepDepth = NaN ∨ (∃ z, keepDepth = Int z ∧ ¬ 0 ≤ z < 2 ^ 32) →
            stack_bounded (showPopover cx inner p keepDepth s).2) as Hthrows.
  { intros k Hk. unfold showPopover.
    erewrite run_bind_throw by (by apply clearDeeperPopovers_throws). exact Hs. }
  destruct depth as [|z]; [apply Hthrows; by left|].
  destruct (decide (0 ≤ z < 2 ^ 32)) as [Hz|Hz]; [|apply Hthrows; right; by exists z].
  assert (0 ≤ z < 3) as Hz3 by (cbn in Hge; apply bool_decide_eq_false in Hge; lia).
  destruct (showPopover_state cx inner p z s Hz) as (h & -> & _).
  destruct (shown_stack cx p z s Hz3) as [Hlen _].
  unfold stack_bounded. cbn [activePopoverStack on_heap]. rewrite Hlen. lia.
Qed.

Lemma insertPopover_bounded cx pe pi kids :
  ge (currentDepth cx) MAX_POPOVER_DEPTH = false →
  preserves stack_bounded (insertPopover cx pe pi kids).
Proof.
  intros Hge. unfold insertPopover, attachPopoverListeners.
  repeat first [by apply showPopover_bounded | keeps_step].
Qed.

Lemma afterFetch_bounded cx response :
  ge (currentDepth cx) MAX_POPOVER_DEPTH = false →
  preserves stack_bounded (afterFetch cx response).
Proof.
  intros Hge. unfold afterFetch. cbv zeta.
  repeat first [by apply insertPopover_bounded | keeps_step].
Qed.

Lemma afterText_bounded cx pe pi contents :
  ge (currentDepth cx) MAX_POPOVER_DEPTH = false →
  preserves stack_bounded (afterText cx pe pi contents).
Proof.
  intros Hge. unfold afterText. cbv zeta.
  repeat first [by apply insertPopover_bounded | keeps_step].
Qed.

Lemma mouseEnterHandler_bounded this x y :
  preserves stack_bounded (mouseEnterHandler this x y).
Proof.
  unfold mouseEnterHandler. cbv zeta.
  apply preserves_bind; [keeps_step|]. intros ?.
  apply preserves_bind; [keeps_step|]. intros s.
  destruct (decide _); [apply preserves_ret|].
  apply preserves_bind; [unfold cancelHideTimeoutsFromDepth; repeat keeps_step|]. intros ?.
  destruct (ge _ MAX_POPOVER_DEPTH) eqn:Hge; [apply preserves_ret|].
  unfold attachPopoverListeners.
  repeat first [by apply showPopover_bounded | keeps_step].
Qed.

Lemma popoverMouseLeave_bounded p related s :
  depth_in_range (getPopoverDepth p s) → stack_bounded s →
  stack_bounded (exec (popoverMouseLeave p related) s).
Proof.
  intros (z & Hp & Hz) Hs.
  assert (preserves stack_bounded (scheduleHideAtDepth (getPopoverDepth p s))) as Hsched
    by (unfold scheduleHideAtDepth; repeat keeps_step).
  unfold exec, popoverMouseLeave. rewrite run_get. cbv zeta.
  destruct related as [target|]; [|by apply Hsched].
  destruct (closest _ target s) as [q|]; [|destruct (closest _ target s); by apply Hsched].
  destruct (gt _ _) eqn:Hgt; [exact Hs|]. destruct (strict_eq _ _); [by apply Hsched|].
  apply clearDeeperPopovers_bounded; [|exact Hs].
  intros zq1. rewrite Hp in Hgt. destruct (getPopoverDepth q s) as [|zq]; [done|].
  cbn in Hgt. apply bool_decide_eq_false in Hgt. cbn. intros [= <-]. lia.
Qed.

Lemma fire_bounded id s :
  depths_valid s → stack_bounded s → stack_bounded (exec (hideTimeoutFires id) s).
Proof.
  intros (Hdepths & _) Hs. destruct (timers s !! id) as [depth|] eqn:Hid.
  - destruct (Hdepths id depth Hid) as (K & -> & HK).
    unfold exec. rewrite (fire_run id K s Hid) by lia. unfold stack_bounded. cbn.
    rewrite length_app, length_take, length_replicate. lia.
  - unfold exec, hideTimeoutFires. rewrite run_get, Hid. exact Hs.
Qed.

Lemma runCleanup_bounded c : preserves stack_bounded (runCleanup c).
Proof.
  destruct c as [l|]; cbn [runCleanup]; [repeat keeps_step|].
  intros s Hs. destruct (teardown_run s) as [ls ->]. unfold stack_bounded. cbn. lia.
Qed.

Lemma turn_bounded e s :
  depths_valid s → stack_bounded s → stack_bounded (turn e s).
Proof.
  intros Hvalid Hs.
  destruct e as [target x y|target related|i response|i contents|i x y|id| |]; cbn [turn].
  - apply preserves_exec.
    { destruct (registered s target PopoverMouseEnter); cbn;
        [unfold_script; repeat keeps_step | apply preserves_ret]. }
    apply preserves_exec; [|done].
    destruct (registered s target MouseEnterHandler); cbn;
      [apply mouseEnterHandler_bounded | apply preserves_ret].
  - set (s1 := exec (when (registered s target HandleLinkLeave)
                          (handleLinkLeave target related)) s).
    assert (depths_valid s1 ∧ listeners s1 = listeners s ∧ stack_bounded s1)
      as (Hvalid1 & Hls & Hs1).
    { unfold s1. destruct (registered s target HandleLinkLeave); cbn [when]; [|done].
      split_and!; [by apply handleLinkLeave_valid | apply handleLinkLeave_listeners|].
      apply preserves_exec; [|done]. unfold_script. repeat keeps_step. }
    destruct (registered s target PopoverMouseLeave) eqn:Hreg; cbn [when]; [|done].
    apply popoverMouseLeave_bounded; [|done].
    apply getPopoverDepth_in_range; [done|].
    rewrite Hls. by apply bool_decide_eq_true in Hreg.
  - destruct (tasks s !! i) as [[cx|cx pe pi|cx pe]|] eqn:Ht; try done.
    destruct (task_taken s i _ Hvalid Ht) as [_ Hok].
    apply preserves_exec; [by apply afterFetch_bounded | done].
  - destruct (tasks s !! i) as [[cx|cx pe pi|cx pe]|] eqn:Ht; try done.
    destruct (task_taken s i _ Hvalid Ht) as [_ [Hge _]].
    apply preserves_exec; [by apply afterText_bounded | done].
  - by destruct (tasks s !! i) as [[cx|cx pe pi|cx pe]|].
  - by apply fire_bounded.
  - apply preserves_exec; [unfold_script; repeat keeps_step | done].
  - assert (stack_bounded (on_cleanups (λ _, []) s)) as Hs' by done.
    revert Hs'. generalize (on_cleanups (λ _, []) s). clear Hs.
    induction (cleanups s) as [|c cs IH]; intros s0 Hs0; [done|].
    cbn. apply IH. by apply runCleanup_bounded.
Qed.

(** X23.  At every point of every run the stack is at most as long as the
    maximal depth, 3.  Clearing from a depth above the top lengthens the
    stack, and a slot is written at the depth of the link, but no depth that
    reaches these places is above 2. *)
Theorem stack_is_bounded h d b es :
  let s := run es (loaded h d b) in
  MAX_POPOVER_DEPTH = Int 3 ∧ (length (activePopoverStack s) ≤ 3)%nat.
Proof.
  intros s. split; [done|].
  assert (depths_valid s ∧ stack_bounded s) as [_ Hs]; [|exact Hs].
  unfold s. apply (run_preserves (λ s, depths_valid s ∧ stack_bounded s)).
  - intros e s0 [? ?]. split; [by apply turn_valid | by apply turn_bounded].
  - split; [apply loaded_valid|]. unfold stack_bounded. cbn. lia.
Qed.

(** ** The cleanups that the [nav] listener registered *)

Ltac cleanup_step :=
  first
    [ keeps_step
    | lazymatch goal with
      | |- preserves _ (modify (on_cleanups _)) =>
          let s := fresh "s" in let Hs := fresh "Hs" in
          intros s Hs; cbn; apply elem_of_app; by left
      end ].

Lemma turn_keeps_cleanup c e s :
  e ≠ Cleanups → c ∈ cleanups s → c ∈ cleanups (turn e s).
Proof.
  intros He Hs. change ((λ s, c ∈ cleanups s) (turn e s)).
  destruct e as [target x y|target related|i response|i contents|i x y|id| |]; cbn [turn];
    [..|done].
  - apply preserves_exec.
    { destruct (registered s target PopoverMouseEnter); cbn [when];
        unfold_script; repeat cleanup_step. }
    apply preserves_exec; [|done].
    destruct (registered s target MouseEnterHandler); cbn [when];
      unfold_script; repeat cleanup_step.
  - apply preserves_exec.
    { destruct (registered s target PopoverMouseLeave); cbn [when];
        unfold_script; repeat cleanup_step. }
    apply preserves_exec; [|done].
    destruct (registered s target HandleLinkLeave); cbn [when];
      unfold_script; repeat cleanup_step.
  - destruct (tasks s !! i) as [[cx|cx pe pi|cx pe]|]; try done.
    apply preserves_exec; [unfold_script; repeat cleanup_step | done].
  - destruct (tasks s !! i) as [[cx|cx pe pi|cx pe]|]; try done.
    apply preserves_exec; [unfold_script; repeat cleanup_step | done].
  - by destruct (tasks s !! i) as [[cx|cx pe pi|cx pe]|].
  - apply preserves_exec; [unfold_script; repeat cleanup_step | done].
  - apply preserves_exec; [unfold_script; repeat cleanup_step | done].
Qed.

(** X20.  The cleanups undo the [nav] listener.  When the cleanups are run
    after a [nav] event, whatever the script was handed in between, no
    internal link that the document had at the event carries the handler or
    the leave listener any more; and running the cleanups adds no
    listener. *)
Theorem cleanups_undo_nav s es link :
  Forall (λ e, e ≠ Cleanups) es →
  link ∈ nodes (document s) → is_internal_link s link →
  let s2 := run es (turn Nav s) in
  let s' := turn Cleanups s2 in
  ((link, MouseEnterHandler) ∉ listeners s') ∧
  ((link, HandleLinkLeave) ∉ listeners s') ∧
  listeners s' ⊆ listeners s2.
Proof.
  intros Hes Hl Hlink s2 s'.
  assert (UnbindLink link ∈ cleanups (turn Nav s)) as Hnav.
  { cbn [turn]. unfold exec, onNav. rewrite run_get.
    destruct (nav_loop_exact (filter (is_internal_link s) (nodes (document s))) s)
      as (ls & Hls & _).
    rewrite (run_bind_ok _ _ _ _ _ Hls). cbn.
    rewrite elem_of_app. left. rewrite elem_of_app. right.
    apply list_elem_of_fmap_2. by apply list_elem_of_filter. }
  assert (UnbindLink link ∈ cleanups s2) as Hin.
  { unfold s2. revert Hnav. generalize (turn Nav s).
    induction Hes as [|e es He _ IH]; intros s0 Hs0; [exact Hs0|].
    cbn. apply IH. by apply turn_keeps_cleanup. }
  destruct (cleanups_unbind (cleanups s2) (on_cleanups (λ _, []) s2) link Hin) as [H1 H2].
  split_and!; [exact H1 | exact H2|].
  apply (cleanups_listeners (cleanups s2) (on_cleanups (λ _, []) s2)).
Qed.

(** ** A preview that arrives while its link is the active anchor *)

Lemma showPopover_visible cx inner p z s :
  0 ≤ z < 2 ^ 32 → is_Some (heap s !! p) →
  visible (showPopover cx inner p (Int z) s).2 p.
Proof.
  intros Hz [e He]. destruct (showPopover_state cx inner p z s Hz) as (h & -> & Hh).
  destruct (shown_elem cx p z s e He) as [e0 He0].
  unfold visible, elem. cbn [heap on_heap]. rewrite lookup_total_alt.
  destruct (Hh p) as [->|(top & e' & He' & ->)].
  - rewrite He0. cbn. apply class_add_contains.
  - rewrite He0 in He'. injection He' as <-. cbn. apply class_add_contains.
Qed.

Lemma showPopover_plain cx inner p z s :
  0 ≤ z < 2 ^ 32 → fragment cx = "" →
  showPopover cx inner p (Int z) s = (Ok tt, shown cx p z s).
Proof.
  intros Hz Hfrag. unfold showPopover.
  rewrite (run_bind_ok _ _ _ _ _ (clearDeeperPopovers_run z s Hz)).
  rewrite !run_update. unfold setPosition. rewrite !run_modify.
  rewrite decide_False by (by rewrite Hfrag; intros ?). done.
Qed.

(** X25.  The end of the handler when the preview is still wanted: the
    document has no element with the id of the popover, and the link is
    still the active anchor, at a depth [z] from 0 to 2.  The new popover is
    appended to the body with the inner container as its only child; it is
    shown and carries the depth [z]; the stack records it at [z] and has the
    length [z + 1]; a placement is requested for it.  When the link has no
    fragment the handler also ends normally, the popover has its two
    listeners, and every internal link inside it carries the handler or was
    already in its record. *)
Theorem preview_is_shown cx pe pi kids z s :
  getElementById (popoverId cx) s = None →
  body s ∈ nodes (document s) →
  activeAnchor s = Some (link cx) →
  currentDepth cx = Int z → 0 ≤ z < 3 →
  is_Some (heap s !! pe) →
  let s' := exec (insertPopover cx pe pi kids) s in
  document s' = append_child (body s) (Node pe [Node pi kids]) (document s) ∧
  visible s' pe ∧
  dataset_depth s' pe = Some (toString (Int z)) ∧
  length (activePopoverStack s') = S (Z.to_nat z) ∧
  activePopoverStack s' !! Z.to_nat z = Some (Some pe) ∧
  tasks s' = tasks s ++ [AwaitPosition cx pe] ∧
  (fragment cx = "" →
   (insertPopover cx pe pi kids s).1 = Ok tt ∧
   (pe, PopoverMouseEnter) ∈ listeners s' ∧ (pe, PopoverMouseLeave) ∈ listeners s' ∧
   ∀ l, l ∈ descendants pe (document s') → is_internal_link s' l →
        (l, MouseEnterHandler) ∈ listeners s'
        ∨ l ∈ default ∅ (popoverListenersAttached s !! pe)).
Proof.
  intros Hnone Hbody Hanchor Hdepth Hz Hpe s'.
  set (s1 := on_document (append_child (body s) (Node pe [Node pi kids])) s).
  assert (0 ≤ z < 2 ^ 32) as Hz32 by lia.
  assert (insertPopover cx pe pi kids s
          = (showPopover cx (Some pi) pe (Int z) ;;
             attachPopoverListeners pe ;;
             modify (on_listeners (λ ls, ls ∪ {[ (pe, PopoverMouseEnter) ]})) ;;
             modify (on_listeners (λ ls, ls ∪ {[ (pe, PopoverMouseLeave) ]}))) s1) as Hrun.
  { unfold insertPopover. rewrite run_get.
    rewrite decide_False by (rewrite Hnone; by intros [? ?]).
    rewrite decide_True by done. rewrite run_modify, run_get. fold s1.
    rewrite decide_False by (cbn; rewrite Hanchor; by intros ?).
    by rewrite Hdepth. }
  pose proof (showPopover_visible cx (Some pi) pe z s1 Hz32 Hpe) as Hvisible.
  pose proof (showPopover_depth cx (Some pi) pe z s1 Hz32 Hpe) as Hattr.
  destruct (showPopover_state cx (Some pi) pe z s1 Hz32) as (h & Hstate & _).
  destruct (shown_stack cx pe z s1 Hz) as [Hlen Hslot].
  set (sS := (showPopover cx (Some pi) pe (Int z) s1).2) in *.
  assert (heap s' = heap sS ∧ document s' = document sS ∧
          activePopoverStack s' = activePopoverStack sS ∧ tasks s' = tasks sS)
    as (Hheap & Hdoc & Hstack & Htasks).
  { unfold s', exec. rewrite Hrun, run_bind. fold sS.
    destruct (showPopover cx (Some pi) pe (Int z) s1) as [[[]|e] s0] eqn:Hshow;
      [|by subst sS].
    subst sS. cbn [snd]. rewrite run_bind, attach_exact. done. }
  split_and!.
  - by rewrite Hdoc, Hstate.
  - unfold visible, elem. rewrite Hheap. exact Hvisible.
  - unfold dataset_depth, elem. rewrite Hheap. exact Hattr.
  - by rewrite Hstack, Hstate.
  - by rewrite Hstack, Hstate.
  - by rewrite Htasks, Hstate.
  - intros Hfrag. unfold s', exec. rewrite Hrun, run_bind.
    rewrite (showPopover_plain cx (Some pi) pe z s1 Hz32 Hfrag).
    rewrite run_bind, attach_exact, !run_modify. cbn [fst snd].
    split_and!; [done| | |].
    + cbn -[attached_now]. rewrite !elem_of_union, !elem_of_singleton. by left; right.
    + cbn -[attached_now]. rewrite !elem_of_union, !elem_of_singleton. by right.
    + intros l Hl Hlink. cbn -[attached_now] in *.
      rewrite !elem_of_union, elem_of_attached_now.
      destruct (decide (l ∈ default ∅ (popoverListenersAttached s !! pe))) as [?|Hnew];
        [by right|].
      left. left. left. right. exists l. split; [done|].
      split; [by apply list_elem_of_filter | done].
Qed.

(** ** The heading that the fragment names *)

Lemma id_selector_internal w :
  all_nmchar w = true →
  id_selector ("#popover-internal-" +:+ w) = Some ("popover-internal-" +:+ w).
Proof.
  intros Hw.
  assert (∀ a b, all_nmchar (a +:+ b) = all_nmchar a && all_nmchar b) as Happ.
  { intros a b. induction a as [|c a IH]; [done|].
    change (String c a +:+ b) with (String c (a +:+ b)).
    cbn [all_nmchar]. by rewrite IH, andb_assoc. }
  change ("#popover-internal-" +:+ w) with (String "#" ("popover-internal-" +:+ w)).
  unfold id_selector.
  change (css_ident ("popover-internal-" +:+ w))
    with (is_nmstart "p" && all_nmchar ("opover-internal-" +:+ w)).
  by rewrite Happ, Hw.
Qed.

(** X26.  When a new popover is shown for a link whose fragment, after the
    [#], is a plain identifier [w], the heading looked for is the first
    element below the inner container whose id is [popover-internal-] and
    [w], the id that the handler gave to the element with the id [w] of the
    fetched page.  When there is one, [showPopover] ends normally with the
    container scrolled to 12 above the offset of the heading; when there is
    none, it ends normally with nothing scrolled. *)
Theorem scrolling_to_the_heading cx inner p z w s :
  0 ≤ z < 2 ^ 32 → fragment cx ≠ "" → slice1 (fragment cx) = w → all_nmchar w = true →
  let s1 := shown cx p z s in
  showPopover cx (Some inner) p (Int z) s
  = (Ok tt,
     match list_find (has_id s1 ("popover-internal-" +:+ w))
                     (descendants inner (document s1)) with
     | Some (_, heading) =>
         on_heap (alter (set_scrollTop (offsetTop (elem s1 heading) - 12)) inner) s1
     | None => s1
     end).
Proof.
  intros Hz Hfrag Hw Hident s1. unfold showPopover.
  rewrite (run_bind_ok _ _ _ _ _ (clearDeeperPopovers_run z s Hz)).
  rewrite !run_update. unfold setPosition. rewrite !run_modify.
  change (on_activePopoverStack _ _) with (shown cx p z s). fold s1.
  rewrite decide_True by done. rewrite Hw, run_bind. unfold querySelector.
  rewrite (id_selector_internal w Hident).
  destruct (list_find _ _) as [[i heading]|]; cbn [fmap option_fmap option_map snd]; [|done].
  by rewrite run_get.
Qed.

(** ** A pointer-enter at the maximal depth *)


End Properties.

(** * The properties on the sample site *)

Import Sample.

Local Ltac by_evaluation := apply (bool_decide_unpack _); vm_compute; exact I.

(** C1, the amended claim at work: with the popover of [/page] in the
    document the end of the handler changes nothing; in [two_hovers], where
    link 4 is the active anchor, it appends the popover and stops. *)
Lemma stale_result_witness :
  is_Some (getElementById (popoverId hover2) previewed) ∧
  @insertPopover platform hover2 20 21 [] previewed = (Ok tt, previewed) ∧
  getElementById (popoverId hover2) two_hovers = None ∧
  body two_hovers ∈ nodes (document two_hovers) ∧
  activeAnchor two_hovers ≠ Some (link hover2) ∧
  @insertPopover platform hover2 6 7 [Node 8 []] two_hovers
  = (Ok tt, on_document (append_child 1%positive (Node 6 [Node 7 [Node 8 []]])) two_hovers).
Proof.
  assert (is_Some (getElementById (popoverId hover2) previewed)) as H1 by by_evaluation.
  assert (getElementById (popoverId hover2) two_hovers = None) as H2 by by_evaluation.
  assert (body two_hovers ∈ nodes (document two_hovers)) as H3 by by_evaluation.
  assert (activeAnchor two_hovers ≠ Some (link hover2)) as H4 by by_evaluation.
  exact (conj H1
           (conj (proj1 (stale_result (H:=platform) hover2 20 21 [] previewed) H1)
              (conj H2 (conj H3 (conj H4
                 (proj2 (stale_result (H:=platform) hover2 6 7 [Node 8 []] two_hovers)
                        H2 H3 H4)))))).
Defined.

(** C1 as stated fails: in [two_hovers] link 4 is the active anchor and the
    document has no popover of [/page]; when the fetch started for link 2
    settles, the popover of [/page] is in the document. *)
Lemma stale_result_counterexample :
  tasks two_hovers !! 0%nat = Some (AwaitFetch hover2) ∧
  activeAnchor two_hovers = Some 4%positive ∧
  getElementById "popover-/page" two_hovers = None ∧
  getElementById "popover-/page" late_image = Some 6%positive ∧
  document late_image ≠ document two_hovers ∧
  activePopoverStack late_image = activePopoverStack two_hovers.
Proof. split_and!; by vm_compute. Qed.

(** C2, the amended claim at work on the HTML of [/page]: the article,
    element 10, is the one element with the class [popover-hint], and it is
    appended with the headings and links below it. *)
Lemma html_preview_witness :
  hd "" (split "/" (hd "" (split ";" "text/html; charset=utf-8"))) ≠ "image" ∧
  hd "" (split "/" (hd "" (split ";" "text/html; charset=utf-8"))) ≠ "application" ∧
  ∃ kids,
    @afterText platform hover2 6 7 "page" fetched
    = @insertPopover platform hover2 6 7 kids
        (on_heap (λ _, (adopt (prefix_ids page) (heap fetched)).2) fetched) ∧
    root <$> kids = [10%positive] ∧
    nodes kids = [10; 11; 12; 13; 14; 15]%positive.
Proof.
  assert (hd "" (split "/" (hd "" (split ";" "text/html; charset=utf-8"))) ≠ "image")
    as H1 by by_evaluation.
  assert (hd "" (split "/" (hd "" (split ";" "text/html; charset=utf-8"))) ≠ "application")
    as H2 by by_evaluation.
  destruct (html_preview (H:=platform) hover2 "text/html; charset=utf-8" "page" 6 7
              fetched H1 H2) as (_ & _ & _ & _ & Hsome).
  destruct Hsome as (Hrun & Hroots & _); [by_evaluation|].
  refine (conj H1 (conj H2 (ex_intro _ _ (conj Hrun (conj _ _))))).
  - rewrite Hroots. vm_compute. reflexivity.
  - vm_compute. reflexivity.
Defined.

(** C2 as stated fails: a response of type [application/json] is neither an
    image nor a PDF; its body is not read (no text is awaited), and a
    popover with an empty inner container (elements 6 and 7) is inserted
    and shown. *)
Lemma html_preview_counterexample :
  tasks json = [AwaitPosition hover2 6%positive] ∧
  getElementById "popover-/page" json = Some 6%positive ∧
  descendants 6%positive (document json) = [7%positive] ∧
  activePopoverStack json = [Some 6%positive].
Proof. split_and!; by vm_compute. Qed.

(** C3, where the code fails.  Links 2 and 3 go to [/page#sectionA] and
    [/page#sectionB].  The first hover made the popover 6 and scrolled its
    inner container 7 to the first heading, 12 above its offset 40.  The
    second hover finds the same popover by its id, without a fetch, and
    shows it, but throws [ReferenceError] at the read of [popoverInner]:
    the container is not scrolled to the second heading (offset 120). *)
Theorem second_fragment_not_scrolled :
  scrollTop (elem previewed 7%positive) = 40 - 12 ∧
  getElementById "popover-/page" previewed = Some 6%positive ∧
  (@mouseEnterHandler platform 3%positive 3 3 previewed).1 = Throw ReferenceError ∧
  fetch_log second_fragment = fetch_log previewed ∧
  activePopoverStack second_fragment = [Some 6%positive] ∧
  offsetTop (elem second_fragment 12%positive) = 120 ∧
  attrs (elem second_fragment 12%positive) !! "id" = Some "popover-internal-sectionB" ∧
  scrollTop (elem second_fragment 7%positive) = 40 - 12.
Proof. split_and!; by vm_compute. Qed.

(** C4, where the code fails.  The popover 2 has the depth attribute [abc].
    [getPopoverDepth] reads its depth as 0.  [getCurrentPopoverDepth] gives
    [NaN], not 1, for link 3 inside it, and the hover of that link then
    throws [RangeError] when its preview is to be shown; the [mouseenter]
    listener of the popover reads [NaN] too and leaves the hide pending at
    depth 0 uncancelled. *)
Theorem malformed_depth_is_not_zero :
  dataset_depth malformed 2%positive = Some "abc" ∧
  @getPopoverDepth 2%positive malformed = Int 0 ∧
  @getCurrentPopoverDepth 3%positive malformed = NaN ∧
  tasks (exec (@mouseEnterHandler platform 3%positive 1 1) malformed)
  = [AwaitFetch hover_malformed] ∧
  (@afterFetch platform hover_malformed (Some "image/png")
     (exec (@mouseEnterHandler platform 3%positive 1 1) malformed)).1 = Throw RangeError ∧
  timers malformed_pending !! 1%positive = Some (Int 0) ∧
  timers (exec (popoverMouseEnter 2%positive) malformed_pending) !! 1%positive
  = Some (Int 0).
Proof. split_and!; by vm_compute. Qed.

(** C5 at work: link 3 of [deep] is at depth 3. *)
Lemma no_popover_at_max_depth_witness :
  @getCurrentPopoverDepth 3%positive deep = Int 3 ∧ 3 ≤ 3 ∧
  (@mouseEnterHandler platform 3%positive 1 1 deep).1 = Ok tt ∧
  fetch_log (exec (@mouseEnterHandler platform 3%positive 1 1) deep) = fetch_log deep ∧
  heap (exec (@mouseEnterHandler platform 3%positive 1 1) deep) = heap deep ∧
  activePopoverStack (exec (@mouseEnterHandler platform 3%positive 1 1) deep)
  = activePopoverStack deep.
Proof.
  assert (@getCurrentPopoverDepth 3%positive deep = Int 3) as H1 by by_evaluation.
  assert (3 ≤ 3) as H2 by lia.
  destruct (no_popover_at_max_depth (H:=platform) 3%positive 1 1 deep 3 H1 H2)
    as (Hok & Hlog & _ & Hheap & _ & Hstack & _).
  exact (conj H1 (conj H2 (conj Hok (conj Hlog (conj Hheap Hstack))))).
Defined.

(** C6, the amended claim at work: link 5 goes to [/page], without a
    fragment, and the popover of [/page] is in the document; the placement
    that is then computed is (12, 34). *)
Lemma reuse_without_fetch_witness :
  attrs (elem previewed 5%positive) !! "data-no-popover" ≠ Some "true" ∧
  @getCurrentPopoverDepth 5%positive previewed = Int 0 ∧
  0 ≤ 0 < 3 ∧
  link_url (elem previewed 5%positive) = Some (Url "https://site.example" "/page" "" "") ∧
  getElementById "popover-/page" previewed = Some 6%positive ∧
  decodeURIComponent (Platform:=platform) "" = Ok "" ∧
  fetch_log (exec (@mouseEnterHandler platform 5%positive 1 1) previewed)
  = fetch_log previewed ∧
  visible (exec (@mouseEnterHandler platform 5%positive 1 1) previewed) 6%positive ∧
  (@mouseEnterHandler platform 5%positive 1 1 previewed).1 = Ok tt ∧
  style (elem (@turn platform (PositionSettled (length (tasks previewed)) "12" "34")
                 (exec (@mouseEnterHandler platform 5%positive 1 1) previewed))
              6%positive) !! "transform"
  = Some "translate(12px, 34px)".
Proof.
  assert (attrs (elem previewed 5%positive) !! "data-no-popover" ≠ Some "true")
    as H1 by by_evaluation.
  assert (@getCurrentPopoverDepth 5%positive previewed = Int 0) as H2 by by_evaluation.
  assert (0 ≤ 0 < 3) as H3 by lia.
  assert (link_url (elem previewed 5%positive)
          = Some (Url "https://site.example" "/page" "" "")) as H4 by by_evaluation.
  assert (getElementById "popover-/page" previewed = Some 6%positive) as H5
    by by_evaluation.
  assert (decodeURIComponent (Platform:=platform) "" = Ok "") as H6 by reflexivity.
  destruct (reuse_without_fetch (H:=platform) 5%positive 1 1 previewed 0
              (Url "https://site.example" "/page" "" "") 6%positive H1 H2 H3 H4 H5)
    as (Hlog & _ & _ & Hshown).
  destruct (Hshown "" H6) as (_ & Hvis & _ & _ & _ & Hplaced & Hattach).
  destruct (Hattach eq_refl) as [Hok _].
  destruct (Hplaced "12" "34") as (Hstyle & _).
  exact (conj H1 (conj H2 (conj H3 (conj H4 (conj H5 (conj H6
           (conj Hlog (conj Hvis (conj Hok Hstyle))))))))).
Defined.

(** C6 as stated fails: the fetch for link 2 failed, so no popover exists
    when link 2 is entered again, and the same URL is fetched a second
    time. *)
Lemma reuse_without_fetch_counterexample :
  fetch_log retried
  = [Url "https://site.example" "/page" "" ""; Url "https://site.example" "/page" "" ""].
Proof. by vm_compute. Qed.

(** C7, the amended claim at work.  Clearing [previewed], whose stack has
    one slot, from the depth 1 leaves the popover 6 as it is.  In [aliased]
    the popover 6 is recorded at the depths 0 and 1: clearing from the
    depth 1 hides it and keeps the slot 0. *)
Lemma clearing_from_depth_witness :
  0 ≤ 1 < 2 ^ 32 ∧
  (@clearDeeperPopovers (Int 1) previewed).1 = Ok tt ∧
  heap (exec (clearDeeperPopovers (Int 1)) previewed) !! 6%positive
  = heap previewed !! 6%positive ∧
  length (activePopoverStack (exec (clearDeeperPopovers (Int 1)) previewed)) = 1%nat ∧
  Some 6%positive ∈ drop (Z.to_nat 1) (activePopoverStack aliased) ∧
  activePopoverStack aliased !! 0%nat = Some (Some 6%positive) ∧
  heap (exec (clearDeeperPopovers (Int 1)) aliased) !! 6%positive
  = class_remove "active-popover" <$> heap aliased !! 6%positive ∧
  ¬ visible (exec (clearDeeperPopovers (Int 1)) aliased) 6%positive ∧
  length (activePopoverStack (exec (clearDeeperPopovers (Int 1)) aliased)) = 1%nat ∧
  activePopoverStack (exec (clearDeeperPopovers (Int 1)) aliased) !! 0%nat
  = Some (Some 6%positive).
Proof.
  assert (0 ≤ 1 < 2 ^ 32) as H1 by lia.
  destruct (clearing_from_depth 1 previewed H1) as (Hok & _ & Hkeep & _ & Hlen & _).
  assert (Some 6%positive ∉ drop (Z.to_nat 1) (activePopoverStack previewed)) as H2
    by by_evaluation.
  assert (Some 6%positive ∈ drop (Z.to_nat 1) (activePopoverStack aliased)) as H3
    by by_evaluation.
  assert (activePopoverStack aliased !! 0%nat = Some (Some 6%positive)) as H4
    by by_evaluation.
  destruct (clearing_from_depth 1 aliased H1) as (_ & Hhide & _ & _ & Hlen' & Hslots).
  destruct (Hhide 6%positive H3) as [Hheap Hvis].
  exact (conj H1 (conj Hok (conj (Hkeep 6%positive H2) (conj Hlen
           (conj H3 (conj H4 (conj Hheap (conj Hvis (conj Hlen'
              (Hslots 0%nat (Some 6%positive) ltac:(cbn; lia) H4)))))))))).
Defined.

(** C7 as stated fails: in [aliased], reached by entering inside the
    popover of [/page] a link to [/page], that popover is recorded at the
    depths 0 and 1; clearing from depth 1 hides it, though it is recorded at
    depth 0 and stays recorded there. *)
Lemma clearing_from_depth_counterexample :
  activePopoverStack aliased = [Some 6%positive; Some 6%positive] ∧
  visible aliased 6%positive ∧
  activePopoverStack (exec (clearDeeperPopovers (Int 1)) aliased) = [Some 6%positive] ∧
  ¬ visible (exec (clearDeeperPopovers (Int 1)) aliased) 6%positive.
Proof. split_and!; by vm_compute. Qed.

(** C8 at work: in [left_preview] the timeout 1 is pending for the depth
    0.  Scheduling a hide at the depth 0 again cancels it and leaves the new
    timeout 2 as the one pending for the depth; and when the timeout 1
    expires instead, its callback ends normally and nothing is left for the
    depth 0. *)
Lemma one_hide_timer_per_depth_witness :
  timers left_preview !! 1%positive = Some (Int 0) ∧
  hideTimeouts left_preview !! Int 0 = Some 1%positive ∧
  next_timer left_preview = 2%positive ∧
  timers (exec (scheduleHideAtDepth (Int 0)) left_preview) !! 1%positive = None ∧
  timers (exec (scheduleHideAtDepth (Int 0)) left_preview) !! 2%positive = Some (Int 0) ∧
  hideTimeouts (exec (scheduleHideAtDepth (Int 0)) left_preview) !! Int 0
  = Some 2%positive ∧
  (@hideTimeoutFires 1%positive left_preview).1 = Ok tt ∧
  timers (exec (hideTimeoutFires 1%positive) left_preview) !! 1%positive = None ∧
  hideTimeouts (exec (hideTimeoutFires 1%positive) left_preview) !! Int 0 = None.
Proof.
  assert (timers left_preview !! 1%positive = Some (Int 0)) as H1 by by_evaluation.
  assert (hideTimeouts left_preview !! Int 0 = Some 1%positive) as H2 by by_evaluation.
  assert (next_timer left_preview = 2%positive) as H3 by by_evaluation.
  assert (left_preview
          = @run platform
              [Nav; MouseEnter 2%positive 10 10;
               FetchSettled 0 (Some "text/html; charset=utf-8");
               TextSettled 0 "page"; MouseLeave 6%positive None]
              (loaded (heap home) (document home) (body home))) as Hs
    by (vm_compute; reflexivity).
  pose proof (one_hide_timer_per_depth (H:=platform)
                (heap home) (document home) (body home)
                [Nav; MouseEnter 2%positive 10 10;
                 FetchSettled 0 (Some "text/html; charset=utf-8");
                 TextSettled 0 "page"; MouseLeave 6%positive None]) as Hthm.
  cbv zeta in Hthm. rewrite <- Hs in Hthm. destruct Hthm as (_ & Hschedule & Hfire).
  destruct (Hschedule (Int 0)) as (Hold & Hnew & Hentry & _).
  destruct (Hfire 1%positive (Int 0) H1) as (Hok & Hgone & Hout & _).
  exact (conj H1 (conj H2 (conj H3 (conj (Hold 1%positive H2)
           (conj (proj2 (Hnew 2%positive) (eq_sym H3))
              (conj (eq_trans Hentry (f_equal Some H3))
                 (conj Hok (conj Hgone Hout)))))))).
Defined.




(** X2 at work: link 2 of [home] has no popover above it; link 13 of
    [previewed] is inside the popover 6, which is at depth 0. *)
Lemma link_depth_by_nearest_popover_witness :
  @getCurrentPopoverDepth 2%positive home = Int 0 ∧
  list_find (is_popover previewed) (ancestors 13%positive (document previewed))
  = Some (2%nat, 6%positive) ∧
  - 2 ^ 53 < 0 < 2 ^ 53 ∧
  dataset_depth previewed 6%positive = Some (toString (Int 0)) ∧
  @getCurrentPopoverDepth 13%positive previewed = Int (0 + 1).
Proof.
  assert (Forall (λ a, ¬ is_popover home a) (ancestors 2%positive (document home)))
    as H1 by by_evaluation.
  assert (list_find (is_popover previewed) (ancestors 13%positive (document previewed))
          = Some (2%nat, 6%positive)) as H2 by by_evaluation.
  assert (- 2 ^ 53 < 0 < 2 ^ 53) as Hb by lia.
  assert (dataset_depth previewed 6%positive = Some (toString (Int 0))) as H3
    by by_evaluation.
  exact (conj (proj1 (link_depth_by_nearest_popover 2%positive home)
                     (proj1 (Forall_forall _ _) H1))
           (conj H2 (conj Hb (conj H3
              (proj1 (proj2 (link_depth_by_nearest_popover 13%positive previewed)
                            2%nat 6%positive H2) 0 Hb H3))))).
Defined.

(** X3 at work: the popover 6 of [previewed] shown at depth 1. *)
Lemma shown_depth_is_read_back_witness :
  0 ≤ 1 < 2 ^ 32 ∧ is_Some (heap previewed !! 6%positive) ∧
  @getPopoverDepth 6%positive
    (exec (@showPopover platform hover2 None 6%positive (Int 1)) previewed) = Int 1 ∧
  @getCurrentPopoverDepth 13%positive
    (exec (@showPopover platform hover2 None 6%positive (Int 1)) previewed) = Int (1 + 1).
Proof.
  assert (0 ≤ 1 < 2 ^ 32) as H1 by lia.
  assert (is_Some (heap previewed !! 6%positive)) as H2 by by_evaluation.
  assert (list_find (is_popover previewed) (ancestors 13%positive (document previewed))
          = Some (2%nat, 6%positive)) as H3 by by_evaluation.
  destruct (shown_depth_is_read_back (H:=platform) hover2 None 6%positive 1 previewed H1 H2)
    as [Hp Hl].
  exact (conj H1 (conj H2 (conj Hp (Hl 13%positive 2%nat H3)))).
Defined.

(** X1 at work: the popover 2 of [malformed] has the depth attribute [abc],
    and the popover 6 of [previewed] the depth 0 that the script wrote. *)
Lemma getPopoverDepth_never_NaN_witness :
  dataset_depth malformed 2%positive = Some "abc" ∧ parseInt "abc" (Some 10) = NaN ∧
  @getPopoverDepth 2%positive malformed = Int 0 ∧
  - 2 ^ 53 ≤ 0 ≤ 2 ^ 53 ∧
  dataset_depth previewed 6%positive = Some (toString (Int 0)) ∧
  @getPopoverDepth 6%positive previewed = Int 0.
Proof.
  assert (dataset_depth malformed 2%positive = Some "abc") as H1 by by_evaluation.
  assert (parseInt "abc" (Some 10) = NaN) as H2 by by_evaluation.
  assert (- 2 ^ 53 ≤ 0 ≤ 2 ^ 53) as Hb by lia.
  assert (dataset_depth previewed 6%positive = Some (toString (Int 0))) as H3
    by by_evaluation.
  destruct (getPopoverDepth_never_NaN 2%positive malformed) as (_ & Hzero & _).
  destruct (getPopoverDepth_never_NaN 6%positive previewed) as (_ & _ & Hback).
  exact (conj H1 (conj H2
           (conj (Hzero (or_intror (or_intror (ex_intro _ "abc" (conj H1 H2)))))
              (conj Hb (conj H3 (Hback 0 Hb H3)))))).
Defined.

(** X4 at work: clearing [previewed] from the depth -1. *)
Lemma clearing_from_a_bad_depth_witness :
  - 2 ^ 53 ≤ -1 < 0 ∧ Some 6%positive ∈ activePopoverStack previewed ∧
  (@clearDeeperPopovers (Int (-1)) previewed).1 = Throw RangeError ∧
  ¬ visible (exec (clearDeeperPopovers (Int (-1))) previewed) 6%positive.
Proof.
  assert (- 2 ^ 53 ≤ -1 < 0) as H1 by lia.
  assert (Some 6%positive ∈ activePopoverStack previewed) as H2 by by_evaluation.
  destruct (proj2 (clearing_from_a_bad_depth previewed) (-1) H1) as (Hthrow & _ & Hhide & _).
  exact (conj H1 (conj H2 (conj Hthrow (Hhide 6%positive H2)))).
Defined.

(** X5 at work, on the stack of [aliased], which has two slots. *)
Lemma clearing_twice_witness :
  0 ≤ 0 ≤ 1 ∧ 1 < 2 ^ 32 ∧
  exec (clearDeeperPopovers (Int 0)) (exec (clearDeeperPopovers (Int 1)) aliased)
  = exec (clearDeeperPopovers (Int 0)) aliased.
Proof.
  assert (0 ≤ 0 ≤ 1) as H1 by lia.
  assert (1 < 2 ^ 32) as H2 by lia.
  exact (conj H1 (conj H2 (clearing_twice 0 1 aliased H1 H2))).
Defined.

(** X6 at work: the stack of [previewed] has one slot. *)
Lemma clearing_above_the_top_witness :
  Z.of_nat (length (activePopoverStack previewed)) ≤ 2 < 2 ^ 32 ∧
  clearDeeperPopovers (Int 2) previewed
  = (Ok tt,
     on_activePopoverStack
       (λ l, l ++ replicate (Z.to_nat 2 - length (activePopoverStack previewed)) None)
       previewed).
Proof.
  assert (Z.of_nat (length (activePopoverStack previewed)) ≤ 2 < 2 ^ 32) as H1
    by by_evaluation.
  exact (conj H1 (clearing_above_the_top 2 previewed H1)).
Defined.

(** X9 at work: a hide is scheduled in [previewed] at depth 0 and the
    pointer enters the popover 6, of depth 0. *)
Lemma entering_a_popover_cancels_the_hide_witness :
  dataset_depth previewed 6%positive = Some (toString (Int 0)) ∧ 0 ≤ 0 ∧
  timers (exec (scheduleHideAtDepth (Int 0)) previewed) !! next_timer previewed
  = Some (Int 0) ∧
  timers (exec (popoverMouseEnter 6%positive) (exec (scheduleHideAtDepth (Int 0)) previewed))
    !! next_timer previewed = None.
Proof.
  assert (dataset_depth previewed 6%positive = Some (toString (Int 0))) as H1
    by by_evaluation.
  assert (0 ≤ 0) as H2 by lia.
  destruct (entering_a_popover_cancels_the_hide (H:=platform)
              (heap home) (document home) (body home)
              [Nav; MouseEnter 2%positive 10 10;
               FetchSettled 0 (Some "text/html; charset=utf-8"); TextSettled 0 "page"]
              6%positive 0 0 H1 H2) as (Hpending & _ & Hgone & _).
  exact (conj H1 (conj H2 (conj Hpending Hgone))).
Defined.

(** X10 at work: the pointer leaves link 2 of [previewed] for the empty
    page, and the timeout expires. *)
Lemma leaving_a_link_witness :
  activePopoverStack previewed = [Some 6%positive] ∧
  activePopoverStack
    (exec (hideTimeoutFires (next_timer previewed))
       (exec (handleLinkLeave 2%positive None) previewed)) = [] ∧
  ¬ visible (exec (hideTimeoutFires (next_timer previewed))
               (exec (handleLinkLeave 2%positive None) previewed)) 6%positive.
Proof.
  assert (activePopoverStack previewed = [Some 6%positive]) as H1 by by_evaluation.
  assert (Some 6%positive ∈ activePopoverStack previewed) as H2 by by_evaluation.
  assert (∀ target, @None nid = Some target →
                    closest (is_popover previewed) target previewed = None) as Hout
    by (intros target [=]).
  destruct (proj2 (leaving_a_link 2%positive None previewed) Hout)
    as (_ & _ & _ & _ & _ & _ & Hempty & Hhide & _).
  exact (conj H1 (conj Hempty (Hhide 6%positive H2))).
Defined.

(** X11 at work: the pointer leaves the popover 6 of [previewed], of depth
    0, for the empty page. *)
Lemma leaving_a_popover_witness :
  dataset_depth previewed 6%positive = Some (toString (Int 0)) ∧ 0 ≤ 0 < 2 ^ 32 ∧
  (popoverMouseLeave 6%positive None previewed).1 = Ok tt ∧
  timers (exec (popoverMouseLeave 6%positive None) previewed) !! next_timer previewed
  = Some (Int 0) ∧
  length (activePopoverStack
            (exec (hideTimeoutFires (next_timer previewed))
               (exec (popoverMouseLeave 6%positive None) previewed))) = Z.to_nat 0.
Proof.
  assert (dataset_depth previewed 6%positive = Some (toString (Int 0))) as H1
    by by_evaluation.
  assert (0 ≤ 0 < 2 ^ 32) as H2 by lia.
  assert (∀ target q, @None nid = Some target →
                      closest (is_popover previewed) target previewed = Some q →
                      getPopoverDepth q previewed = Int 0) as Hsame
    by (intros target q [=]).
  destruct (proj2 (leaving_a_popover 6%positive None 0 previewed H1 H2) Hsame)
    as (Hok & Hpending & _ & _ & _ & Hlen & _).
  exact (conj H1 (conj H2 (conj Hok (conj Hpending Hlen)))).
Defined.

(** X14 at work: the link of [opted_out]. *)
Lemma hovering_an_opted_out_link_witness :
  attrs (elem opted_out 2%positive) !! "data-no-popover" = Some "true" ∧
  @mouseEnterHandler platform 2%positive 1 1 opted_out
  = (Ok tt, on_activeAnchor (λ _, Some 2%positive) opted_out) ∧
  fetch_log (exec (@mouseEnterHandler platform 2%positive 1 1) opted_out)
  = fetch_log opted_out.
Proof.
  assert (attrs (elem opted_out 2%positive) !! "data-no-popover" = Some "true") as H1
    by by_evaluation.
  destruct (hovering_an_opted_out_link (H:=platform) 2%positive 1 1 opted_out H1)
    as (Hrun & _ & _ & _ & Hlog & _).
  exact (conj H1 (conj Hrun Hlog)).
Defined.

(** X15 at work: the link of [broken], on the platform [strict]. *)
Lemma hovering_a_malformed_fragment_witness :
  attrs (elem broken 2%positive) !! "data-no-popover" ≠ Some "true" ∧
  ge (@getCurrentPopoverDepth 2%positive broken) MAX_POPOVER_DEPTH = false ∧
  link_url (elem broken 2%positive)
  = Some (Url "https://site.example" "/page" "" "#%E0%A4%A") ∧
  decodeURIComponent (Platform:=strict) "#%E0%A4%A" = Throw URIError ∧
  (@mouseEnterHandler strict 2%positive 1 1 broken).1 = Throw URIError ∧
  activeAnchor (exec (@mouseEnterHandler strict 2%positive 1 1) broken) = Some 2%positive ∧
  fetch_log (exec (@mouseEnterHandler strict 2%positive 1 1) broken) = fetch_log broken.
Proof.
  assert (attrs (elem broken 2%positive) !! "data-no-popover" ≠ Some "true") as H1
    by by_evaluation.
  assert (ge (@getCurrentPopoverDepth 2%positive broken) MAX_POPOVER_DEPTH = false) as H2
    by by_evaluation.
  assert (link_url (elem broken 2%positive)
          = Some (Url "https://site.example" "/page" "" "#%E0%A4%A")) as H3
    by by_evaluation.
  assert (decodeURIComponent (Platform:=strict) "#%E0%A4%A" = Throw URIError) as H4
    by (vm_compute; reflexivity).
  destruct (hovering_a_malformed_fragment (H:=strict) 2%positive 1 1 broken
              (Url "https://site.example" "/page" "" "#%E0%A4%A") URIError
              H1 H2 H3 H4) as (Hthrow & Hanchor & _ & Hlog & _).
  exact (conj H1 (conj H2 (conj H3 (conj H4 (conj Hthrow (conj Hanchor Hlog)))))).
Defined.

(** X16 at work: link 2 of [home]. *)
Lemma hovering_a_new_link_witness :
  attrs (elem home 2%positive) !! "data-no-popover" ≠ Some "true" ∧
  ge (@getCurrentPopoverDepth 2%positive home) MAX_POPOVER_DEPTH = false ∧
  link_url (elem home 2%positive)
  = Some (Url "https://site.example" "/page" "" "#sectionA") ∧
  decodeURIComponent (Platform:=platform) "#sectionA" = Ok "#sectionA" ∧
  getElementById "popover-/page" home = None ∧
  fetch_log (exec (@mouseEnterHandler platform 2%positive 10 10) home)
  = fetch_log home ++ [Url "https://site.example" "/page" "" ""] ∧
  heap (exec (@mouseEnterHandler platform 2%positive 10 10) home) = heap home.
Proof.
  assert (attrs (elem home 2%positive) !! "data-no-popover" ≠ Some "true") as H1
    by by_evaluation.
  assert (ge (@getCurrentPopoverDepth 2%positive home) MAX_POPOVER_DEPTH = false) as H2
    by by_evaluation.
  assert (link_url (elem home 2%positive)
          = Some (Url "https://site.example" "/page" "" "#sectionA")) as H3
    by by_evaluation.
  assert (decodeURIComponent (Platform:=platform) "#sectionA" = Ok "#sectionA") as H4
    by reflexivity.
  assert (getElementById "popover-/page" home = None) as H5 by by_evaluation.
  destruct (hovering_a_new_link (H:=platform) 2%positive 10 10 home
              (Url "https://site.example" "/page" "" "#sectionA") "#sectionA"
              H1 H2 H3 H4 H5) as (_ & _ & Hlog & _ & Hheap & _).
  exact (conj H1 (conj H2 (conj H3 (conj H4 (conj H5 (conj Hlog Hheap)))))).
Defined.

(** X27 at work: the link of [unlinked]. *)
Lemma hovering_a_link_without_url_witness :
  attrs (elem unlinked 2%positive) !! "data-no-popover" ≠ Some "true" ∧
  ge (@getCurrentPopoverDepth 2%positive unlinked) MAX_POPOVER_DEPTH = false ∧
  link_url (elem unlinked 2%positive) = None ∧
  (@mouseEnterHandler platform 2%positive 1 1 unlinked).1 = Throw TypeError ∧
  activeAnchor (exec (@mouseEnterHandler platform 2%positive 1 1) unlinked)
  = Some 2%positive ∧
  fetch_log (exec (@mouseEnterHandler platform 2%positive 1 1) unlinked)
  = fetch_log unlinked.
Proof.
  assert (attrs (elem unlinked 2%positive) !! "data-no-popover" ≠ Some "true") as H1
    by by_evaluation.
  assert (ge (@getCurrentPopoverDepth 2%positive unlinked) MAX_POPOVER_DEPTH = false) as H2
    by by_evaluation.
  assert (link_url (elem unlinked 2%positive) = None) as H3 by by_evaluation.
  destruct (hovering_a_link_without_url (H:=platform) 2%positive 1 1 unlinked H1 H2 H3)
    as (Hthrow & Hanchor & _ & Hlog & _).
  exact (conj H1 (conj H2 (conj H3 (conj Hthrow (conj Hanchor Hlog))))).
Defined.

(** X17 at work: a response of the type [image/png]. *)
Lemma media_preview_witness :
  hd "" (split "/" (hd "" (split ";" "image/png"))) = "image" ∧
  ∃ pe pi img h,
    @afterFetch platform hover2 (Some "image/png") two_hovers
    = @insertPopover platform hover2 pe pi [Node img []] (on_heap (λ _, h) two_hovers) ∧
    h !! img
    = Some (setAttribute "alt" (pathname (targetUrl hover2))
              (setAttribute "src" (url_toString (targetUrl hover2)) (blank "img"))).
Proof.
  assert (hd "" (split "/" (hd "" (split ";" "image/png"))) = "image") as H1
    by by_evaluation.
  destruct (media_preview (H:=platform) hover2 "image/png" two_hovers) as (_ & Himg & _).
  destruct (Himg H1) as (pe & pi & img & h & Hrun & _ & _ & _ & _ & _ & _ & Himg').
  exact (conj H1 (ex_intro _ pe (ex_intro _ pi (ex_intro _ img (ex_intro _ h
           (conj Hrun Himg')))))).
Defined.

(** X20 at work: on [home], a [nav] event, a hover of link 2, and the
    cleanups. *)
Lemma cleanups_undo_nav_witness :
  Forall (λ e, e ≠ Cleanups) [MouseEnter 2%positive 10 10] ∧
  2%positive ∈ nodes (document home) ∧ is_internal_link home 2%positive ∧
  (2%positive, MouseEnterHandler)
    ∈ listeners (@run platform [MouseEnter 2%positive 10 10] (@turn platform Nav home)) ∧
  ((2%positive, MouseEnterHandler)
     ∉ listeners (@turn platform Cleanups
                    (@run platform [MouseEnter 2%positive 10 10] (@turn platform Nav home)))).
Proof.
  assert (Forall (λ e, e ≠ Cleanups) [MouseEnter 2%positive 10 10]) as H1
    by (constructor; [by intros [=] | constructor]).
  assert (2%positive ∈ nodes (document home)) as H2 by by_evaluation.
  assert (is_internal_link home 2%positive) as H3 by by_evaluation.
  assert ((2%positive, MouseEnterHandler)
            ∈ listeners (@run platform [MouseEnter 2%positive 10 10]
                           (@turn platform Nav home))) as H4 by by_evaluation.
  destruct (cleanups_undo_nav (H:=platform) home [MouseEnter 2%positive 10 10] 2%positive
              H1 H2 H3) as (Hgone & _).
  exact (conj H1 (conj H2 (conj H3 (conj H4 Hgone)))).
Defined.

(** X21 at work: in [left_link] the timeout 1 is pending. *)
Lemma depths_are_below_the_maximum_witness :
  timers left_link !! 1%positive = Some (Int 0) ∧ ∃ z, Int 0 = Int z ∧ 0 ≤ z < 3.
Proof.
  assert (timers left_link !! 1%positive = Some (Int 0)) as H1 by by_evaluation.
  destruct (depths_are_below_the_maximum (H:=platform)
              (heap home) (document home) (body home) [Nav; MouseLeave 2%positive None])
    as (Htimers & _).
  exact (conj H1 (Htimers 1%positive (Int 0) H1)).
Defined.

(** X22 at work: in [left_link] the registry holds the timeout 1 for the
    depth 0. *)
Lemma registry_mirrors_the_timers_witness :
  hideTimeouts left_link !! Int 0 = Some 1%positive ∧
  timers left_link !! 1%positive = Some (Int 0).
Proof.
  assert (hideTimeouts left_link !! Int 0 = Some 1%positive) as H1 by by_evaluation.
  exact (conj H1
           (proj1 (registry_mirrors_the_timers (H:=platform)
                     (heap home) (document home) (body home)
                     [Nav; MouseLeave 2%positive None] (Int 0) 1%positive) H1)).
Defined.

(** X24 at work: the URL fetched for link 2 in [fetched]. *)
Lemma fetches_are_bare_witness :
  Url "https://site.example" "/page" "" "" ∈ fetch_log fetched ∧
  search (Url "https://site.example" "/page" "" "") = "" ∧
  hash (Url "https://site.example" "/page" "" "") = "".
Proof.
  assert (Url "https://site.example" "/page" "" "" ∈ fetch_log fetched) as H1
    by by_evaluation.
  exact (conj H1
           (fetches_are_bare (H:=platform) (heap home) (document home) (body home)
              [Nav; MouseEnter 2%positive 10 10;
               FetchSettled 0 (Some "text/html; charset=utf-8")]
              (Url "https://site.example" "/page" "" "") H1)).
Defined.

(** X25 at work: in [fetched] the elements 6 and 7 are made, link 2 is the
    active anchor and the document has no popover. *)
Lemma preview_is_shown_witness :
  getElementById (popoverId hover2) fetched = None ∧
  body fetched ∈ nodes (document fetched) ∧
  activeAnchor fetched = Some (link hover2) ∧
  currentDepth hover2 = Int 0 ∧ 0 ≤ 0 < 3 ∧
  is_Some (heap fetched !! 6%positive) ∧
  visible (exec (@insertPopover platform hover2 6%positive 7%positive []) fetched)
          6%positive ∧
  activePopoverStack (exec (@insertPopover platform hover2 6%positive 7%positive []) fetched)
    !! Z.to_nat 0 = Some (Some 6%positive).
Proof.
  assert (getElementById (popoverId hover2) fetched = None) as H1 by by_evaluation.
  assert (body fetched ∈ nodes (document fetched)) as H2 by by_evaluation.
  assert (activeAnchor fetched = Some (link hover2)) as H3 by by_evaluation.
  assert (currentDepth hover2 = Int 0) as H4 by reflexivity.
  assert (0 ≤ 0 < 3) as H5 by lia.
  assert (is_Some (heap fetched !! 6%positive)) as H6 by by_evaluation.
  destruct (preview_is_shown (H:=platform) hover2 6%positive 7%positive [] 0 fetched
              H1 H2 H3 H4 H5 H6) as (_ & Hvisible & _ & _ & Hslot & _).
  exact (conj H1 (conj H2 (conj H3 (conj H4 (conj H5 (conj H6 (conj Hvisible Hslot))))))).
Defined.

(** X26 at work: the popover 6 of [previewed], with the inner container 7,
    shown for link 2, whose fragment is [#sectionA]. *)
Lemma scrolling_to_the_heading_witness :
  0 ≤ 0 < 2 ^ 32 ∧ fragment hover2 ≠ "" ∧ slice1 (fragment hover2) = "sectionA" ∧
  all_nmchar "sectionA" = true ∧
  @showPopover platform hover2 (Some 7%positive) 6%positive (Int 0) previewed
  = (Ok tt,
     match list_find (has_id (shown hover2 6%positive 0 previewed)
                             ("popover-internal-" +:+ "sectionA"))
                     (descendants 7%positive
                        (document (shown hover2 6%positive 0 previewed))) with
     | Some (_, heading) =>
         on_heap (alter (set_scrollTop
                           (offsetTop (elem (shown hover2 6%positive 0 previewed) heading)
                            - 12)) 7%positive)
                 (shown hover2 6%positive 0 previewed)
     | None => shown hover2 6%positive 0 previewed
     end).
Proof.
  assert (0 ≤ 0 < 2 ^ 32) as H1 by lia.
  assert (fragment hover2 ≠ "") as H2 by by_evaluation.
  assert (slice1 (fragment hover2) = "sectionA") as H3 by reflexivity.
  assert (all_nmchar "sectionA" = true) as H4 by reflexivity.
  exact (conj H1 (conj H2 (conj H3 (conj H4
           (scrolling_to_the_heading (H:=platform) hover2 7%positive 6%positive 0
              "sectionA" previewed H1 H2 H3 H4))))).
Defined.
